(** * dolfinx_mpc: verification of [cpp/utils.cpp]

    A shallow embedding of the utilities of the multi-point-constraint
    layer: the block-to-facet CSR map, the neighbourhood communicators, the
    owner-to-ghost communicator, the sparsity pattern of a constrained
    bilinear form, and the collision helpers; then the block-to-cell map,
    the matrix of a constrained form, the basis functions on a cell and at
    points, and the dof coordinates.

    Conventions of the embedding.
    - [std::int32_t] and [int] values are [Z]; where the source does
      arithmetic on them the 32-bit wrap-around is written with [wrap32].
    - [std::vector<T>] and [std::span<T>] are [list T]; an access [v[i]]
      outside the vector is undefined behaviour in the source and is the
      failure [out_of_range] here; an undefined integer division is
      [division_error].
    - [double] is [spec_float], the IEEE 754 values of the standard library
      (zeros, infinities, NaN, finite numbers), and [<] on it is [SFltb].
    - [assert(e)] is modelled as compiled in: a false [e] aborts with
      [assertion_failed]; [throw std::runtime_error(m)] is [runtime_error m].
    - Code that can fail lives in the error monad [result]. *)

From Stdlib Require Import ZArith Lia Floats.SpecFloat.
From stdpp Require Import base tactics option list numbers strings sets sorting.

Local Open Scope Z_scope.

(** ** Failures and the error monad *)

Inductive failure : Type :=
| runtime_error (what : string)
| assertion_failed (expr : string)
| length_error
| division_error
| out_of_range.

Inductive result (A : Type) : Type :=
| Ok (a : A)
| Err (e : failure).
Arguments Ok {A} a.
Arguments Err {A} e.

#[export] Instance result_ret : MRet result := @Ok.
#[export] Instance result_bind : MBind result :=
  λ A B f m, match m with Ok a => f a | Err e => Err e end.

Definition assert (expr : string) (b : bool) : result unit :=
  if b then Ok tt else Err (assertion_failed expr).

(** [for (std::size_t i = start; i < start + count; ++i) body] *)
Fixpoint for_loop {St : Type} (body : nat → St → result St)
    (start count : nat) (s : St) : result St :=
  match count with
  | O => Ok s
  | S k => s' ← body start s; for_loop body (S start) k s'
  end.

(** [for (auto x : xs) body] *)
Fixpoint for_each {A St : Type} (body : A → St → result St)
    (xs : list A) (s : St) : result St :=
  match xs with
  | [] => Ok s
  | x :: xs' => s' ← body x s; for_each body xs' s'
  end.

(** ** Machine integers, doubles and vectors *)

Abbreviation double := spec_float.

Definition double_zero : double := S754_zero false.

Definition int32_max : Z := 2147483647.

Definition wrap32 (z : Z) : Z := (z + 2 ^ 31) `mod` 2 ^ 32 - 2 ^ 31.

(** [v[i]] as an rvalue *)
Definition vget {A : Type} (v : list A) (i : Z) : result A :=
  if bool_decide (0 ≤ i) then
    match v !! Z.to_nat i with
    | Some x => Ok x
    | None => Err out_of_range
    end
  else Err out_of_range.

(** [v[i] = x] *)
Definition vset {A : Type} (v : list A) (i : Z) (x : A) : result (list A) :=
  if bool_decide (0 ≤ i < Z.of_nat (length v))
  then Ok (<[Z.to_nat i := x]> v)
  else Err out_of_range.

(** [std::vector<std::int32_t> v(n)]: [n] zeros; a negative [n] converts
    to a size beyond [max_size()] and the constructor throws. *)
Definition vector_new (n : Z) : result (list Z) :=
  if bool_decide (0 ≤ n) then Ok (replicate (Z.to_nat n) 0)
  else Err length_error.

(** [std::find(first, last, x) - first]: the position of the first [x], or
    the length when there is none. *)
Fixpoint std_find (x : Z) (l : list Z) : nat :=
  match l with
  | [] => O
  | y :: l' => if bool_decide (y = x) then O else S (std_find x l')
  end.

(** [std::partial_sum(first, last, out)] on [int32] values, returned as the
    list of running sums; [acc] is the running sum so far. *)
Fixpoint partial_sum_from (acc : Z) (v : list Z) : list Z :=
  match v with
  | [] => []
  | x :: v' => let acc' := wrap32 (acc + x) in acc' :: partial_sum_from acc' v'
  end.

Definition partial_sum (v : list Z) : list Z :=
  match v with
  | [] => []
  | x :: v' => x :: partial_sum_from x v'
  end.

(** ** [dolfinx::graph::AdjacencyList<std::int32_t>]

    The container stores a flat [array] and the row [offsets];
    [links(node)] is the span [array[offsets[node] .. offsets[node + 1])]
    and [num_nodes()] is [offsets.size() - 1].  Reading an offset that
    does not exist is [out_of_range]. *)

Record AdjacencyList : Type := {
  array : list Z;
  offsets : list Z
}.

Definition num_nodes (g : AdjacencyList) : Z :=
  Z.of_nat (length (offsets g)) - 1.

Definition links (g : AdjacencyList) (node : Z) : result (list Z) :=
  b ← vget (offsets g) node;
  e ← vget (offsets g) (node + 1);
  Ok (take (Z.to_nat (e - b)) (drop (Z.to_nat b) (array g))).

(** A row of an adjacency list, empty where [links] is undefined; used in
    statements only. *)
Definition row (g : AdjacencyList) (node : Z) : list Z :=
  match links g node with
  | Ok r => r
  | Err _ => []
  end.

(** ** The collaborators: mesh, dofmap, index map *)

Record IndexMap : Type := {
  size_local : Z;
  num_ghosts : Z;
  owners : list Z;
  index_to_dest_ranks : AdjacencyList
}.

Record DofMap : Type := {
  cell_dofs : Z → list Z;
  entity_closure_dofs : Z → Z → list Z;
  index_map : IndexMap;
  index_map_bs : Z
}.

Record Topology : Type := {
  topology_dim : Z;
  connectivity : Z → Z → AdjacencyList
}.

Record FiniteElement : Type := {
  block_size : Z;
  tabulate_shape : Z → Z → Z * Z * Z * Z
}.

Record Mesh : Type := {
  topology : Topology;
  geometry_dim : Z
}.

Record FunctionSpace : Type := {
  mesh : Mesh;
  dofmap : DofMap;
  element : FiniteElement
}.

(** ** [create_block_to_facet_map] *)

Module BlockToFacet.

Record pass1 : Type := {
  num_facets_per_dof : list Z;
  local_indices : list Z;
  cells : list Z
}.

(** The inner loop of the first pass: [num_facets_per_dof[dof]++] for the
    closure blocks of one entity. *)
Definition count_closure (cell_blocks closure_blocks : list Z)
    (counts : list Z) : result (list Z) :=
  for_loop (λ j counts,
      cb ← vget closure_blocks (Z.of_nat j);
      dof ← vget cell_blocks cb;
      c ← vget counts dof;
      vset counts dof (wrap32 (c + 1)))
    0 (length closure_blocks) counts.

(** One iteration of the first pass. *)
Definition first_pass_body (V : FunctionSpace) (dim : Z) (entities : list Z)
    (i : nat) (st : pass1) : result pass1 :=
  let tdim := topology_dim (topology (mesh V)) in
  let e_to_c := connectivity (topology (mesh V)) dim tdim in
  let c_to_e := connectivity (topology (mesh V)) tdim dim in
  e ← vget entities (Z.of_nat i);
  cell ← links e_to_c e;
  _ ← assert "cell.size() == 1" (bool_decide (length cell = 1%nat));
  c ← vget cell 0;
  cells' ← vset (cells st) (Z.of_nat i) c;
  cell_entities ← links c_to_e c;
  let it := std_find e cell_entities in
  _ ← assert "it != (cell_entities.data() + cell_entities.size())"
        (bool_decide (it ≠ length cell_entities));
  let local_entity := Z.of_nat it in
  local_indices' ← vset (local_indices st) (Z.of_nat i) local_entity;
  let cell_blocks := cell_dofs (dofmap V) c in
  let closure_blocks := entity_closure_dofs (dofmap V) dim local_entity in
  counts' ← count_closure cell_blocks closure_blocks (num_facets_per_dof st);
  Ok {| num_facets_per_dof := counts';
        local_indices := local_indices';
        cells := cells' |}.

Definition first_pass (V : FunctionSpace) (dim : Z) (entities : list Z)
    (num_dofs : Z) : result pass1 :=
  counts0 ← vector_new num_dofs;
  for_loop (first_pass_body V dim entities) 0 (length entities)
    {| num_facets_per_dof := counts0;
       local_indices := replicate (length entities) 0;
       cells := replicate (length entities) 0 |}.

(** The inner loop of the second pass:
    [data[offsets[dof] + num_facets_per_dof[dof]++] = entity]. *)
Definition fill_closure (cell_blocks closure_blocks offs : list Z)
    (entity : Z) (st : list Z * list Z) : result (list Z * list Z) :=
  for_loop (λ j '(data, cursor),
      cb ← vget closure_blocks (Z.of_nat j);
      dof ← vget cell_blocks cb;
      o ← vget offs dof;
      k ← vget cursor dof;
      cursor' ← vset cursor dof (wrap32 (k + 1));
      data' ← vset data (wrap32 (o + k)) entity;
      Ok (data', cursor'))
    0 (length closure_blocks) st.

Definition second_pass (V : FunctionSpace) (dim : Z) (entities : list Z)
    (p : pass1) (offs : list Z) (data cursor : list Z)
    : result (list Z * list Z) :=
  for_loop (λ i st,
      c ← vget (cells p) (Z.of_nat i);
      li ← vget (local_indices p) (Z.of_nat i);
      e ← vget entities (Z.of_nat i);
      let cell_blocks := cell_dofs (dofmap V) c in
      let closure_blocks := entity_closure_dofs (dofmap V) dim li in
      fill_closure cell_blocks closure_blocks offs e st)
    0 (length entities) (data, cursor).

Definition create_block_to_facet_map (V : FunctionSpace) (dim : Z)
    (entities : list Z) : result AdjacencyList :=
  let imap := index_map (dofmap V) in
  let num_dofs := wrap32 (size_local imap + num_ghosts imap) in
  p ← first_pass V dim entities num_dofs;
  offs0 ← vector_new (wrap32 (num_dofs + 1));
  offs1 ← vset offs0 0 0;
  let offs := take 1 offs1 ++ partial_sum (num_facets_per_dof p) in
  let cursor := replicate (length (num_facets_per_dof p)) 0 in
  back ← vget offs (Z.of_nat (length offs) - 1);
  data0 ← vector_new back;
  '(data, _) ← second_pass V dim entities p offs data0 cursor;
  Ok {| array := data; offsets := offs |}.

(** *** Vocabulary of the statements *)

Definition dof_count (V : FunctionSpace) : Z :=
  size_local (index_map (dofmap V)) + num_ghosts (index_map (dofmap V)).

Definition incident_cells (V : FunctionSpace) (dim e : Z) : list Z :=
  row (connectivity (topology (mesh V)) dim (topology_dim (topology (mesh V)))) e.

Definition the_cell (V : FunctionSpace) (dim e : Z) : Z :=
  hd 0 (incident_cells V dim e).

Definition cell_entities (V : FunctionSpace) (dim e : Z) : list Z :=
  row (connectivity (topology (mesh V)) (topology_dim (topology (mesh V))) dim)
      (the_cell V dim e).

Definition local_entity (V : FunctionSpace) (dim e : Z) : Z :=
  Z.of_nat (std_find e (cell_entities V dim e)).

Definition closure_blocks (V : FunctionSpace) (dim e : Z) : list Z :=
  entity_closure_dofs (dofmap V) dim (local_entity V dim e).

(** The blocks that closure indices select among the blocks of a cell, and
    the condition that the selection stays inside the vectors. *)
Definition selected (cell_blocks closure : list Z) : list Z :=
  (λ cb, default 0 (cell_blocks !! Z.to_nat cb)) <$> closure.

Definition closure_ok (num_dofs : Z) (cell_blocks closure : list Z) : Prop :=
  Forall (λ cb, 0 ≤ cb ∧ ∃ d, cell_blocks !! Z.to_nat cb = Some d
                              ∧ 0 ≤ d < num_dofs) closure.

(** The dof blocks in the closure of an entity, enumerated directly. *)
Definition entity_blocks (V : FunctionSpace) (dim e : Z) : list Z :=
  selected (cell_dofs (dofmap V) (the_cell V dim e)) (closure_blocks V dim e).

(** Every (block, entity) incidence, in the order of enumeration. *)
Definition incidences (V : FunctionSpace) (dim : Z) (entities : list Z)
    : list (Z * Z) :=
  entities ≫= λ e, (λ b, (b, e)) <$> entity_blocks V dim e.

(** The precondition: one incident cell, which lists the entity, and
    closure indices that select dof blocks of the index map. *)
Definition entity_ok (V : FunctionSpace) (dim e : Z) : Prop :=
  length (incident_cells V dim e) = 1%nat
  ∧ e ∈ cell_entities V dim e
  ∧ closure_ok (dof_count V) (cell_dofs (dofmap V) (the_cell V dim e))
      (closure_blocks V dim e).

(** Counting vocabulary of the CSR argument: the occurrences of a block,
    the incidences on smaller blocks, the counter vector, a row. *)
Definition occ (b : Z) (ds : list Z) : nat :=
  length (filter (λ d, d = b) ds).

Definition below (b : Z) (ds : list Z) : nat :=
  length (filter (λ d, d < b) ds).

Definition tally (n : nat) (ds : list Z) : list Z :=
  (λ b : nat, Z.of_nat (occ (Z.of_nat b) ds)) <$> seq 0 n.

Definition row_of (b : Z) (ps : list (Z * Z)) : list Z :=
  (filter (λ p : Z * Z, p.1 = b) ps).*2.

(** The rows of [data] hold the incidences [ps] written so far, each row
    starting at the offset that the full list of blocks [DS] assigns. *)
Definition filled (DS data : list Z) (ps : list (Z * Z)) : Prop :=
  ∀ (b : Z) (k : nat) (x : Z),
    row_of b ps !! k = Some x → data !! (below b DS + k)%nat = Some x.

(** The state between iterations [i] and [i + 1] of the first pass. *)
Definition first_pass_inv (V : FunctionSpace) (dim : Z) (entities : list Z)
    (i : nat) (st : pass1) : Prop :=
  num_facets_per_dof st
    = tally (Z.to_nat (dof_count V)) (incidences V dim (take i entities)).*1
  ∧ local_indices st = (local_entity V dim <$> take i entities)
                         ++ replicate (length entities - i) 0
  ∧ cells st = (the_cell V dim <$> take i entities)
                 ++ replicate (length entities - i) 0.

(** Two triangles, cells 0 and 1, with the vertices as dof blocks 0..3 and
    the facets 0..4; facet 2 is shared.  The closure of local facet [i] of a
    cell is the pair of local vertices other than [i]. *)
Definition example_space : FunctionSpace :=
  {| mesh := {| topology :=
                  {| topology_dim := 2;
                     connectivity := λ d0 _,
                       if bool_decide (d0 = 1)
                       then {| array := [0; 0; 0; 1; 1; 1];
                               offsets := [0; 1; 2; 4; 5; 6] |}
                       else {| array := [0; 1; 2; 2; 3; 4];
                               offsets := [0; 3; 6] |} |};
                geometry_dim := 2 |};
     dofmap := {| cell_dofs := λ c, if bool_decide (c = 0) then [0; 1; 2]
                                    else [1; 2; 3];
                  entity_closure_dofs := λ _ i,
                    if bool_decide (i = 0) then [1; 2]
                    else if bool_decide (i = 1) then [0; 2] else [0; 1];
                  index_map := {| size_local := 4; num_ghosts := 0; owners := [];
                                  index_to_dest_ranks :=
                                    {| array := []; offsets := [0] |} |};
                  index_map_bs := 1 |};
     element := {| block_size := 1; tabulate_shape := λ _ _, (1, 1, 3, 1) |} |}.

(** The assertion on the number of incident cells. *)
Definition one_cell_assertion : failure :=
  assertion_failed "cell.size() == 1".

(** The failures the construction can raise besides [one_cell_assertion]. *)
Definition other_failure (e : failure) : Prop :=
  e = out_of_range ∨ e = length_error
  ∨ e = assertion_failed "it != (cell_entities.data() + cell_entities.size())".

End BlockToFacet.

(** ** [create_neighborhood_comms]

    Every rank runs the function on its own arguments; the two
    [MPI_Alltoall] calls are the only exchange.  The model takes the
    arguments of all ranks ([world], indexed by rank) and returns what rank
    [rank] hands to the two [MPI_Dist_graph_create_adjacent] calls.  MPI
    ranks are the naturals below [mpi_size]. *)

Record dist_graph (R : Type) : Type := {
  sources : list R;
  destinations : list R
}.
Arguments sources {R} _.
Arguments destinations {R} _.

Module Neighborhood.

Record rank_input : Type := {
  meshtag_values : list Z;
  has_slave : bool;
  master_marker : Z
}.

Definition has_slaves (mpi_size : nat) (inp : rank_input) : list Z :=
  let slave_val := if has_slave inp then 1 else 0 in
  replicate mpi_size slave_val.

Definition has_masters (mpi_size : nat) (inp : rank_input) : list Z :=
  let has_masters := replicate mpi_size 0 in
  if bool_decide (std_find (master_marker inp) (meshtag_values inp)
                  ≠ length (meshtag_values inp))
  then replicate (length has_masters) 1
  else has_masters.

(** [MPI_Alltoall] with one [uint8] per peer: entry [i] of the receive
    buffer of [rank] is entry [rank] of the send buffer of rank [i]. *)
Definition MPI_Alltoall (sendbufs : list (list Z)) (rank : nat)
    (recvbuf : list Z) : list Z :=
  zip_with (λ old sendbuf, default old (sendbuf !! rank)) recvbuf sendbufs.

Definition create_neighborhood_comms (world : list rank_input) (rank : nat)
    : dist_graph nat * dist_graph nat :=
  let mpi_size := length world in
  let procs_with_masters :=
    MPI_Alltoall (has_masters mpi_size <$> world) rank (replicate mpi_size 255) in
  let procs_with_slaves :=
    MPI_Alltoall (has_slaves mpi_size <$> world) rank (replicate mpi_size 255) in
  let source_edges :=
    if bool_decide (procs_with_masters !! rank = Some 1)
    then filter (λ i, i ≠ rank ∧ procs_with_slaves !! i = Some 1) (seq 0 mpi_size)
    else [] in
  let dest_edges :=
    if bool_decide (procs_with_slaves !! rank = Some 1)
    then filter (λ i, i ≠ rank ∧ procs_with_masters !! i = Some 1) (seq 0 mpi_size)
    else [] in
  ({| sources := source_edges; destinations := dest_edges |},
   {| sources := dest_edges; destinations := source_edges |}).

(** The two topologies: the graph arguments of every rank. *)
Definition forward (world : list rank_input) : list (dist_graph nat) :=
  imap (λ rank _, (create_neighborhood_comms world rank).1) world.

Definition reverse (world : list rank_input) : list (dist_graph nat) :=
  imap (λ rank _, (create_neighborhood_comms world rank).2) world.

(** Edges as the ranks declare them: rank [i] lists its destinations, rank
    [j] lists its sources. *)
Definition out_edges (topo : list (dist_graph nat)) : list (nat * nat) :=
  mjoin (imap (λ i g, (λ j, (i, j)) <$> destinations g) topo).

Definition in_edges (topo : list (dist_graph nat)) : list (nat * nat) :=
  mjoin (imap (λ j g, (λ i, (i, j)) <$> sources g) topo).

(** The topology contains [i → j] when either endpoint declares it. *)
Definition has_edge (topo : list (dist_graph nat)) (i j : nat) : Prop :=
  (i, j) ∈ out_edges topo ∨ (i, j) ∈ in_edges topo.

(** The ownership booleans: the rank has a slave; the rank finds its
    marker among its mesh tags. *)
Definition owns_slave (world : list rank_input) (r : nat) : Prop :=
  ∃ inp, world !! r = Some inp ∧ has_slave inp = true.

Definition owns_master (world : list rank_input) (r : nat) : Prop :=
  ∃ inp, world !! r = Some inp ∧ master_marker inp ∈ meshtag_values inp.

(** The scenario of the specification: four ranks, marker [7]; ranks 0 and 1
    own slaves, ranks 2 and 3 own a master with the marker; rank 0 also
    owns a master, tagged [marker0]. *)
Definition scenario (marker0 : Z) : list rank_input :=
  [ {| meshtag_values := [marker0]; has_slave := true; master_marker := 7 |};
    {| meshtag_values := []; has_slave := true; master_marker := 7 |};
    {| meshtag_values := [7]; has_slave := false; master_marker := 7 |};
    {| meshtag_values := [7]; has_slave := false; master_marker := 7 |} ].

End Neighborhood.

(** ** [create_owner_to_ghost_comm] *)

Module OwnerToGhost.

(** [std::set<std::int32_t>]: a strictly increasing list;
    [insert] keeps one copy of each key. *)
Fixpoint set_insert (x : Z) (s : list Z) : list Z :=
  match s with
  | [] => [x]
  | y :: s' =>
      if bool_decide (x < y) then x :: s
      else if bool_decide (x = y) then s
      else y :: set_insert x s'
  end.

Definition create_owner_to_ghost_comm (local_blocks ghost_blocks : list Z)
    (index_map : IndexMap) : result (dist_graph Z) :=
  let ghost_owners := owners index_map in
  let size_local := size_local index_map in
  let shared_indices := index_to_dest_ranks index_map in
  dst_edges ← for_each (λ block dst_edges,
      procs ← links shared_indices block;
      Ok (foldl (λ s proc, set_insert proc s) dst_edges procs))
    local_blocks [];
  src_edges ← for_each (λ block src_edges,
      owner ← vget ghost_owners (wrap32 (block - size_local));
      Ok (set_insert owner src_edges))
    ghost_blocks [];
  let source_edges := src_edges in
  let dest_edges := dst_edges in
  Ok {| sources := source_edges; destinations := dest_edges |}.

(** The IndexMap adapter of the specification. *)
Definition owner_of (index_map : IndexMap) (ghost_block : Z) : result Z :=
  vget (owners index_map) (ghost_block - size_local index_map).

Definition dest_ranks (index_map : IndexMap) (local_block : Z)
    : result (list Z) :=
  links (index_to_dest_ranks index_map) local_block.

(** The inputs the source indexes without a check: a local block is a row
    of [index_to_dest_ranks], a ghost block has an entry in [owners]. *)
Definition valid_local (imap : IndexMap) (block : Z) : Prop :=
  0 ≤ block < num_nodes (index_to_dest_ranks imap).

Definition valid_ghost (imap : IndexMap) (block : Z) : Prop :=
  0 ≤ size_local imap ≤ block ∧ block ≤ int32_max
  ∧ block - size_local imap < Z.of_nat (length (owners imap)).

Definition example_index_map : IndexMap :=
  {| size_local := 4; num_ghosts := 3; owners := [3; 1; 3];
     index_to_dest_ranks :=
       {| array := [2; 1; 2]; offsets := [0; 2; 3; 3; 3] |} |}.

End OwnerToGhost.

(** ** [create_sparsity_pattern] *)

Module Sparsity.

(** The pattern container is a collaborator: [insert(rows, cols)] records
    every pair of a row block and a column block.  The pattern is the list
    of recorded entries, in insertion order; the argument checks of the
    container itself are outside the model. *)
Definition SparsityPattern : Type := list (Z * Z).

Definition insert (rows cols : list Z) (pattern : SparsityPattern)
    : SparsityPattern :=
  pattern ++ list_prod rows cols.

Record MultiPointConstraint : Type := {
  function_space : FunctionSpace;
  cell_to_slaves : AdjacencyList;
  masters : AdjacencyList
}.

Record Form : Type := {
  form_rank : Z
}.

(** [std::div(master, bs).quot]: truncated division; a zero divisor and
    [INT_MIN / -1] are undefined in the source. *)
Definition div_quot (a b : Z) : result Z :=
  if bool_decide (b = 0 ∨ (a = - 2 ^ 31 ∧ b = -1)) then Err division_error
  else Ok (a ÷ b).

Definition inserter : Type :=
  SparsityPattern → list Z → list Z → SparsityPattern.

Definition square_inserter : inserter :=
  λ pattern dofs_m dofs_s,
    insert dofs_s dofs_m (insert dofs_m dofs_s pattern).

Definition row_inserter : inserter :=
  λ pattern dofs_m dofs_s, insert dofs_m dofs_s pattern.

Definition column_inserter : inserter :=
  λ pattern dofs_m dofs_s, insert dofs_s dofs_m pattern.

Definition do_nothing_inserter : inserter :=
  λ pattern _ _, pattern.

(** The flattening loop of one cell: the master blocks of all its slaves. *)
Definition flatten_masters (mpc : MultiPointConstraint) (slaves : list Z)
    : result (list Z) :=
  let bs := index_map_bs (dofmap (function_space mpc)) in
  for_each (λ slave flattened_masters,
      ms ← links (masters mpc) slave;
      for_each (λ master flattened_masters,
          quot ← div_quot master bs;
          Ok (flattened_masters ++ [quot]))
        ms flattened_masters)
    slaves [].

(** The loops over [j] and [k > j]: [flattened_masters[j]] is the head of
    the remaining list and [k] runs over its tail. *)
Fixpoint insert_masters (pattern_inserter master_inserter : inserter)
    (cell_dofs : list Z) (flattened_masters : list Z)
    (pattern : SparsityPattern) : SparsityPattern :=
  match flattened_masters with
  | [] => pattern
  | master :: others =>
      let master_block := [master] in
      let pattern := pattern_inserter pattern master_block cell_dofs in
      let pattern :=
        foldl (λ pattern other,
                 let other_master_block := [other] in
                 master_inserter pattern other_master_block master_block)
              pattern others in
      insert_masters pattern_inserter master_inserter cell_dofs others pattern
  end.

Definition pattern_populator (pattern : SparsityPattern)
    (mpc mpc_off_axis : MultiPointConstraint)
    (pattern_inserter master_inserter : inserter) : result SparsityPattern :=
  let V_off_axis := function_space mpc_off_axis in
  for_loop (λ i pattern,
      slaves ← links (cell_to_slaves mpc) (Z.of_nat i);
      if bool_decide (slaves = []) then Ok pattern
      else
        let cell_dofs := cell_dofs (dofmap V_off_axis) (Z.of_nat i) in
        flattened_masters ← flatten_masters mpc slaves;
        Ok (insert_masters pattern_inserter master_inserter cell_dofs
              flattened_masters pattern))
    0 (Z.to_nat (num_nodes (cell_to_slaves mpc))) pattern.

Definition square_path (pattern : SparsityPattern)
    (mpc0 mpc1 : MultiPointConstraint) : result SparsityPattern :=
  pattern_populator pattern mpc0 mpc1 square_inserter square_inserter.

Definition rectangular_path (pattern : SparsityPattern)
    (mpc0 mpc1 : MultiPointConstraint) : result SparsityPattern :=
  pattern ← pattern_populator pattern mpc0 mpc1 row_inserter do_nothing_inserter;
  pattern_populator pattern mpc1 mpc0 column_inserter do_nothing_inserter.

Definition not_bilinear : string :=
  "Cannot create sparsity pattern. Form is not a bilinear form".

Section create.

(** [build_standard_pattern] (declared in [utils.h]) fills the pattern of
    the unconstrained form; the constraints are shared pointers, compared
    by address and read through [store]. *)
Variable build_standard_pattern : SparsityPattern → Form → SparsityPattern.
Variable store : nat → MultiPointConstraint.

Definition create_sparsity_pattern (a : Form) (mpc0 mpc1 : nat)
    : result SparsityPattern :=
  if bool_decide (form_rank a ≠ 2) then Err (runtime_error not_bilinear)
  else
    let pattern : SparsityPattern := [] in
    let pattern := build_standard_pattern pattern a in
    if bool_decide (mpc0 = mpc1)
    then square_path pattern (store mpc0) (store mpc1)
    else rectangular_path pattern (store mpc0) (store mpc1).

End create.

(** *** Vocabulary of the statements *)

(** The master blocks of the slaves of one cell, in flattening order: every
    master dof of every slave, divided by the block size. *)
Definition flattened (mpc : MultiPointConstraint) (slaves : list Z) : list Z :=
  let bs := index_map_bs (dofmap (function_space mpc)) in
  slaves ≫= λ slave, (λ master, master ÷ bs) <$> row (masters mpc) slave.

(** A constraint the populator can traverse: a positive block size, and
    every slave recorded for a cell is a row of [masters]. *)
Definition wf_mpc (mpc : MultiPointConstraint) : Prop :=
  0 < index_map_bs (dofmap (function_space mpc))
  ∧ Forall (λ slave, 0 ≤ slave < num_nodes (masters mpc))
           (array (cell_to_slaves mpc)).

(** An inserter that only ever appends the entries [f dofs_m dofs_s]. *)
Definition appends (ins : inserter)
    (f : list Z → list Z → list (Z * Z)) : Prop :=
  ∀ pattern dofs_m dofs_s, ins pattern dofs_m dofs_s = pattern ++ f dofs_m dofs_s.

(** The entries one cell contributes: [fP] for each master against the
    cell dofs, [fM] for each later master against each earlier one. *)
Definition cell_entry (fP fM : list Z → list Z → list (Z * Z))
    (dofs fm : list Z) (e : Z * Z) : Prop :=
  (∃ m, m ∈ fm ∧ e ∈ fP [m] dofs)
  ∨ (∃ (j k : nat) (mj mk : Z), (j < k)%nat ∧ fm !! j = Some mj
       ∧ fm !! k = Some mk ∧ e ∈ fM [mk] [mj]).

(** One iteration of the populator on a traversable constraint. *)
Definition cell_step (pattern_inserter master_inserter : inserter)
    (mpc mpc_off_axis : MultiPointConstraint)
    (pattern : SparsityPattern) (i : nat) : SparsityPattern :=
  let slaves := row (cell_to_slaves mpc) (Z.of_nat i) in
  if bool_decide (slaves = []) then pattern
  else insert_masters pattern_inserter master_inserter
         (cell_dofs (dofmap (function_space mpc_off_axis)) (Z.of_nat i))
         (flattened mpc slaves) pattern.

(** A cross pair of two masters met on one cell with slaves. *)
Definition master_cross_pair (mpc : MultiPointConstraint) (e : Z * Z) : Prop :=
  ∃ (i : Z) (slaves : list Z) (j k : nat) (mj mk : Z),
    links (cell_to_slaves mpc) i = Ok slaves ∧ slaves ≠ []
    ∧ (j < k)%nat
    ∧ flattened mpc slaves !! j = Some mj
    ∧ flattened mpc slaves !! k = Some mk
    ∧ (e = (mj, mk) ∨ e = (mk, mj)).

(** One cell with dofs [0, 1, 2]; its slaves 0 and 1 have the masters 5 and
    7; block size 1. *)
Definition example_space : FunctionSpace :=
  {| mesh := {| topology := {| topology_dim := 2;
                               connectivity := λ _ _, {| array := []; offsets := [0] |} |};
                geometry_dim := 2 |};
     dofmap := {| cell_dofs := λ _, [0; 1; 2];
                  entity_closure_dofs := λ _ _, [];
                  index_map := {| size_local := 8; num_ghosts := 0; owners := [];
                                  index_to_dest_ranks :=
                                    {| array := []; offsets := [0] |} |};
                  index_map_bs := 1 |};
     element := {| block_size := 1; tabulate_shape := λ _ _, (1, 1, 3, 1) |} |}.

Definition example_mpc : MultiPointConstraint :=
  {| function_space := example_space;
     cell_to_slaves := {| array := [0; 1]; offsets := [0; 2] |};
     masters := {| array := [5; 7]; offsets := [0; 1; 2; 2] |} |}.

End Sparsity.

(** ** [get_basis_functions] *)

Module Basis.

Definition to_size_t (z : Z) : Z := z `mod` 2 ^ 64.

Record xtensor2 : Type := {
  shape : Z * Z;
  data : list double
}.

(** [xt::zeros<double>({rows, cols})] *)
Definition zeros (rows cols : Z) : xtensor2 :=
  {| shape := (rows, cols);
     data := replicate (Z.to_nat (rows * cols)) double_zero |}.

Section basis.

(** The part of the function after the early return (pull-back,
    tabulation, push-forward, expansion) is the collaborator
    [evaluate_on_cell]. *)
Variable evaluate_on_cell :
  FunctionSpace → list double → Z → xtensor2 → result xtensor2.

Definition get_basis_functions (V : FunctionSpace) (x : list double)
    (index : Z) : result xtensor2 :=
  let gdim := to_size_t (geometry_dim (mesh V)) in
  _ ← assert "x.size() == gdim" (bool_decide (Z.of_nat (length x) = gdim));
  let element_bs := to_size_t (block_size (element V)) in
  let '(_, _, basis_shape2, basis_shape3) := tabulate_shape (element V) 0 1 in
  let basis_array :=
    zeros (to_size_t (basis_shape2 * element_bs))
          (to_size_t (basis_shape3 * element_bs)) in
  if bool_decide (index < 0) then Ok basis_array
  else evaluate_on_cell V x index basis_array.

End basis.

(** The shape of the returned array. *)
Definition basis_rows (V : FunctionSpace) : Z :=
  to_size_t ((tabulate_shape (element V) 0 1).1.2
             * to_size_t (block_size (element V))).

Definition basis_cols (V : FunctionSpace) : Z :=
  to_size_t ((tabulate_shape (element V) 0 1).2
             * to_size_t (block_size (element V))).

(** A space of geometric dimension 3 with a scalar element of three basis
    functions. *)
Definition example_space : FunctionSpace :=
  {| mesh := {| topology := {| topology_dim := 3;
                               connectivity := λ _ _, {| array := []; offsets := [0] |} |};
                geometry_dim := 3 |};
     dofmap := {| cell_dofs := λ _, [];
                  entity_closure_dofs := λ _ _, [];
                  index_map := {| size_local := 0; num_ghosts := 0; owners := [];
                                  index_to_dest_ranks :=
                                    {| array := []; offsets := [0] |} |};
                  index_map_bs := 1 |};
     element := {| block_size := 1; tabulate_shape := λ _ _, (1, 1, 3, 1) |} |}.

(** The collaborator is never reached in the examples. *)
Definition no_cell_evaluation
    : FunctionSpace → list double → Z → xtensor2 → result xtensor2 :=
  λ _ _ _ basis_array, Ok basis_array.

End Basis.

(** ** [compute_colliding_cells] and [find_local_collisions] *)

Module Collision.

Section collision.

(** The distance computation and the bounding-box search are
    collaborators. *)
Definition point : Type := list double.

Variable squared_distance : Mesh → Z → list Z → list point → list double.
Variable BoundingBoxTree : Type.
Variable compute_collisions : BoundingBoxTree → list point → AdjacencyList.

(** [std::min_element]: the position of the first element that no other
    element is [<] than, scanning left to right. *)
Fixpoint min_element_from (smallest : nat) (best : double) (pos : nat)
    (l : list double) : nat :=
  match l with
  | [] => smallest
  | d :: l' =>
      if SFltb d best then min_element_from pos d (S pos) l'
      else min_element_from smallest best (S pos) l'
  end.

Definition min_element (l : list double) : nat :=
  match l with
  | [] => O
  | d :: l' => min_element_from 0 d 1 l'
  end.

Definition compute_colliding_cells (mesh : Mesh)
    (candidate_cells : AdjacencyList) (points : list point) (eps2 : double)
    : result AdjacencyList :=
  let tdim := topology_dim (topology mesh) in
  '(offsets, colliding_cells) ←
    for_loop (λ i '(offsets, colliding_cells),
        cells ← links candidate_cells (Z.of_nat i);
        if bool_decide (cells = []) then
          Ok (offsets ++ [wrap32 (Z.of_nat (length colliding_cells))],
              colliding_cells)
        else
          row ← vget points (Z.of_nat i);
          let _point := replicate (length cells) row in
          let distances_sq := squared_distance mesh tdim cells _point in
          let cell_idx := min_element distances_sq in
          d ← vget distances_sq (Z.of_nat cell_idx);
          if SFltb d eps2 then
            let pos := Z.of_nat cell_idx in
            c ← vget cells pos;
            let colliding_cells := colliding_cells ++ [c] in
            Ok (offsets ++ [wrap32 (Z.of_nat (length colliding_cells))],
                colliding_cells)
          else
            Ok (offsets ++ [wrap32 (Z.of_nat (length colliding_cells))],
                colliding_cells))
      0 (Z.to_nat (num_nodes candidate_cells)) ([0], []);
  Ok {| array := colliding_cells; offsets := offsets |}.

(** The outcome for one point with its candidate cells: the first cell at
    the least squared distance when that distance is below [eps2]. *)
Definition nearest (mesh : Mesh) (cells : list Z) (p : point)
    (eps2 : double) : list Z :=
  let distances_sq :=
    squared_distance mesh (topology_dim (topology mesh)) cells
      (replicate (length cells) p) in
  match distances_sq !! min_element distances_sq,
        cells !! min_element distances_sq with
  | Some d, Some c => if SFltb d eps2 then [c] else []
  | _, _ => []
  end.

Definition nearest_of (mesh : Mesh) (candidate_cells : AdjacencyList)
    (points : list point) (eps2 : double) (i : nat) : list Z :=
  match points !! i with
  | Some p => nearest mesh (row candidate_cells (Z.of_nat i)) p eps2
  | None => []
  end.

(** The row [rw] returned for a point [p] with the candidate cells
    [cells] is as specified: at most one cell; none when there is no
    candidate or when the least squared distance is not below [eps2];
    otherwise the candidate at the position [std::min_element] gives,
    where no candidate has a smaller squared distance. *)
Definition closest_or_none (mesh : Mesh) (cells : list Z) (p : point)
    (eps2 : double) (rw : list Z) : Prop :=
  let d := squared_distance mesh (topology_dim (topology mesh)) cells
             (replicate (length cells) p) in
  (length rw ≤ 1)%nat
  ∧ (cells = [] → rw = [])
  ∧ (cells ≠ [] →
     ∃ dm c, d !! min_element d = Some dm
       ∧ cells !! min_element d = Some c
       ∧ (∀ j dj, d !! j = Some dj → SFltb dj dm = false)
       ∧ rw = if SFltb dm eps2 then [c] else []).

Definition find_local_collisions (mesh : Mesh) (tree : BoundingBoxTree)
    (points : list point) (eps2 : double) : result (list Z) :=
  _ ← assert "points.shape(1) == 3"
        (bool_decide (Forall (λ p : point, length p = 3%nat) points));
  let bbox_collisions := compute_collisions tree points in
  cell_collisions ← compute_colliding_cells mesh bbox_collisions points eps2;
  let collisions := replicate (length points) (-1) in
  for_loop (λ i collisions,
      local_cells ← links cell_collisions (Z.of_nat i);
      if bool_decide (local_cells ≠ []) then
        c ← vget local_cells 0;
        vset collisions (Z.of_nat i) c
      else Ok collisions)
    0 (Z.to_nat (num_nodes cell_collisions)) collisions.

End collision.

(** Three points: the first has the candidate cells 4 and 9 at squared
    distances 2 and 1, the second has none, the third has the candidate
    cell 6 at squared distance 2; the threshold is 3/2.  The doubles are
    written with their 53-bit mantissa. *)
Definition one : double := S754_finite false 4503599627370496 (-52).
Definition two : double := S754_finite false 4503599627370496 (-51).
Definition three_halves : double := S754_finite false 6755399441055744 (-52).

Definition example_mesh : Mesh :=
  {| topology := {| topology_dim := 3;
                    connectivity := λ _ _, {| array := []; offsets := [0] |} |};
     geometry_dim := 3 |}.

Definition example_candidates : AdjacencyList :=
  {| array := [4; 9; 6]; offsets := [0; 2; 2; 3] |}.

Definition example_points : list (list double) :=
  [ [double_zero; double_zero; double_zero];
    [one; double_zero; double_zero];
    [two; double_zero; double_zero] ].

Definition example_distance
    : Mesh → Z → list Z → list (list double) → list double :=
  λ _ _ cells _, (λ c, if bool_decide (c = 9) then one else two) <$> cells.

Definition example_search : unit → list (list double) → AdjacencyList :=
  λ _ _, example_candidates.

End Collision.

(** ** A second example for [create_block_to_facet_map] *)

Module BlockToFacetExample.

(** The mesh of [BlockToFacet.example_space], except that every facet has
    the incident cell 1; the facets 0 and 1 are not among the facets of
    that cell. *)
Definition unlisted_space : FunctionSpace :=
  {| mesh := {| topology :=
                  {| topology_dim := 2;
                     connectivity := λ d0 _,
                       if bool_decide (d0 = 1)
                       then {| array := [1; 1; 1; 1; 1];
                               offsets := [0; 1; 2; 3; 4; 5] |}
                       else {| array := [0; 1; 2; 2; 3; 4];
                               offsets := [0; 3; 6] |} |};
                geometry_dim := 2 |};
     dofmap := dofmap BlockToFacet.example_space;
     element := element BlockToFacet.example_space |}.

End BlockToFacetExample.

(** ** [create_block_to_cell_map] *)

Module BlockToCell.

Section block_to_cell.

(** [mesh->topology().index_map(tdim)], the index map of the entities of
    one dimension, is a collaborator. *)
Variable topology_index_map : Topology → Z → IndexMap.

(** [for (auto dof : dofs) num_cells_per_dof[dof]++] *)
Definition count_cell (dofs : list Z) (num_cells_per_dof : list Z)
    : result (list Z) :=
  for_each (λ dof num_cells_per_dof,
      c ← vget num_cells_per_dof dof;
      vset num_cells_per_dof dof (wrap32 (c + 1)))
    dofs num_cells_per_dof.

(** [for (auto dof : dofs)
       cell_map[cell_dofs_disp[dof] + num_cells_per_dof[dof]++] = i] *)
Definition fill_cell (dofs cell_dofs_disp : list Z) (i : Z)
    (st : list Z * list Z) : result (list Z * list Z) :=
  for_each (λ dof '(cell_map, num_cells_per_dof),
      o ← vget cell_dofs_disp dof;
      k ← vget num_cells_per_dof dof;
      num_cells_per_dof' ← vset num_cells_per_dof dof (wrap32 (k + 1));
      cell_map' ← vset cell_map (wrap32 (o + k)) i;
      Ok (cell_map', num_cells_per_dof'))
    dofs st.

(** The sum [size_local + ghost_owners.size()] is a [std::size_t]; a
    negative sum converts to a size beyond [max_size()], for which the
    constructor throws, as [vector_new] does. *)
Definition create_block_to_cell_map (V : FunctionSpace) (blocks : list Z)
    : result (list Z) :=
  let cells : list Z := [] in
  let imap := index_map (dofmap V) in
  let size_local_ := size_local imap in
  let ghost_owners := owners imap in
  num_cells_per_dof ←
    vector_new (size_local_ + Z.of_nat (length ghost_owners));
  let tdim := topology_dim (topology (mesh V)) in
  let cell_imap := topology_index_map (topology (mesh V)) tdim in
  let num_cells_local := size_local cell_imap in
  let num_ghost_cells := num_ghosts cell_imap in
  let cell_end := Z.to_nat (wrap32 (num_cells_local + num_ghost_cells)) in
  num_cells_per_dof ←
    for_loop (λ i num_cells_per_dof,
        let dofs := cell_dofs (dofmap V) (Z.of_nat i) in
        count_cell dofs num_cells_per_dof)
      0 cell_end num_cells_per_dof;
  cell_dofs_disp0 ← vector_new (Z.of_nat (length num_cells_per_dof) + 1);
  let cell_dofs_disp :=
    take 1 cell_dofs_disp0 ++ partial_sum num_cells_per_dof in
  back ← vget cell_dofs_disp (Z.of_nat (length cell_dofs_disp) - 1);
  cell_map ← vector_new back;
  let num_cells_per_dof := replicate (length num_cells_per_dof) 0 in
  '(cell_map, _) ←
    for_loop (λ i st,
        let dofs := cell_dofs (dofmap V) (Z.of_nat i) in
        fill_cell dofs cell_dofs_disp (Z.of_nat i) st)
      0 cell_end (cell_map, num_cells_per_dof);
  cells ← for_each (λ dof cells,
      o ← vget cell_dofs_disp dof;
      c ← vget cell_map o;
      Ok (cells ++ [c]))
    blocks cells;
  _ ← assert "cells.size() == blocks.size()"
        (bool_decide (length cells = length blocks));
  Ok cells.

(** *** Vocabulary of the statements *)

Definition num_blocks (V : FunctionSpace) : Z :=
  size_local (index_map (dofmap V))
  + Z.of_nat (length (owners (index_map (dofmap V)))).

Definition num_cells (V : FunctionSpace) : Z :=
  let cell_imap :=
    topology_index_map (topology (mesh V)) (topology_dim (topology (mesh V))) in
  size_local cell_imap + num_ghosts cell_imap.

(** Every (block, cell) incidence of the first [m] cells, in the order
    the loops visit them. *)
Definition cell_incidences (V : FunctionSpace) (m : nat) : list (Z * Z) :=
  seq 0 m ≫= λ i, (λ b, (b, Z.of_nat i)) <$> cell_dofs (dofmap V) (Z.of_nat i).

Definition in_cell (V : FunctionSpace) (b c : Z) : Prop :=
  0 ≤ c < num_cells V ∧ b ∈ cell_dofs (dofmap V) c.

(** [c] is the cell with the least index among the cells that hold [b]. *)
Definition least_cell (V : FunctionSpace) (b c : Z) : Prop :=
  in_cell V b c ∧ ∀ c', 0 ≤ c' < c → b ∉ cell_dofs (dofmap V) c'.

(** [b'] is the first block from [b] on that some cell holds. *)
Definition next_block_in_a_cell (V : FunctionSpace) (b b' : Z) : Prop :=
  b ≤ b' < num_blocks V
  ∧ (∀ b'' c, b ≤ b'' < b' → ¬ in_cell V b'' c)
  ∧ ∃ c, in_cell V b' c.

(** The mesh is within the range of the counters: the cells and the
    incidences fit [int32], and every dof block of a cell is a block of
    the index map. *)
Definition dofmap_ok (V : FunctionSpace) : Prop :=
  0 ≤ num_blocks V
  ∧ 0 ≤ num_cells V ≤ int32_max
  ∧ (∀ c, 0 ≤ c < num_cells V →
       Forall (λ b, 0 ≤ b < num_blocks V) (cell_dofs (dofmap V) c))
  ∧ Z.of_nat (length (cell_incidences V (Z.to_nat (num_cells V)))) ≤ int32_max.

End block_to_cell.

(** Two triangles, cells 0 and 1, on the dof blocks 0..3; block 4 is a
    ghost block that no cell holds, block 5 a ghost block of a third
    cell. *)
Definition example_space : FunctionSpace :=
  {| mesh := {| topology := {| topology_dim := 2;
                               connectivity := λ _ _, {| array := []; offsets := [0] |} |};
                geometry_dim := 2 |};
     dofmap := {| cell_dofs := λ c, if bool_decide (c = 0) then [0; 1; 2]
                                    else if bool_decide (c = 1) then [1; 2; 3]
                                    else [2; 3; 5];
                  entity_closure_dofs := λ _ _, [];
                  index_map := {| size_local := 4; num_ghosts := 2; owners := [1; 1];
                                  index_to_dest_ranks :=
                                    {| array := []; offsets := [0] |} |};
                  index_map_bs := 1 |};
     element := {| block_size := 1; tabulate_shape := λ _ _, (1, 1, 3, 1) |} |}.

Definition example_cells : Topology → Z → IndexMap :=
  λ _ _, {| size_local := 2; num_ghosts := 1; owners := [1];
            index_to_dest_ranks := {| array := []; offsets := [0] |} |}.

End BlockToCell.

(** ** [create_matrix] *)

Module MatrixFactory.
Import Sparsity.

Section create_matrix.

(** [SparsityPattern::assemble] and the constructor of the PETSc matrix
    are collaborators; the communicator of the mesh and the timers play
    no part in the value. *)
Variable build_standard_pattern : SparsityPattern → Form → SparsityPattern.
Variable store : nat → MultiPointConstraint.
Variable Matrix : Type.
Variable assemble : SparsityPattern → SparsityPattern.
Variable petsc_matrix : SparsityPattern → string → Matrix.



End create_matrix.

(** *** Vocabulary of the statements *)

(** A master block of [mpc] met on a cell with slaves, against a dof block
    of the same cell in the space of [mpc_off_axis]. *)
Definition master_dof_pair (mpc mpc_off_axis : MultiPointConstraint)
    (m d : Z) : Prop :=
  ∃ (i : Z) (slaves : list Z),
    links (cell_to_slaves mpc) i = Ok slaves ∧ slaves ≠ []
    ∧ m ∈ flattened mpc slaves
    ∧ d ∈ cell_dofs (dofmap (function_space mpc_off_axis)) i.

Definition symmetric (pattern : SparsityPattern) : Prop :=
  ∀ r c, (r, c) ∈ pattern → (c, r) ∈ pattern.

(** No cell has a slave. *)
Definition unconstrained (mpc : MultiPointConstraint) : Prop :=
  ∀ i slaves, links (cell_to_slaves mpc) i = Ok slaves → slaves = [].

End MatrixFactory.

(** ** [get_basis_functions] on a cell: the expansion of the basis values *)

Module BasisExpansion.
Import Basis.

(** [t(r, c) = v] on an [xt::xtensor<double, 2>]: row-major and unchecked;
    the stride of a dimension of extent 1 is 0. *)
Definition strides (t : xtensor2) : Z * Z :=
  let '(rows, cols) := shape t in
  (if bool_decide (rows = 1) then 0 else cols,
   if bool_decide (cols = 1) then 0 else 1).

Definition tensor_set (t : xtensor2) (r c : Z) (v : double) : result xtensor2 :=
  let '(s0, s1) := strides t in
  data' ← vset (data t) (to_size_t (r * s0 + c * s1)) v;
  Ok {| shape := shape t; data := data' |}.

Section expansion.

(** The pull-back of the point, the tabulation on the reference element,
    the dof transformation and the push-forward are collaborators: they
    fill the buffer [basis_values_b], or fail. *)
Variable basis_values_on_cell :
  FunctionSpace → list double → Z → result (list double).

(** The loops over [block], [i] and [j]:
    [basis_array(i * element_bs + block, j * element_bs + block)
       = basis_values(i, j)]. *)
Definition expand_basis_values (element_bs basis_shape2 basis_shape3 : Z)
    (basis_values_b : list double) (basis_array : xtensor2)
    : result xtensor2 :=
  for_loop (λ block basis_array,
      for_loop (λ i basis_array,
          for_loop (λ j basis_array,
              v ← vget basis_values_b
                    (to_size_t (Z.of_nat i * basis_shape3 + Z.of_nat j));
              tensor_set basis_array
                (to_size_t (Z.of_nat i * element_bs + Z.of_nat block))
                (to_size_t (Z.of_nat j * element_bs + Z.of_nat block)) v)
            0 (Z.to_nat basis_shape3) basis_array)
        0 (Z.to_nat basis_shape2) basis_array)
    0 (Z.to_nat element_bs) basis_array.

(** The part of [get_basis_functions] after the early return. *)
Definition evaluate_on_cell (V : FunctionSpace) (x : list double)
    (index : Z) (basis_array : xtensor2) : result xtensor2 :=
  let element_bs := to_size_t (block_size (element V)) in
  let '(_, _, basis_shape2, basis_shape3) := tabulate_shape (element V) 0 1 in
  basis_values_b ← basis_values_on_cell V x index;
  expand_basis_values element_bs basis_shape2 basis_shape3
    basis_values_b basis_array.

End expansion.

(** *** Vocabulary of the statements *)

(** The entry [(r, c)] of a row-major array with [cols] columns. *)
Definition entry (t : xtensor2) (cols r c : Z) : option double :=
  data t !! Z.to_nat (r * cols + c).

(** The entry [(i, j)] of the basis values. *)
Definition basis_value (cols : Z) (basis_values_b : list double) (i j : Z)
    : double :=
  default double_zero (basis_values_b !! Z.to_nat (i * cols + j)).

(** The state of the expansion after [k] assignments, counted in the
    order of the loops: the entry [(r, c)] holds the basis value
    [(r / bs, c / bs)] when [r] and [c] lie in the same block [r mod bs]
    and the assignment of that block and that value is among the first
    [k]; every other entry is still zero. *)
Definition expanded (bs s2 s3 : Z) (basis_values_b : list double) (k : Z)
    (t : xtensor2) : Prop :=
  shape t = (s2 * bs, s3 * bs)
  ∧ length (data t) = Z.to_nat ((s2 * bs) * (s3 * bs))
  ∧ ∀ r c, 0 ≤ r < s2 * bs → 0 ≤ c < s3 * bs →
      entry t (s3 * bs) r c
      = Some (if bool_decide (r `mod` bs = c `mod` bs
                              ∧ ((r `mod` bs) * s2 + r / bs) * s3 + c / bs < k)
              then basis_value s3 basis_values_b (r / bs) (c / bs)
              else double_zero).

(** A vector element of block size 2 with three scalar basis functions
    and the basis values 1, 2, 3/2. *)
Definition vector_space : FunctionSpace :=
  {| mesh := mesh Basis.example_space;
     dofmap := dofmap Basis.example_space;
     element := {| block_size := 2; tabulate_shape := λ _ _, (1, 1, 3, 1) |} |}.

Definition example_values
    : FunctionSpace → list double → Z → result (list double) :=
  λ _ _ _, Ok [Collision.one; Collision.two; Collision.three_halves].

End BasisExpansion.

(** ** [evaluate_basis_functions] *)

(** The failures that are not a [std::runtime_error]. *)
Definition not_thrown (e : failure) : Prop :=
  ∀ what, e ≠ runtime_error what.

Module BasisAtPoints.
Import Basis.

Record xtensor3 : Type := {
  shape3 : Z * Z * Z;
  data3 : list double
}.

(** [xt::zeros<double>({n0, n1, n2})] *)
Definition zeros3 (n0 n1 n2 : Z) : xtensor3 :=
  {| shape3 := (n0, n1, n2);
     data3 := replicate (Z.to_nat (n0 * n1 * n2)) double_zero |}.

Definition points_and_cells : string :=
  "Number of points and number of cells must be equal.".

Definition mixed_element : string :=
  "Function::eval is not supported for mixed elements. Extract subspaces.".

Section evaluate.

(** The sizes of the element are [int] accessors of the collaborator
    [FiniteElement]; the geometry of the cells, the tabulation, the dof
    transformation and the push-forward, everything after the second
    check of the sub-elements, is the collaborator
    [evaluate_at_points]. *)
Variable reference_value_size : FiniteElement → Z.
Variable value_size : FiniteElement → Z.
Variable space_dimension : FiniteElement → Z.
Variable num_sub_elements : FiniteElement → Z.
Variable evaluate_at_points :
  FunctionSpace → xtensor2 → list Z → xtensor3 → result xtensor3.

Definition evaluate_basis_functions (V : FunctionSpace) (x : xtensor2)
    (cells : list Z) : result xtensor3 :=
  if bool_decide ((shape x).1 ≠ Z.of_nat (length cells))
  then Err (runtime_error points_and_cells)
  else
    let bs_element := block_size (element V) in
    q ← Sparsity.div_quot (reference_value_size (element V)) bs_element;
    let reference_value_size := to_size_t q in
    q ← Sparsity.div_quot (value_size (element V)) bs_element;
    let value_size := to_size_t q in
    q ← Sparsity.div_quot (space_dimension (element V)) bs_element;
    let space_dimension := to_size_t q in
    let num_sub_elements := num_sub_elements (element V) in
    if bool_decide (num_sub_elements > 1 ∧ num_sub_elements ≠ bs_element)
    then Err (runtime_error mixed_element)
    else
      let '(_, _, basis_shape2, basis_shape3) :=
        tabulate_shape (element V) 0 (shape x).1 in
      _ ← assert "basis_shape[2] == space_dimension"
            (bool_decide (basis_shape2 = space_dimension));
      _ ← assert "basis_shape[3] == value_size"
            (bool_decide (basis_shape3 = value_size));
      let basis_derivatives_reference_values_b :=
        zeros3 (shape x).1 space_dimension value_size in
      if bool_decide ((shape x).1 = 0)
      then Ok basis_derivatives_reference_values_b
      else if bool_decide (num_sub_elements > 1
                           ∧ num_sub_elements ≠ bs_element)
      then Err (runtime_error mixed_element)
      else evaluate_at_points V x cells
             basis_derivatives_reference_values_b.

End evaluate.

End BasisAtPoints.

(** ** [tabulate_dof_coordinates] *)

Module DofCoordinates.
Import Basis BasisExpansion.

Definition is_subspace : string :=
  "Cannot tabulate coordinates for a FunctionSpace that is a subspace.".

Definition is_mixed_space : string :=
  "Cannot tabulate coordinates for a mixed FunctionSpace.".

Definition no_pointwise_evaluation : string :=
  "Cannot evaluate dof coordinates - this element does not have pointwise evaluation.".

Section tabulate.

(** [V.component()], the predicates and sizes of the element, and the
    number of interpolation points [X_shape[0]] are accessors of the
    collaborators.  [num_coordinate_dofs] is [x_dofmap.num_links(0)],
    undefined for a geometry without cells; [tabulate_coordinate_element]
    stands for the tabulation of the coordinate element at the
    interpolation points.  [cell_dof_coordinates V cell c] is the buffer
    [xb] when the copy loop of iteration [c] starts: the geometry of the
    cell [cell = cells[c]] pushed forward from the interpolation points,
    after the dof transformation, which the source calls with the
    position [c] in [cells]. *)
Variable component : FunctionSpace → list Z.
Variable is_mixed : FiniteElement → bool.
Variable interpolation_ident : FiniteElement → bool.
Variable space_dimension : FiniteElement → Z.
Variable interpolation_points_shape0 : FiniteElement → Z.
Variable num_coordinate_dofs : FunctionSpace → result Z.
Variable tabulate_coordinate_element : FunctionSpace → result unit.
Variable cell_dof_coordinates :
  FunctionSpace → Z → Z → result (list double).

Definition tabulate_dof_coordinates (V : FunctionSpace) (dofs cells : list Z)
    : result xtensor2 :=
  if bool_decide (component V ≠ [])
  then Err (runtime_error is_subspace)
  else if is_mixed (element V)
  then Err (runtime_error is_mixed_space)
  else
    let gdim := to_size_t (geometry_dim (mesh V)) in
    let element_block_size := block_size (element V) in
    q ← Sparsity.div_quot (space_dimension (element V)) element_block_size;
    let space_dimension := to_size_t q in
    if negb (interpolation_ident (element V))
    then Err (runtime_error no_pointwise_evaluation)
    else
      let X_shape0 := interpolation_points_shape0 (element V) in
      num_dofs_g ← num_coordinate_dofs V;
      let shape_c0 := 3 in
      let shape_c1 := Z.of_nat (length dofs) in
      let coords := zeros shape_c0 shape_c1 in
      _ ← assert "space_dimension == X_shape[0]"
            (bool_decide (space_dimension = X_shape0));
      _ ← tabulate_coordinate_element V;
      for_loop (λ c coords,
          cell ← vget cells (Z.of_nat c);
          xb ← cell_dof_coordinates V cell (Z.of_nat c);
          let cell_dofs := cell_dofs (dofmap V) cell in
          dof ← vget dofs (Z.of_nat c);
          let loc := Z.of_nat (std_find dof cell_dofs) in
          for_loop (λ j coords,
              v ← vget xb (to_size_t (loc * gdim + Z.of_nat j));
              tensor_set coords (Z.of_nat j) (Z.of_nat c) v)
            0 (Z.to_nat gdim) coords)
        0 (length cells) coords.

End tabulate.

(** *** Vocabulary of the statements *)

(** The coordinate [j] of [dofs[c]] in the cell [cells[c]]: read from the
    buffer [xb c] at the position of the dof among the dofs of the cell;
    zero from the geometric dimension on, and for a dof without a cell. *)
Definition dof_coordinate (V : FunctionSpace) (dofs cells : list Z)
    (xb : nat → list double) (j : Z) (c : nat) : double :=
  let gdim := geometry_dim (mesh V) in
  match cells !! c, dofs !! c with
  | Some cell, Some dof =>
      if bool_decide (j < gdim)
      then default double_zero
             (xb c !! Z.to_nat
                (Z.of_nat (std_find dof (cell_dofs (dofmap V) cell)) * gdim + j))
      else double_zero
  | _, _ => double_zero
  end.

(** The state of the copy loops: the columns before [done], and the rows
    before [rows] of the column [done], hold the dof coordinates; every
    other entry is still zero. *)
Definition tabulated (V : FunctionSpace) (dofs cells : list Z)
    (xb : nat → list double) (done : nat) (rows : Z) (t : xtensor2) : Prop :=
  let n := Z.of_nat (length dofs) in
  shape t = (3, n)
  ∧ length (data t) = Z.to_nat (3 * n)
  ∧ ∀ (j : Z) (c : nat), 0 ≤ j < 3 → (c < length dofs)%nat →
      entry t n j (Z.of_nat c)
      = Some (if bool_decide ((c < done)%nat ∨ (c = done ∧ j < rows))
              then dof_coordinate V dofs cells xb j c
              else double_zero).

(** A space of geometric dimension 2 with one cell on the dofs 4, 7, 9,
    whose buffer holds their coordinates [(0, 0)], [(1, 0)] and
    [(1, 3/2)]. *)
Definition example_space : FunctionSpace :=
  {| mesh := {| topology := {| topology_dim := 2;
                               connectivity := λ _ _, {| array := []; offsets := [0] |} |};
                geometry_dim := 2 |};
     dofmap := {| cell_dofs := λ _, [4; 7; 9];
                  entity_closure_dofs := λ _ _, [];
                  index_map := {| size_local := 10; num_ghosts := 0; owners := [];
                                  index_to_dest_ranks :=
                                    {| array := []; offsets := [0] |} |};
                  index_map_bs := 1 |};
     element := {| block_size := 1; tabulate_shape := λ _ _, (1, 1, 3, 1) |} |}.

Definition example_buffer : list double :=
  [double_zero; double_zero; Collision.one; double_zero;
   Collision.one; Collision.three_halves].

End DofCoordinates.

Set Warnings "-clear-no-such-hyp".

(** * Proofs *)

(** ** The error monad, loops and vectors *)

Lemma bind_Ok {A B : Type} (m : result A) (f : A → result B) (b : B) :
  m ≫= f = Ok b ↔ ∃ a, m = Ok a ∧ f a = Ok b.
Proof.
  destruct m as [a|e]; simpl.
  - split; [eauto | by intros (? & [= ->] & ?)].
  - split; [done | by intros (? & ? & ?)].
Qed.

Lemma assert_Ok (expr : string) (b : bool) (u : unit) :
  assert expr b = Ok u ↔ b = true.
Proof. destruct b, u; simpl; split; congruence. Qed.

(** The loop rule: an invariant that every iteration re-establishes, while
    returning normally, holds when the loop is left. *)
Lemma for_loop_inv {St : Type} (Inv : nat → St → Prop)
    (body : nat → St → result St) (count start : nat) (s : St) :
  Inv start s →
  (∀ i s, (start ≤ i < start + count)%nat → Inv i s →
     ∃ s', body i s = Ok s' ∧ Inv (S i) s') →
  ∃ s', for_loop body start count s = Ok s' ∧ Inv (start + count)%nat s'.
Proof.
  revert start s. induction count as [|k IH]; intros start s H0 Hstep.
  - exists s. rewrite Nat.add_0_r. done.
  - destruct (Hstep start s) as (s1 & Hb & H1); [lia | done |].
    destruct (IH (S start) s1) as (s2 & Hl & H2); [done | |].
    + intros i s' Hi. apply Hstep. lia.
    + exists s2. simpl. rewrite Hb. simpl. split; [done|].
      by replace (start + S k)%nat with (S start + k)%nat by lia.
Qed.

(** A loop that returns ran every iteration normally. *)
Lemma for_loop_Ok_inv {St : Type} (Inv : nat → St → Prop)
    (body : nat → St → result St) (count start : nat) (s s' : St) :
  for_loop body start count s = Ok s' →
  Inv start s →
  (∀ i s s', (start ≤ i < start + count)%nat → Inv i s →
     body i s = Ok s' → Inv (S i) s') →
  Inv (start + count)%nat s'.
Proof.
  revert start s. induction count as [|k IH]; intros start s Hl H0 Hstep.
  - simpl in Hl. injection Hl as <-. by rewrite Nat.add_0_r.
  - simpl in Hl. apply bind_Ok in Hl as (s1 & Hb & Hl).
    replace (start + S k)%nat with (S start + k)%nat by lia.
    apply (IH (S start) s1); [done | |].
    + apply (Hstep start s); [lia | done | done].
    + intros i t t' Hi. apply Hstep. lia.
Qed.

Lemma for_each_inv {A St : Type} (Inv : list A → St → Prop)
    (body : A → St → result St) (xs : list A) (s : St) :
  Inv [] s →
  (∀ done x s, x ∈ xs → Inv done s →
     ∃ s', body x s = Ok s' ∧ Inv (done ++ [x]) s') →
  ∃ s', for_each body xs s = Ok s' ∧ Inv xs s'.
Proof.
  intros H0 Hstep.
  cut (∀ done rest s, (∀ x, x ∈ rest → x ∈ xs) → Inv done s →
         ∃ s', for_each body rest s = Ok s' ∧ Inv (done ++ rest) s').
  { intros H. apply (H [] xs s); done. }
  intros done rest. revert done.
  induction rest as [|x rest IH]; intros done t Hsub Ht.
  - exists t. by rewrite app_nil_r.
  - destruct (Hstep done x t) as (t1 & Hb & H1); [apply Hsub; left | done |].
    destruct (IH (done ++ [x]) t1) as (t2 & Hl & H2).
    + intros y Hy. apply Hsub. by right.
    + done.
    + exists t2. simpl. rewrite Hb. simpl. split; [done|].
      by rewrite <- app_assoc in H2.
Qed.

Lemma wrap32_small (z : Z) : - 2 ^ 31 ≤ z ≤ int32_max → wrap32 z = z.
Proof.
  unfold wrap32, int32_max. intros H.
  rewrite Z.mod_small; lia.
Qed.

Lemma vget_Ok {A : Type} (v : list A) (i : Z) (x : A) :
  vget v i = Ok x ↔ 0 ≤ i ∧ v !! Z.to_nat i = Some x.
Proof.
  unfold vget. case_bool_decide.
  - destruct (v !! Z.to_nat i) eqn:E; split.
    + by intros [= ->].
    + by intros [_ [= ->]].
    + done.
    + by intros [_ ?].
  - split; [done | lia].
Qed.

Lemma vget_nat {A : Type} (v : list A) (i : nat) (x : A) :
  v !! i = Some x → vget v (Z.of_nat i) = Ok x.
Proof. intros H. apply vget_Ok. rewrite Nat2Z.id. split; [lia | done]. Qed.

Lemma vset_Ok {A : Type} (v : list A) (i : Z) (x : A) :
  0 ≤ i < Z.of_nat (length v) → vset v i x = Ok (<[Z.to_nat i := x]> v).
Proof. intros H. unfold vset. by rewrite bool_decide_eq_true_2. Qed.

Lemma vset_Ok_inv {A : Type} (v v' : list A) (i : Z) (x : A) :
  vset v i x = Ok v' → 0 ≤ i < Z.of_nat (length v) ∧ v' = <[Z.to_nat i := x]> v.
Proof. unfold vset. case_bool_decide; [|done]. by intros [= <-]. Qed.

Lemma vector_new_Ok (n : Z) :
  0 ≤ n → vector_new n = Ok (replicate (Z.to_nat n) 0).
Proof. intros H. unfold vector_new. by rewrite bool_decide_eq_true_2. Qed.

Lemma std_find_le (x : Z) (l : list Z) : (std_find x l ≤ length l)%nat.
Proof. induction l as [|y l IH]; simpl; [lia|]. case_bool_decide; lia. Qed.

Lemma std_find_found (x : Z) (l : list Z) :
  std_find x l ≠ length l ↔ x ∈ l.
Proof.
  induction l as [|y l IH]; simpl.
  - split; [done | by intros ?%elem_of_nil].
  - case_bool_decide as E.
    + subst. split; [left | lia].
    + rewrite elem_of_cons. split.
      * intros H. right. apply IH. lia.
      * intros [->|H]; [done|]. apply IH in H. lia.
Qed.

Lemma std_find_lookup (x : Z) (l : list Z) :
  x ∈ l → l !! std_find x l = Some x.
Proof.
  induction l as [|y l IH]; simpl.
  - by intros ?%elem_of_nil.
  - case_bool_decide as E; [by subst|].
    intros [->|H]%elem_of_cons; [done|]. by apply IH.
Qed.

(** Rows of an adjacency list. *)
Lemma links_Ok (g : AdjacencyList) (node : Z) (b e : Z) :
  0 ≤ node →
  offsets g !! Z.to_nat node = Some b →
  offsets g !! S (Z.to_nat node) = Some e →
  links g node = Ok (take (Z.to_nat (e - b)) (drop (Z.to_nat b) (array g))).
Proof.
  intros Hn Hb He. unfold links.
  assert (vget (offsets g) node = Ok b) as -> by (by apply vget_Ok).
  assert (vget (offsets g) (node + 1) = Ok e) as ->.
  { apply vget_Ok. split; [lia|]. by replace (Z.to_nat (node + 1)) with (S (Z.to_nat node)) by lia. }
  done.
Qed.

Lemma links_in_range (g : AdjacencyList) (node : Z) :
  0 ≤ node < num_nodes g → ∃ row, links g node = Ok row.
Proof.
  unfold num_nodes. intros H.
  destruct (lookup_lt_is_Some_2 (offsets g) (Z.to_nat node)) as [b Hb]; [lia|].
  destruct (lookup_lt_is_Some_2 (offsets g) (S (Z.to_nat node))) as [e He]; [lia|].
  eexists. apply (links_Ok g node b e); [lia | done | done].
Qed.

(** Which failures the primitives can raise. *)
Lemma bind_Err {A B : Type} (m : result A) (f : A → result B) (e : failure) :
  m ≫= f = Err e ↔ m = Err e ∨ ∃ a, m = Ok a ∧ f a = Err e.
Proof.
  destruct m as [a|e']; simpl.
  - split; [eauto|]. intros [H | (a' & H & H')]; [discriminate|].
    injection H as <-. done.
  - split; [intros [= ->]; by left|].
    intros [[= ->] | (a' & H & H')]; [done | discriminate].
Qed.

Lemma vget_Err {A : Type} (v : list A) (i : Z) (e : failure) :
  vget v i = Err e → e = out_of_range.
Proof.
  unfold vget. case_bool_decide; [|congruence].
  destruct (v !! Z.to_nat i); congruence.
Qed.

Lemma links_Err (g : AdjacencyList) (node : Z) (e : failure) :
  links g node = Err e → e = out_of_range.
Proof.
  unfold links. intros [H | (b & _ & [H | (x & _ & H)]%bind_Err)]%bind_Err.
  - by eapply vget_Err.
  - by eapply vget_Err.
  - done.
Qed.

Lemma for_loop_Err {St : Type} (P : failure → Prop)
    (body : nat → St → result St) (count start : nat) (s : St) (e : failure) :
  (∀ i s e, (start ≤ i < start + count)%nat → body i s = Err e → P e) →
  for_loop body start count s = Err e → P e.
Proof.
  revert start s. induction count as [|k IH]; intros start s Hbody; simpl.
  - done.
  - intros [H | (s1 & _ & H)]%bind_Err.
    + apply (Hbody start s e); [lia | done].
    + apply (IH (S start) s1); [|done].
      intros i t e' Hi. apply Hbody. lia.
Qed.

(** A loop fails when an iteration fails after normal ones. *)
Lemma for_loop_fail {St : Type} (body : nat → St → result St)
    (count i start : nat) (s s1 : St) (e : failure) :
  (i < count)%nat →
  for_loop body start i s = Ok s1 →
  body (start + i)%nat s1 = Err e →
  for_loop body start count s = Err e.
Proof.
  revert count start s. induction i as [|i IH]; intros count start s Hi Hpre Hbody.
  - simpl in Hpre. injection Hpre as <-. rewrite Nat.add_0_r in Hbody.
    destruct count as [|k]; [lia|]. simpl. by rewrite Hbody.
  - simpl in Hpre. apply bind_Ok in Hpre as (s2 & Hb & Hpre).
    destruct count as [|k]; [lia|]. simpl. rewrite Hb. simpl.
    apply (IH k (S start) s2); [lia | done |].
    by replace (S start + i)%nat with (start + S i)%nat by lia.
Qed.

Lemma vset_Err {A : Type} (v : list A) (i : Z) (x : A) (e : failure) :
  vset v i x = Err e → e = out_of_range.
Proof. unfold vset. case_bool_decide; congruence. Qed.

Lemma vector_new_Err (n : Z) (e : failure) :
  vector_new n = Err e → e = length_error.
Proof. unfold vector_new. case_bool_decide; congruence. Qed.

Lemma for_each_Err {A St : Type} (P : failure → Prop)
    (body : A → St → result St) (xs : list A) (s : St) (e : failure) :
  (∀ x s e, body x s = Err e → P e) →
  for_each body xs s = Err e → P e.
Proof.
  intros Hbody. revert s. induction xs as [|x xs IH]; intros s; simpl.
  - done.
  - intros [H | (s1 & _ & H)]%bind_Err; [by eapply Hbody | by eapply IH].
Qed.

Lemma row_links (g : AdjacencyList) (node : Z) (r : list Z) :
  links g node = Ok r → row g node = r.
Proof. unfold row. by intros ->. Qed.

Lemma links_subseteq (g : AdjacencyList) (node : Z) (r : list Z) :
  links g node = Ok r → r ⊆ array g.
Proof.
  unfold links. intros (b & _ & (e & _ & [= <-])%bind_Ok)%bind_Ok.
  etrans; [apply subseteq_take | apply subseteq_drop].
Qed.

Lemma links_Ok_range (g : AdjacencyList) (node : Z) (r : list Z) :
  links g node = Ok r → 0 ≤ node < num_nodes g.
Proof.
  unfold links, num_nodes.
  intros (b & [Hn _]%vget_Ok & (e & [_ He]%vget_Ok & _)%bind_Ok)%bind_Ok.
  apply lookup_lt_Some in He. lia.
Qed.

Lemma row_nonempty (g : AdjacencyList) (node : Z) :
  row g node ≠ [] → links g node = Ok (row g node).
Proof. unfold row. by destruct (links g node). Qed.


(** ** Neighbourhood communicators *)

Section neighborhood.
Import Neighborhood.

Lemma owns_master_lt (world : list rank_input) (r : nat) :
  owns_master world r → (r < length world)%nat.
Proof. intros (inp & H & _). by eapply lookup_lt_Some. Qed.

Lemma owns_slave_lt (world : list rank_input) (r : nat) :
  owns_slave world r → (r < length world)%nat.
Proof. intros (inp & H & _). by eapply lookup_lt_Some. Qed.

(** What the exchange delivers: entry [i] of [procs_with_masters] is 1
    exactly when rank [i] found the marker among its tags. *)
Lemma procs_with_masters_spec (world : list rank_input) (rank i : nat) :
  (rank < length world)%nat →
  MPI_Alltoall (has_masters (length world) <$> world) rank
               (replicate (length world) 255) !! i = Some 1
  ↔ owns_master world i.
Proof.
  intros Hr. unfold MPI_Alltoall, owns_master.
  rewrite lookup_zip_with, list_lookup_fmap.
  destruct (world !! i) as [inp|] eqn:Hi; simpl.
  - assert (i < length world)%nat as Hlt by (by eapply lookup_lt_Some).
    rewrite lookup_replicate_2 by done. simpl.
    unfold has_masters. rewrite length_replicate.
    case_bool_decide as E; rewrite lookup_replicate_2 by done; simpl.
    + apply std_find_found in E. split; [eauto | done].
    + split; [done|]. intros (? & [= <-] & Hin).
      apply std_find_found in Hin. contradiction.
  - split; [|by intros (? & ? & ?)].
    destruct (replicate (length world) 255 !! i); done.
Qed.

Lemma procs_with_slaves_spec (world : list rank_input) (rank i : nat) :
  (rank < length world)%nat →
  MPI_Alltoall (has_slaves (length world) <$> world) rank
               (replicate (length world) 255) !! i = Some 1
  ↔ owns_slave world i.
Proof.
  intros Hr. unfold MPI_Alltoall, owns_slave.
  rewrite lookup_zip_with, list_lookup_fmap.
  destruct (world !! i) as [inp|] eqn:Hi; simpl.
  - assert (i < length world)%nat as Hlt by (by eapply lookup_lt_Some).
    rewrite lookup_replicate_2 by done. simpl.
    unfold has_slaves. rewrite lookup_replicate_2 by done. simpl.
    destruct (has_slave inp) eqn:Es; simpl.
    + split; [eauto | done].
    + split; [done|]. intros (? & [= <-] & ?). congruence.
  - split; [|by intros (? & ? & ?)].
    destruct (replicate (length world) 255 !! i); done.
Qed.

(** The edge lists of one rank. *)
Lemma source_edges_spec (world : list rank_input) (rank i : nat) :
  (rank < length world)%nat →
  i ∈ sources (create_neighborhood_comms world rank).1
  ↔ i ≠ rank ∧ owns_slave world i ∧ owns_master world rank.
Proof.
  intros Hr. simpl. case_bool_decide as E.
  - rewrite procs_with_masters_spec in E by done.
    rewrite list_elem_of_filter, elem_of_seq, procs_with_slaves_spec by done.
    split; [tauto|]. intros (? & Hs & ?).
    apply owns_slave_lt in Hs as ?. split; [done | lia].
  - rewrite procs_with_masters_spec in E by done.
    split; [by intros ?%elem_of_nil | tauto].
Qed.

Lemma dest_edges_spec (world : list rank_input) (rank j : nat) :
  (rank < length world)%nat →
  j ∈ destinations (create_neighborhood_comms world rank).1
  ↔ j ≠ rank ∧ owns_slave world rank ∧ owns_master world j.
Proof.
  intros Hr. simpl. case_bool_decide as E.
  - rewrite procs_with_slaves_spec in E by done.
    rewrite list_elem_of_filter, elem_of_seq, procs_with_masters_spec by done.
    split; [tauto|]. intros (? & ? & Hm).
    apply owns_master_lt in Hm as ?. split; [done | lia].
  - rewrite procs_with_slaves_spec in E by done.
    split; [by intros ?%elem_of_nil | tauto].
Qed.

Lemma reverse_swaps (world : list rank_input) (rank : nat) :
  sources (create_neighborhood_comms world rank).2
    = destinations (create_neighborhood_comms world rank).1
  ∧ destinations (create_neighborhood_comms world rank).2
    = sources (create_neighborhood_comms world rank).1.
Proof. done. Qed.

Lemma elem_of_out_edges (topo : list (dist_graph nat)) (i j : nat) :
  (i, j) ∈ out_edges topo ↔ ∃ g, topo !! i = Some g ∧ j ∈ destinations g.
Proof.
  unfold out_edges. rewrite list_elem_of_join. split.
  - intros (l & Hin & Hl). apply elem_of_lookup_imap_1 in Hl as (i' & g & -> & Hg).
    apply list_elem_of_fmap in Hin as (j' & [= -> ->] & Hj). eauto.
  - intros (g & Hg & Hj). eexists. split; [|by eapply elem_of_lookup_imap_2].
    simpl. apply list_elem_of_fmap. eauto.
Qed.

Lemma elem_of_in_edges (topo : list (dist_graph nat)) (i j : nat) :
  (i, j) ∈ in_edges topo ↔ ∃ g, topo !! j = Some g ∧ i ∈ sources g.
Proof.
  unfold in_edges. rewrite list_elem_of_join. split.
  - intros (l & Hin & Hl). apply elem_of_lookup_imap_1 in Hl as (j' & g & -> & Hg).
    apply list_elem_of_fmap in Hin as (i' & [= -> ->] & Hi). eauto.
  - intros (g & Hg & Hi). eexists. split; [|by eapply elem_of_lookup_imap_2].
    simpl. apply list_elem_of_fmap. eauto.
Qed.

Lemma forward_lookup (world : list rank_input) (r : nat) (g : dist_graph nat) :
  forward world !! r = Some g
  ↔ (r < length world)%nat ∧ g = (create_neighborhood_comms world r).1.
Proof.
  unfold forward. rewrite list_lookup_imap. split.
  - destruct (world !! r) eqn:E; simpl; [|done].
    intros [= <-]. split; [by eapply lookup_lt_Some | done].
  - intros [Hr ->]. destruct (lookup_lt_is_Some_2 world r Hr) as [inp ->]. done.
Qed.

Lemma reverse_lookup (world : list rank_input) (r : nat) (g : dist_graph nat) :
  reverse world !! r = Some g
  ↔ (r < length world)%nat ∧ g = (create_neighborhood_comms world r).2.
Proof.
  unfold reverse. rewrite list_lookup_imap. split.
  - destruct (world !! r) eqn:E; simpl; [|done].
    intros [= <-]. split; [by eapply lookup_lt_Some | done].
  - intros [Hr ->]. destruct (lookup_lt_is_Some_2 world r Hr) as [inp ->]. done.
Qed.

(** Both endpoints declare the same forward edges: [i → j] exists exactly
    when [i] owns a slave, [j] owns a master and they differ. *)
Lemma forward_out_edge (world : list rank_input) (i j : nat) :
  (i, j) ∈ out_edges (forward world)
  ↔ i ≠ j ∧ owns_slave world i ∧ owns_master world j.
Proof.
  rewrite elem_of_out_edges. split.
  - intros (g & (Hr & ->)%forward_lookup & Hj).
    apply dest_edges_spec in Hj; [|done]. intuition.
  - intros (Hne & Hs & Hm). eexists. split.
    + apply forward_lookup. split; [by apply owns_slave_lt | done].
    + apply dest_edges_spec; [by apply owns_slave_lt | intuition].
Qed.

Lemma forward_in_edge (world : list rank_input) (i j : nat) :
  (i, j) ∈ in_edges (forward world)
  ↔ i ≠ j ∧ owns_slave world i ∧ owns_master world j.
Proof.
  rewrite elem_of_in_edges. split.
  - intros (g & (Hr & ->)%forward_lookup & Hi).
    apply source_edges_spec in Hi; [|done]. intuition.
  - intros (Hne & Hs & Hm). eexists. split.
    + apply forward_lookup. split; [by apply owns_master_lt | done].
    + apply source_edges_spec; [by apply owns_master_lt | intuition].
Qed.

Lemma reverse_out_edge (world : list rank_input) (j i : nat) :
  (j, i) ∈ out_edges (reverse world)
  ↔ i ≠ j ∧ owns_slave world i ∧ owns_master world j.
Proof.
  rewrite elem_of_out_edges. split.
  - intros (g & (Hr & ->)%reverse_lookup & Hi).
    rewrite (proj2 (reverse_swaps world j)) in Hi.
    apply source_edges_spec in Hi; [|done]. intuition.
  - intros (Hne & Hs & Hm). eexists. split.
    + apply reverse_lookup. split; [by apply owns_master_lt | done].
    + rewrite (proj2 (reverse_swaps world j)).
      apply source_edges_spec; [by apply owns_master_lt | intuition].
Qed.

Lemma reverse_in_edge (world : list rank_input) (j i : nat) :
  (j, i) ∈ in_edges (reverse world)
  ↔ i ≠ j ∧ owns_slave world i ∧ owns_master world j.
Proof.
  rewrite elem_of_in_edges. split.
  - intros (g & (Hr & ->)%reverse_lookup & Hj).
    rewrite (proj1 (reverse_swaps world i)) in Hj.
    apply dest_edges_spec in Hj; [|done]. intuition.
  - intros (Hne & Hs & Hm). eexists. split.
    + apply reverse_lookup. split; [by apply owns_slave_lt | done].
    + rewrite (proj1 (reverse_swaps world i)).
      apply dest_edges_spec; [by apply owns_slave_lt | intuition].
Qed.

Lemma forward_edge_spec (world : list rank_input) (i j : nat) :
  has_edge (forward world) i j
  ↔ i ≠ j ∧ owns_slave world i ∧ owns_master world j.
Proof. unfold has_edge. rewrite forward_out_edge, forward_in_edge. tauto. Qed.

Lemma reverse_edge_spec (world : list rank_input) (j i : nat) :
  has_edge (reverse world) j i
  ↔ i ≠ j ∧ owns_slave world i ∧ owns_master world j.
Proof. unfold has_edge. rewrite reverse_out_edge, reverse_in_edge. tauto. Qed.

(** C3. For all arguments of all ranks and all ranks [i], [j]: the forward
    (slave to master) topology contains [i → j] exactly when the reverse
    (master to slave) topology contains [j → i]; the edge is there exactly
    when [i ≠ j], [i] owns a slave and [j] owns a master with the marker;
    and neither topology has a self-edge, whatever rank [i] owns. *)
Theorem neighborhood_topologies_mirror (world : list rank_input) (i j : nat) :
  (has_edge (forward world) i j ↔ has_edge (reverse world) j i)
  ∧ (has_edge (forward world) i j
     ↔ i ≠ j ∧ owns_slave world i ∧ owns_master world j)
  ∧ ¬ has_edge (forward world) i i
  ∧ ¬ has_edge (reverse world) i i.
Proof.
  rewrite !forward_edge_spec, !reverse_edge_spec. tauto.
Qed.

(** C4, as stated, fails: with the marker also on rank 0 the forward
    topology has the edge [1 → 0], which the claimed edge set leaves out. *)
Lemma scenario_forward_edges_not_as_claimed :
  owns_slave (scenario 7) 0 ∧ owns_master (scenario 7) 0
  ∧ ¬ (∀ i j : nat, has_edge (forward (scenario 7)) i j
                    ↔ (i, j) ∈ [(0, 2); (0, 3); (1, 2); (1, 3)]%nat).
Proof.
  split; [|split].
  - eexists. split; [reflexivity | done].
  - eexists. split; [reflexivity | left].
  - intros H. assert (has_edge (forward (scenario 7)) 1 0) as E.
    { left. vm_compute. set_solver. }
    apply H in E. set_solver.
Qed.

(** C4, amended. In the scenario with the marker also on rank 0 the
    forward edge set is exactly [0→2, 0→3, 1→0, 1→2, 1→3], every edge
    declared by both of its endpoints, and there is no edge [0 → 0].
    When the master of rank 0 carries another tag, the edge set is
    exactly [0→2, 0→3, 1→2, 1→3]. *)
Theorem scenario_forward_edges :
  (∀ i j : nat, has_edge (forward (scenario 7)) i j
                ↔ (i, j) ∈ [(0, 2); (0, 3); (1, 0); (1, 2); (1, 3)]%nat)
  ∧ out_edges (forward (scenario 7))
      = [(0, 2); (0, 3); (1, 0); (1, 2); (1, 3)]%nat
  ∧ in_edges (forward (scenario 7))
      ≡ₚ [(0, 2); (0, 3); (1, 0); (1, 2); (1, 3)]%nat
  ∧ ¬ has_edge (forward (scenario 7)) 0 0
  ∧ (∀ i j : nat, has_edge (forward (scenario 3)) i j
                  ↔ (i, j) ∈ [(0, 2); (0, 3); (1, 2); (1, 3)]%nat).
Proof.
  assert (out_edges (forward (scenario 7))
          = [(0, 2); (0, 3); (1, 0); (1, 2); (1, 3)]%nat) as Ho by reflexivity.
  assert (in_edges (forward (scenario 7))
          = [(1, 0); (0, 2); (1, 2); (0, 3); (1, 3)]%nat) as Hi by reflexivity.
  assert (out_edges (forward (scenario 3))
          = [(0, 2); (0, 3); (1, 2); (1, 3)]%nat) as Ho3 by reflexivity.
  assert (in_edges (forward (scenario 3))
          = [(0, 2); (1, 2); (0, 3); (1, 3)]%nat) as Hi3 by reflexivity.
  split; [|split; [|split; [|split]]].
  - intros i j. unfold has_edge. rewrite Ho, Hi. set_solver.
  - done.
  - rewrite Hi. by solve_Permutation.
  - unfold has_edge. rewrite Ho, Hi. set_solver.
  - intros i j. unfold has_edge. rewrite Ho3, Hi3. set_solver.
Qed.

End neighborhood.

(** ** Owner-to-ghost communicator *)

Section owner_to_ghost.
Import OwnerToGhost.

Lemma elem_of_set_insert (x y : Z) (s : list Z) :
  y ∈ set_insert x s ↔ y = x ∨ y ∈ s.
Proof.
  induction s as [|z s IH]; simpl.
  - rewrite list_elem_of_singleton, elem_of_nil. tauto.
  - repeat case_bool_decide; subst; rewrite ?elem_of_cons, ?IH; tauto.
Qed.

Lemma set_insert_sorted (x : Z) (s : list Z) :
  StronglySorted Z.lt s → StronglySorted Z.lt (set_insert x s).
Proof.
  induction 1 as [|z s Hs IH Hall]; simpl.
  - repeat constructor.
  - repeat case_bool_decide.
    + constructor; [by constructor|]. constructor; [done|].
      eapply Forall_impl; [exact Hall|]. simpl. lia.
    + by constructor.
    + constructor; [done|]. apply Forall_forall. intros y Hy.
      apply elem_of_set_insert in Hy as [->|Hy]; [lia|].
      by eapply Forall_forall in Hall.
Qed.

Lemma elem_of_foldl_set_insert (xs s : list Z) (y : Z) :
  y ∈ foldl (λ s x, set_insert x s) s xs ↔ y ∈ xs ∨ y ∈ s.
Proof.
  revert s. induction xs as [|x xs IH]; intros s; simpl.
  - rewrite elem_of_nil. tauto.
  - rewrite IH, elem_of_set_insert, elem_of_cons. tauto.
Qed.

Lemma foldl_set_insert_sorted (xs s : list Z) :
  StronglySorted Z.lt s →
  StronglySorted Z.lt (foldl (λ s x, set_insert x s) s xs).
Proof.
  revert s. induction xs as [|x xs IH]; intros s Hs; simpl; [done|].
  by apply IH, set_insert_sorted.
Qed.

(** C6. On valid blocks the call returns; its source-edge list is the
    strictly increasing (hence duplicate-free) list of exactly the owners
    of the blocks in [ghost_blocks], and its destination-edge list is the
    strictly increasing list of exactly the ranks that [dest_ranks] gives
    for some block in [local_blocks]. *)
Theorem owner_to_ghost_edges (local_blocks ghost_blocks : list Z)
    (imap : IndexMap)
    (Hlocal : Forall (valid_local imap) local_blocks)
    (Hghost : Forall (valid_ghost imap) ghost_blocks) :
  ∃ g, create_owner_to_ghost_comm local_blocks ghost_blocks imap = Ok g
    ∧ StronglySorted Z.lt (sources g)
    ∧ (∀ r, r ∈ sources g
            ↔ ∃ block, block ∈ ghost_blocks ∧ owner_of imap block = Ok r)
    ∧ StronglySorted Z.lt (destinations g)
    ∧ (∀ r, r ∈ destinations g
            ↔ ∃ block ranks, block ∈ local_blocks
                ∧ dest_ranks imap block = Ok ranks ∧ r ∈ ranks).
Proof.
  unfold create_owner_to_ghost_comm.
  match goal with |- context [for_each ?body local_blocks []] =>
    destruct (for_each_inv
      (λ done (s : list Z), StronglySorted Z.lt s
         ∧ ∀ r, r ∈ s ↔ ∃ block ranks, block ∈ done
                  ∧ dest_ranks imap block = Ok ranks ∧ r ∈ ranks)
      body local_blocks [])
      as (dst & -> & Hdst_sorted & Hdst)
  end.
  { split; [constructor|]. intros r. split; [by intros ?%elem_of_nil|].
    by intros (? & ? & ?%elem_of_nil & _). }
  { intros done block s Hin [Hs Hmem].
    eapply Forall_forall in Hlocal; [|exact Hin].
    destruct (links_in_range _ _ Hlocal) as [procs Hprocs].
    eexists. rewrite Hprocs. simpl. split; [reflexivity|]. split.
    - by apply foldl_set_insert_sorted.
    - intros r. rewrite elem_of_foldl_set_insert, Hmem. split.
      + intros [Hr | (b & ranks & Hb & Hranks & Hr)].
        * exists block, procs. rewrite elem_of_app, list_elem_of_singleton. auto.
        * exists b, ranks. rewrite elem_of_app. auto.
      + intros (b & ranks & Hb & Hranks & Hr).
        apply elem_of_app in Hb as [Hb | ->%list_elem_of_singleton].
        * right. eauto.
        * left. unfold dest_ranks in Hranks. congruence. }
  simpl.
  match goal with |- context [for_each ?body ghost_blocks []] =>
    destruct (for_each_inv
      (λ done (s : list Z), StronglySorted Z.lt s
         ∧ ∀ r, r ∈ s ↔ ∃ block, block ∈ done ∧ owner_of imap block = Ok r)
      body ghost_blocks [])
      as (src & -> & Hsrc_sorted & Hsrc)
  end.
  { split; [constructor|]. intros r. split; [by intros ?%elem_of_nil|].
    by intros (? & ?%elem_of_nil & _). }
  { intros done block s Hin [Hs Hmem].
    eapply Forall_forall in Hghost; [|exact Hin].
    destruct Hghost as (Hsl & Hmax & Hlt).
    rewrite wrap32_small by (unfold int32_max in *; lia).
    destruct (lookup_lt_is_Some_2 (owners imap)
                (Z.to_nat (block - size_local imap))) as [o Ho]; [lia|].
    assert (vget (owners imap) (block - size_local imap) = Ok o) as Hget.
    { apply vget_Ok. split; [lia | done]. }
    eexists. rewrite Hget. simpl. split; [reflexivity|]. split.
    - by apply set_insert_sorted.
    - intros r. rewrite elem_of_set_insert, Hmem. split.
      + intros [-> | (b & Hb & Hr)].
        * exists block. rewrite elem_of_app, list_elem_of_singleton. auto.
        * exists b. rewrite elem_of_app. auto.
      + intros (b & Hb & Hr).
        apply elem_of_app in Hb as [Hb | ->%list_elem_of_singleton].
        * right. eauto.
        * left. unfold owner_of in Hr. congruence. }
  simpl. eexists. split; [reflexivity|]. simpl. done.
Qed.

Lemma owner_to_ghost_edges_witness :
  ∃ g, create_owner_to_ghost_comm [0; 1] [4; 5; 6] example_index_map = Ok g
    ∧ StronglySorted Z.lt (sources g)
    ∧ (∀ r, r ∈ sources g
            ↔ ∃ block, block ∈ [4; 5; 6]
                ∧ owner_of example_index_map block = Ok r)
    ∧ StronglySorted Z.lt (destinations g)
    ∧ (∀ r, r ∈ destinations g
            ↔ ∃ block ranks, block ∈ [0; 1]
                ∧ dest_ranks example_index_map block = Ok ranks ∧ r ∈ ranks).
Proof.
  apply (owner_to_ghost_edges [0; 1] [4; 5; 6] example_index_map).
  - repeat constructor; vm_compute; congruence.
  - repeat constructor; vm_compute; congruence.
Defined.

End owner_to_ghost.

(** ** Sparsity pattern *)

Section sparsity.
Import Sparsity.

Lemma elem_of_list_prod_pair (rows cols : list Z) (r c : Z) :
  (r, c) ∈ list_prod rows cols ↔ r ∈ rows ∧ c ∈ cols.
Proof. by rewrite !list_elem_of_In, in_prod_iff. Qed.

Lemma square_appends :
  appends square_inserter (λ m s, list_prod m s ++ list_prod s m).
Proof. intros p m s. unfold square_inserter, insert. by rewrite app_assoc. Qed.

Lemma row_appends : appends row_inserter (λ m s, list_prod m s).
Proof. done. Qed.

Lemma column_appends : appends column_inserter (λ m s, list_prod s m).
Proof. done. Qed.

Lemma nothing_appends : appends do_nothing_inserter (λ _ _, []).
Proof. intros p m s. by rewrite app_nil_r. Qed.

(** *** The flattening loop *)

Lemma div_quot_Ok (a b : Z) : 0 < b → div_quot a b = Ok (a ÷ b).
Proof. intros H. unfold div_quot. rewrite bool_decide_eq_false_2; [done | lia]. Qed.

Lemma flatten_row_Ok (bs : Z) (ms fm : list Z) :
  0 < bs →
  for_each (λ master flattened_masters,
      quot ← div_quot master bs; Ok (flattened_masters ++ [quot])) ms fm
  = Ok (fm ++ ((λ master, master ÷ bs) <$> ms)).
Proof.
  intros Hbs. revert fm. induction ms as [|m ms IH]; intros fm.
  - simpl. by rewrite app_nil_r.
  - cbn [for_each]. rewrite div_quot_Ok by done. cbn [mbind result_bind].
    rewrite IH, <- app_assoc. done.
Qed.

Lemma flatten_masters_Ok (mpc : MultiPointConstraint) (slaves : list Z) :
  0 < index_map_bs (dofmap (function_space mpc)) →
  Forall (λ slave, 0 ≤ slave < num_nodes (masters mpc)) slaves →
  flatten_masters mpc slaves = Ok (flattened mpc slaves).
Proof.
  intros Hbs Hall. unfold flatten_masters.
  match goal with |- for_each ?body slaves [] = _ =>
    destruct (for_each_inv (λ done fm, fm = flattened mpc done)
                body slaves []) as (fm & -> & ->)
  end; [done | | done].
  intros done slave fm Hin ->.
  eapply Forall_forall in Hall; [|exact Hin].
  destruct (links_in_range _ _ Hall) as [ms Hms].
  eexists. rewrite Hms. simpl. split; [by apply flatten_row_Ok|].
  unfold flattened. rewrite bind_app, bind_singleton.
  by rewrite (row_links _ _ _ Hms).
Qed.

(** *** The populator on a traversable constraint *)

Lemma pattern_populator_Ok (pattern : SparsityPattern)
    (mpc mpc_off_axis : MultiPointConstraint) (PI MI : inserter) :
  wf_mpc mpc →
  pattern_populator pattern mpc mpc_off_axis PI MI
  = Ok (foldl (cell_step PI MI mpc mpc_off_axis) pattern
          (seq 0 (Z.to_nat (num_nodes (cell_to_slaves mpc))))).
Proof.
  intros [Hbs Hall]. unfold pattern_populator.
  match goal with |- for_loop ?body 0 ?n pattern = _ =>
    destruct (for_loop_inv
      (λ k p, p = foldl (cell_step PI MI mpc mpc_off_axis) pattern (seq 0 k))
      body n 0%nat pattern) as (p & -> & ->)
  end; [done | | done].
  intros i p Hi ->.
  destruct (links_in_range (cell_to_slaves mpc) (Z.of_nat i)) as [slaves Hs];
    [lia|].
  rewrite seq_S, foldl_app. cbn [foldl Nat.add].
  set (q := foldl _ pattern (seq 0 i)).
  unfold cell_step. rewrite (row_links _ _ _ Hs), Hs. cbn [mbind result_bind].
  case_bool_decide; [eauto|].
  rewrite flatten_masters_Ok; [cbn [mbind result_bind]; eauto | done |].
  apply Forall_forall. intros slave Hin.
  eapply Forall_forall in Hall; [exact Hall|].
  by eapply links_subseteq.
Qed.

(** *** Membership in the populated pattern *)

Lemma elem_of_master_loop (MI : inserter) (fM : list Z → list Z → list (Z * Z))
    (m : Z) (others : list Z) (p : SparsityPattern) (e : Z * Z) :
  appends MI fM →
  e ∈ foldl (λ p other, MI p [other] [m]) p others
  ↔ e ∈ p ∨ ∃ o, o ∈ others ∧ e ∈ fM [o] [m].
Proof.
  intros HM. revert p. induction others as [|o others IH]; intros p; simpl.
  - split; [auto|]. intros [?|(? & ?%elem_of_nil & _)]; done.
  - rewrite IH, HM, elem_of_app. split.
    + intros [[?|?]|(o' & ? & ?)]; [auto | right; exists o | right; exists o'];
        rewrite elem_of_cons; auto.
    + intros [?|(o' & [->|?]%elem_of_cons & ?)]; eauto.
Qed.

Lemma elem_of_insert_masters (PI MI : inserter)
    (fP fM : list Z → list Z → list (Z * Z))
    (dofs fm : list Z) (p : SparsityPattern) (e : Z * Z) :
  appends PI fP → appends MI fM →
  e ∈ insert_masters PI MI dofs fm p ↔ e ∈ p ∨ cell_entry fP fM dofs fm e.
Proof.
  intros HP HM. revert p. induction fm as [|m others IH]; intros p; simpl.
  - split; [auto|]. intros [?|[(? & ?%elem_of_nil & _)|(j & k & ? & ? & _ & H & _)]];
      done.
  - rewrite IH, elem_of_master_loop by done. rewrite HP, elem_of_app.
    unfold cell_entry. split.
    + intros [[[?|?]|(o & Ho & ?)]|[(m' & ? & ?)|(j & k & mj & mk & ? & ? & ? & ?)]].
      * auto.
      * right; left. exists m. split; [left | done].
      * apply list_elem_of_lookup in Ho as [k Hk].
        right; right. exists 0%nat, (S k), m, o. repeat split; [lia | done..].
      * right; left. exists m'. split; [by right | done].
      * right; right. exists (S j), (S k), mj, mk. repeat split; [lia | done..].
    + intros [?|[(m' & [->|?]%elem_of_cons & ?)|(j & k & mj & mk & Hjk & Hj & Hk & ?)]].
      * auto.
      * auto.
      * right; left; eauto.
      * destruct k as [|k]; [lia|]. destruct j as [|j].
        -- injection Hj as ->. left; right. exists mk.
           split; [by eapply list_elem_of_lookup_2 | done].
        -- right; right. exists j, k, mj, mk. repeat split; [lia | done..].
Qed.

Lemma elem_of_populated (PI MI : inserter)
    (fP fM : list Z → list Z → list (Z * Z))
    (mpc off : MultiPointConstraint) (n : nat) (p : SparsityPattern) (e : Z * Z) :
  appends PI fP → appends MI fM →
  e ∈ foldl (cell_step PI MI mpc off) p (seq 0 n)
  ↔ e ∈ p ∨ ∃ i : nat, (i < n)%nat
       ∧ row (cell_to_slaves mpc) (Z.of_nat i) ≠ []
       ∧ cell_entry fP fM
           (cell_dofs (dofmap (function_space off)) (Z.of_nat i))
           (flattened mpc (row (cell_to_slaves mpc) (Z.of_nat i))) e.
Proof.
  intros HP HM. induction n as [|n IH].
  - simpl. split; [auto|]. intros [?|(? & ? & _)]; [done | lia].
  - rewrite seq_S, foldl_app. cbn [foldl Nat.add].
    set (q := foldl _ p (seq 0 n)) in *.
    unfold cell_step. case_bool_decide as E; subst q.
    + rewrite IH. split.
      * intros [?|(i & ? & ?)]; [auto|]. right. exists i. split; [lia | done].
      * intros [?|(i & Hi & Hne & ?)]; [auto|]. right. exists i.
        split; [|done]. destruct (decide (i = n)) as [->|]; [done | lia].
    + rewrite (elem_of_insert_masters PI MI fP fM) by done. rewrite IH. split.
      * intros [[?|(i & ? & ?)]|?]; [auto | |].
        -- right. exists i. split; [lia | done].
        -- right. exists n. split; [lia | done].
      * intros [?|(i & Hi & Hne & Hc)]; [auto|].
        destruct (decide (i = n)) as [->|]; [by right|].
        left; right. exists i. split; [lia | done].
Qed.

(** *** Failures of the populator *)

Lemma div_quot_Err (a b : Z) (e : failure) :
  div_quot a b = Err e → e = division_error.
Proof. unfold div_quot. case_bool_decide; congruence. Qed.

Lemma flatten_masters_Err (mpc : MultiPointConstraint) (slaves : list Z)
    (e : failure) :
  flatten_masters mpc slaves = Err e → e = out_of_range ∨ e = division_error.
Proof.
  unfold flatten_masters.
  apply (for_each_Err (λ e, e = out_of_range ∨ e = division_error)). clear e.
  intros slave fm e [H | (ms & _ & H)]%bind_Err.
  - left. by eapply links_Err.
  - revert H.
    apply (for_each_Err (λ e, e = out_of_range ∨ e = division_error)). clear.
    intros master fm e [H | (q & _ & H)]%bind_Err; [|done].
    right. by eapply div_quot_Err.
Qed.

Lemma pattern_populator_Err (pattern : SparsityPattern)
    (mpc off : MultiPointConstraint) (PI MI : inserter) (e : failure) :
  pattern_populator pattern mpc off PI MI = Err e →
  e = out_of_range ∨ e = division_error.
Proof.
  unfold pattern_populator.
  apply (for_loop_Err (λ e, e = out_of_range ∨ e = division_error)). clear e.
  intros i p e _ [H | (slaves & _ & H)]%bind_Err.
  - left. by eapply links_Err.
  - case_bool_decide; [done|].
    apply bind_Err in H as [H | (fm & _ & H)]; [|done].
    by eapply flatten_masters_Err.
Qed.

(** C7. The rank check comes first: the call throws the runtime error
    "not a bilinear form" exactly when the rank of the form is not 2, and
    then whatever the standard-pattern builder and the constraints are
    (no pattern is built, nothing is inserted); for a form of rank 2 the
    code of the function throws no runtime error at all. *)
Theorem create_sparsity_pattern_rank_check
    (build : SparsityPattern → Form → SparsityPattern)
    (store : nat → MultiPointConstraint) (a : Form) (mpc0 mpc1 : nat) :
  (create_sparsity_pattern build store a mpc0 mpc1
     = Err (runtime_error not_bilinear) ↔ form_rank a ≠ 2)
  ∧ (∀ what, create_sparsity_pattern build store a mpc0 mpc1
               = Err (runtime_error what) → form_rank a ≠ 2).
Proof.
  assert (∀ what, create_sparsity_pattern build store a mpc0 mpc1
                    = Err (runtime_error what) → form_rank a ≠ 2) as Hwhat.
  { intros what. unfold create_sparsity_pattern.
    case_bool_decide as Hr; [done|]. intros H. exfalso.
    case_bool_decide.
    - apply pattern_populator_Err in H as [?|?]; discriminate.
    - unfold rectangular_path in H.
      apply bind_Err in H as [H | (p & _ & H)];
        apply pattern_populator_Err in H as [?|?]; discriminate. }
  split; [|done]. split; [apply Hwhat|].
  intros Hr. unfold create_sparsity_pattern.
  by rewrite bool_decide_eq_true_2.
Qed.

Lemma square_path_contains (pattern : SparsityPattern)
    (mpc : MultiPointConstraint) (i : Z) (slaves : list Z) :
  wf_mpc mpc →
  links (cell_to_slaves mpc) i = Ok slaves →
  slaves ≠ [] →
  ∃ p, square_path pattern mpc mpc = Ok p
    ∧ flatten_masters mpc slaves = Ok (flattened mpc slaves)
    ∧ (∀ slave ms master d,
         slave ∈ slaves → links (masters mpc) slave = Ok ms → master ∈ ms →
         d ∈ cell_dofs (dofmap (function_space mpc)) i →
         (master ÷ index_map_bs (dofmap (function_space mpc)), d) ∈ p
         ∧ (d, master ÷ index_map_bs (dofmap (function_space mpc))) ∈ p)
    ∧ (∀ (j k : nat) mj mk, (j < k)%nat →
         flattened mpc slaves !! j = Some mj →
         flattened mpc slaves !! k = Some mk →
         (mj, mk) ∈ p ∧ (mk, mj) ∈ p).
Proof.
  intros Hwf Hslaves Hne.
  unfold square_path. rewrite pattern_populator_Ok by done.
  eexists. split; [reflexivity|].
  apply links_Ok_range in Hslaves as Hi.
  pose proof (row_links _ _ _ Hslaves) as Hrow.
  assert (∀ e, cell_entry (λ m s, list_prod m s ++ list_prod s m)
                 (λ m s, list_prod m s ++ list_prod s m)
                 (cell_dofs (dofmap (function_space mpc)) i)
                 (flattened mpc slaves) e →
               e ∈ foldl (cell_step square_inserter square_inserter mpc mpc)
                     pattern
                     (seq 0 (Z.to_nat (num_nodes (cell_to_slaves mpc))))) as Hin.
  { intros e He.
    apply (elem_of_populated _ _ _ _ _ _ _ _ _ square_appends square_appends).
    right. exists (Z.to_nat i). rewrite Z2Nat.id by lia.
    rewrite Hrow. split; [lia | done]. }
  split; [|split].
  - apply flatten_masters_Ok; [apply Hwf|].
    apply Forall_forall. intros slave Hs.
    destruct Hwf as [_ Hall]. eapply Forall_forall in Hall; [exact Hall|].
    by eapply links_subseteq.
  - intros slave ms master d Hs Hms Hm Hd.
    assert (master ÷ index_map_bs (dofmap (function_space mpc))
            ∈ flattened mpc slaves) as Hfm.
    { unfold flattened. apply list_elem_of_bind. exists slave. split; [|done].
      rewrite (row_links _ _ _ Hms). apply list_elem_of_fmap. eauto. }
    split; apply Hin; left; eexists; (split; [exact Hfm|]);
      rewrite elem_of_app, !elem_of_list_prod_pair, !list_elem_of_singleton; auto.
  - intros j k mj mk Hjk Hj Hk.
    split; apply Hin; right; exists j, k, mj, mk; (repeat split; [done..|]);
      rewrite elem_of_app, !elem_of_list_prod_pair, !list_elem_of_singleton; auto.
Qed.

(** C1. In the square case, for a form of rank 2 and a traversable
    constraint, the call returns a pattern, and for every cell [i] whose
    row [slaves] of the cell-to-slave map is not empty: the flattening
    loop yields [flattened], the master dofs of the slaves divided by the
    block size; for every such master block [m] and every dof block [d]
    of the cell the pattern contains [(m, d)] and [(d, m)]; and for any
    two positions [j < k] of the flattened list the pattern contains both
    cross entries. *)
Theorem square_pattern_contains_master_entries
    (build : SparsityPattern → Form → SparsityPattern)
    (store : nat → MultiPointConstraint) (a : Form) (mpc0 : nat)
    (i : Z) (slaves : list Z)
    (Hrank : form_rank a = 2)
    (Hwf : wf_mpc (store mpc0))
    (Hslaves : links (cell_to_slaves (store mpc0)) i = Ok slaves)
    (Hne : slaves ≠ []) :
  let mpc := store mpc0 in
  let bs := index_map_bs (dofmap (function_space mpc)) in
  ∃ pattern, create_sparsity_pattern build store a mpc0 mpc0 = Ok pattern
    ∧ flatten_masters mpc slaves = Ok (flattened mpc slaves)
    ∧ (∀ slave ms master d,
         slave ∈ slaves → links (masters mpc) slave = Ok ms → master ∈ ms →
         d ∈ cell_dofs (dofmap (function_space mpc)) i →
         (master ÷ bs, d) ∈ pattern ∧ (d, master ÷ bs) ∈ pattern)
    ∧ (∀ (j k : nat) mj mk, (j < k)%nat →
         flattened mpc slaves !! j = Some mj →
         flattened mpc slaves !! k = Some mk →
         (mj, mk) ∈ pattern ∧ (mk, mj) ∈ pattern).
Proof.
  intros mpc bs. unfold create_sparsity_pattern.
  rewrite bool_decide_eq_false_2 by (intros ?; done).
  rewrite bool_decide_eq_true_2 by done.
  by apply square_path_contains.
Qed.

Lemma example_mpc_wf : wf_mpc example_mpc.
Proof. split; [done|]. repeat constructor; vm_compute; congruence. Qed.

Lemma square_pattern_contains_master_entries_witness :
  let mpc := example_mpc in
  let bs := index_map_bs (dofmap (function_space mpc)) in
  ∃ pattern,
    create_sparsity_pattern (λ p _, p) (λ _, example_mpc)
      {| form_rank := 2 |} 0%nat 0%nat = Ok pattern
    ∧ flatten_masters mpc [0; 1] = Ok (flattened mpc [0; 1])
    ∧ (∀ slave ms master d,
         slave ∈ [0; 1] → links (masters mpc) slave = Ok ms → master ∈ ms →
         d ∈ cell_dofs (dofmap (function_space mpc)) 0 →
         (master ÷ bs, d) ∈ pattern ∧ (d, master ÷ bs) ∈ pattern)
    ∧ (∀ (j k : nat) mj mk, (j < k)%nat →
         flattened mpc [0; 1] !! j = Some mj →
         flattened mpc [0; 1] !! k = Some mk →
         (mj, mk) ∈ pattern ∧ (mk, mj) ∈ pattern).
Proof.
  apply (square_pattern_contains_master_entries (λ p _, p) (λ _, example_mpc)
           {| form_rank := 2 |} 0%nat 0 [0; 1]).
  - reflexivity.
  - split; [reflexivity|]. repeat constructor; vm_compute; congruence.
  - reflexivity.
  - discriminate.
Defined.

(** What the square inserters add for one cell: the row entries, the
    column entries, and the cross pairs. *)
Lemma cell_entry_square_split (dofs fm : list Z) (e : Z * Z) :
  cell_entry (λ m s, list_prod m s ++ list_prod s m)
             (λ m s, list_prod m s ++ list_prod s m) dofs fm e
  ↔ cell_entry (λ m s, list_prod m s) (λ _ _, []) dofs fm e
    ∨ cell_entry (λ m s, list_prod s m) (λ _ _, []) dofs fm e
    ∨ ∃ (j k : nat) (mj mk : Z), (j < k)%nat ∧ fm !! j = Some mj
        ∧ fm !! k = Some mk ∧ (e = (mj, mk) ∨ e = (mk, mj)).
Proof.
  destruct e as [r c]. unfold cell_entry. split.
  - intros [(m & Hm & [H|H]%elem_of_app)
           |(j & k & mj & mk & Hjk & Hj & Hk & [H|H]%elem_of_app)].
    + left; left. eauto.
    + right; left; left. eauto.
    + apply elem_of_list_prod_pair in H as [->%list_elem_of_singleton
                                              ->%list_elem_of_singleton].
      right; right. exists j, k, mj, mk. auto.
    + apply elem_of_list_prod_pair in H as [->%list_elem_of_singleton
                                              ->%list_elem_of_singleton].
      right; right. exists j, k, mj, mk. auto.
  - intros [[(m & Hm & H)|(? & ? & ? & ? & _ & _ & _ & H)]
           |[[(m & Hm & H)|(? & ? & ? & ? & _ & _ & _ & H)]
            |(j & k & mj & mk & Hjk & Hj & Hk & H)]].
    + left. exists m. split; [done|]. apply elem_of_app. auto.
    + by apply elem_of_nil in H.
    + left. exists m. split; [done|]. apply elem_of_app. auto.
    + by apply elem_of_nil in H.
    + right. exists j, k, mj, mk. repeat split; [done..|].
      apply elem_of_app. rewrite !elem_of_list_prod_pair, !list_elem_of_singleton.
      destruct H as [[= -> ->]|[= -> ->]]; auto.
Qed.

(** C2, as stated, fails: on one cell with two slaves and the masters 5
    and 7 the square path holds the cross entry [(7, 5)], which neither
    rectangular traversal inserts. *)
Lemma square_path_not_union_of_rectangular :
  ∃ ps pr, square_path [] example_mpc example_mpc = Ok ps
    ∧ rectangular_path [] example_mpc example_mpc = Ok pr
    ∧ ¬ (∀ e, e ∈ ps ↔ e ∈ pr).
Proof.
  eexists _, _. split; [reflexivity|]. split; [reflexivity|].
  intros H. specialize (H (7, 5)). vm_compute in H.
  assert ((7, 5) ∈ [(5, 0); (5, 1); (5, 2); (7, 0); (7, 1); (7, 2);
                    (0, 5); (1, 5); (2, 5); (0, 7); (1, 7); (2, 7)]) as Hin.
  { apply H. set_solver. }
  set_solver.
Qed.

(** C2, amended. For a traversable constraint both paths return, and the
    entries of the square path are exactly the entries of the two
    rectangular traversals (run with both arguments that constraint)
    together with the cross pairs of masters met on one cell; so the
    rectangular entries are among the square ones, and the two sets
    coincide when no cell has more than one flattened master. *)
Theorem square_path_is_rectangular_plus_cross_pairs
    (pattern : SparsityPattern) (mpc : MultiPointConstraint)
    (Hwf : wf_mpc mpc) :
  ∃ ps pr, square_path pattern mpc mpc = Ok ps
    ∧ rectangular_path pattern mpc mpc = Ok pr
    ∧ (∀ e, e ∈ ps ↔ e ∈ pr ∨ master_cross_pair mpc e)
    ∧ ((∀ i slaves, links (cell_to_slaves mpc) i = Ok slaves →
                    (length (flattened mpc slaves) ≤ 1)%nat) →
       ∀ e, e ∈ ps ↔ e ∈ pr).
Proof.
  unfold square_path, rectangular_path.
  rewrite !pattern_populator_Ok by done. cbn [mbind result_bind].
  rewrite pattern_populator_Ok by done.
  eexists _, _. split; [reflexivity|]. split; [reflexivity|].
  set (n := Z.to_nat (num_nodes (cell_to_slaves mpc))).
  assert (∀ e,
    e ∈ foldl (cell_step square_inserter square_inserter mpc mpc) pattern (seq 0 n)
    ↔ e ∈ foldl (cell_step column_inserter do_nothing_inserter mpc mpc)
            (foldl (cell_step row_inserter do_nothing_inserter mpc mpc)
               pattern (seq 0 n)) (seq 0 n)
      ∨ master_cross_pair mpc e) as Hmain.
  { intros e.
    rewrite (elem_of_populated _ _ _ _ _ _ _ _ _ square_appends square_appends).
    rewrite (elem_of_populated _ _ _ _ _ _ _ _ _ column_appends nothing_appends).
    rewrite (elem_of_populated _ _ _ _ _ _ _ _ _ row_appends nothing_appends).
    split.
    - intros [?|(i & Hi & Hne & He)]; [auto|].
      apply cell_entry_square_split in He as [He|[He|He]].
      + left; left; right. by exists i.
      + left; right. by exists i.
      + right. destruct He as (j & k & mj & mk & ? & ? & ? & ?).
        exists (Z.of_nat i), (row (cell_to_slaves mpc) (Z.of_nat i)), j, k, mj, mk.
        split; [by apply row_nonempty | done].
    - intros [[[?|(i & Hi & Hne & He)]|(i & Hi & Hne & He)]
             |(i & slaves & j & k & mj & mk & Hs & Hne & Hjk & Hj & Hk & H)].
      + auto.
      + right. exists i. repeat split; [done..|].
        apply cell_entry_square_split. auto.
      + right. exists i. repeat split; [done..|].
        apply cell_entry_square_split. auto.
      + apply links_Ok_range in Hs as Hr. pose proof (row_links _ _ _ Hs) as Hrow.
        right. exists (Z.to_nat i). rewrite Z2Nat.id by lia. rewrite Hrow.
        split; [subst n; lia|]. split; [done|].
        apply cell_entry_square_split. right; right.
        by exists j, k, mj, mk. }
  split; [exact Hmain|].
  intros Hone e. rewrite Hmain. split; [|auto].
  intros [?|(i & slaves & j & k & mj & mk & Hs & _ & Hjk & Hj & Hk & _)]; [done|].
  apply lookup_lt_Some in Hk. specialize (Hone i slaves Hs). lia.
Qed.

Lemma square_path_is_rectangular_plus_cross_pairs_witness :
  ∃ ps pr, square_path [] example_mpc example_mpc = Ok ps
    ∧ rectangular_path [] example_mpc example_mpc = Ok pr
    ∧ (∀ e, e ∈ ps ↔ e ∈ pr ∨ master_cross_pair example_mpc e)
    ∧ ((∀ i slaves, links (cell_to_slaves example_mpc) i = Ok slaves →
                    (length (flattened example_mpc slaves) ≤ 1)%nat) →
       ∀ e, e ∈ ps ↔ e ∈ pr).
Proof.
  apply (square_path_is_rectangular_plus_cross_pairs [] example_mpc).
  split; [reflexivity|]. repeat constructor; vm_compute; congruence.
Defined.

End sparsity.

(** ** Basis functions on a negative cell index *)

Section basis.
Import Basis.

(** C9, as stated, fails: the assertion on the size of the point comes
    before the early return, so a point with no coordinates in a mesh of
    geometric dimension 3 aborts the call, negative index or not. *)
Lemma negative_index_short_point_aborts :
  get_basis_functions no_cell_evaluation example_space [] (-1)
    = Err (assertion_failed "x.size() == gdim")
  ∧ ¬ (∃ t, get_basis_functions no_cell_evaluation example_space [] (-1) = Ok t).
Proof. split; [reflexivity|]. intros [t H]. discriminate H. Qed.

(** C9, amended. For every function space, every point with as many
    coordinates as the geometric dimension and every negative cell index
    the call returns an array of shape
    [(basis_shape[2] * element_bs, basis_shape[3] * element_bs)] whose
    entries are all zero, whatever the cell evaluation would do. *)
Theorem negative_index_gives_zeros
    (evaluate_on_cell : FunctionSpace → list double → Z → xtensor2 → result xtensor2)
    (V : FunctionSpace) (x : list double) (index : Z)
    (Hx : Z.of_nat (length x) = to_size_t (geometry_dim (mesh V)))
    (Hneg : index < 0) :
  ∃ t, get_basis_functions evaluate_on_cell V x index = Ok t
    ∧ shape t = (basis_rows V, basis_cols V)
    ∧ length (data t) = Z.to_nat (basis_rows V * basis_cols V)
    ∧ Forall (λ v, v = double_zero) (data t).
Proof.
  unfold get_basis_functions, basis_rows, basis_cols.
  rewrite bool_decide_eq_true_2 by done. cbn [assert mbind result_bind].
  destruct (tabulate_shape (element V) 0 1) as [[[s0 s1] s2] s3].
  rewrite bool_decide_eq_true_2 by done.
  eexists. split; [reflexivity|]. cbn [shape data zeros fst snd].
  split; [done|]. split; [apply length_replicate|].
  apply Forall_forall. by intros v [-> _]%elem_of_replicate.
Qed.

Lemma negative_index_gives_zeros_witness :
  ∃ t, get_basis_functions no_cell_evaluation example_space
         [S754_zero false; S754_zero false; S754_zero false] (-1) = Ok t
    ∧ shape t = (basis_rows example_space, basis_cols example_space)
    ∧ length (data t)
      = Z.to_nat (basis_rows example_space * basis_cols example_space)
    ∧ Forall (λ v, v = double_zero) (data t).
Proof.
  apply (negative_index_gives_zeros no_cell_evaluation example_space
           [S754_zero false; S754_zero false; S754_zero false] (-1)).
  - reflexivity.
  - lia.
Defined.

End basis.

(** ** Colliding cells *)

Section collision.
Import Collision.

(** [<] on doubles is a strict partial order, NaN included. *)
Lemma SFltb_trans (x y z : double) :
  SFltb x y = true → SFltb y z = true → SFltb x z = true.
Proof.
  unfold SFltb.
  destruct x as [sx|sx| |sx mx ex], y as [sy|sy| |sy my ey],
           z as [sz|sz| |sz mz ez];
    simpl; try discriminate; try (destruct sx); try (destruct sy);
    try (destruct sz); simpl; try discriminate; try reflexivity.
  all: rewrite ?Pos.compare_cont_spec by idtac; simpl.
  all: repeat match goal with
       | |- context [Z.compare ?a ?b] => destruct (Z.compare_spec a b); subst
       | |- context [Pos.compare ?a ?b] => destruct (Pos.compare_spec a b); subst
       end; simpl; try discriminate; try reflexivity; try lia.
Qed.

Lemma SFltb_irrefl (x : double) : SFltb x x = false.
Proof.
  unfold SFltb. destruct x as [s|s| |s m e]; simpl; try reflexivity.
  - by destruct s.
  - rewrite Z.compare_refl, Pos.compare_cont_refl. by destruct s.
Qed.

(** [std::min_element] returns a position of the range, and no element of
    the range is below the element there. *)
Lemma min_element_from_spec (pre l : list double) (smallest : nat)
    (best : double) :
  pre !! smallest = Some best →
  (∀ j dj, pre !! j = Some dj → SFltb dj best = false) →
  ∃ dm, (pre ++ l) !! min_element_from smallest best (length pre) l = Some dm
    ∧ ∀ j dj, (pre ++ l) !! j = Some dj → SFltb dj dm = false.
Proof.
  revert pre smallest best. induction l as [|d l IH]; intros pre smallest best Hb Hmin.
  - exists best. rewrite app_nil_r. done.
  - cbn [min_element_from].
    replace (pre ++ d :: l) with ((pre ++ [d]) ++ l) by (by rewrite <- app_assoc).
    replace (S (length pre)) with (length (pre ++ [d]))
      by (rewrite length_app; simpl; lia).
    destruct (SFltb d best) eqn:Hd.
    + apply IH.
      * by rewrite lookup_app_r, Nat.sub_diag.
      * intros j dj Hj. apply lookup_app_Some in Hj as [Hj|[_ Hj]].
        -- destruct (SFltb dj d) eqn:E; [|done].
           rewrite <- (Hmin j dj Hj). symmetry. by eapply SFltb_trans.
        -- apply list_lookup_singleton_Some in Hj as [_ <-].
           apply SFltb_irrefl.
    + apply IH.
      * by apply lookup_app_l_Some.
      * intros j dj Hj. apply lookup_app_Some in Hj as [Hj|[_ Hj]].
        -- by eapply Hmin.
        -- by apply list_lookup_singleton_Some in Hj as [_ <-].
Qed.

Lemma min_element_spec (l : list double) :
  l ≠ [] →
  ∃ dm, l !! min_element l = Some dm
    ∧ ∀ j dj, l !! j = Some dj → SFltb dj dm = false.
Proof.
  destruct l as [|d l]; [done|]. intros _.
  apply (min_element_from_spec [d] l 0 d); [done|].
  intros j dj Hj. apply list_lookup_singleton_Some in Hj as [_ <-].
  apply SFltb_irrefl.
Qed.

(** Rows cut out of a concatenation by running lengths. *)
Lemma concat_seq_S {A : Type} (f : nat → list A) (k : nat) :
  concat (f <$> seq 0 (S k)) = concat (f <$> seq 0 k) ++ f k.
Proof. rewrite seq_S, fmap_app, concat_app. simpl. by rewrite app_nil_r. Qed.

Lemma concat_seq_row {A : Type} (f : nat → list A) (n k : nat) :
  (k < n)%nat →
  take (length (f k))
       (drop (length (concat (f <$> seq 0 k))) (concat (f <$> seq 0 n)))
  = f k.
Proof.
  intros Hk.
  replace n with (S k + (n - S k))%nat by lia.
  rewrite seq_app, fmap_app, concat_app, concat_seq_S.
  rewrite <- !app_assoc. rewrite drop_app_length. by rewrite take_app_length.
Qed.

Context (squared_distance : Mesh → Z → list Z → list point → list double).
Context (BoundingBoxTree : Type).
Context (compute_collisions : BoundingBoxTree → list point → AdjacencyList).

Lemma nearest_nil (mesh : Mesh) (p : point) (eps2 : double) :
  nearest squared_distance mesh [] p eps2 = [].
Proof. unfold nearest. by destruct (_ !! _). Qed.

Lemma nearest_length (mesh : Mesh) (cells : list Z) (p : point) (eps2 : double) :
  (length (nearest squared_distance mesh cells p eps2) ≤ 1)%nat.
Proof.
  unfold nearest. destruct (_ !! _); [|simpl; lia].
  destruct (_ !! _); [|simpl; lia]. destruct (SFltb _ _); simpl; lia.
Qed.

Lemma nearest_of_length (mesh : Mesh) (cand : AdjacencyList)
    (points : list point) (eps2 : double) (i : nat) :
  (length (nearest_of squared_distance mesh cand points eps2 i) ≤ 1)%nat.
Proof.
  unfold nearest_of. destruct (points !! i); [apply nearest_length | simpl; lia].
Qed.

Lemma nearest_prefix_length (mesh : Mesh) (cand : AdjacencyList)
    (points : list point) (eps2 : double) (k : nat) :
  (length (concat (nearest_of squared_distance mesh cand points eps2 <$> seq 0 k))
   ≤ k)%nat.
Proof.
  induction k as [|k IH]; [simpl; lia|].
  rewrite concat_seq_S, length_app.
  pose proof (nearest_of_length mesh cand points eps2 k). lia.
Qed.

(** The outcome for a point with candidates, spelled out. *)
Lemma nearest_spec (mesh : Mesh) (cells : list Z) (p : point) (eps2 : double) :
  (∀ cs ps, length (squared_distance mesh (topology_dim (topology mesh)) cs ps)
            = length cs) →
  cells ≠ [] →
  let d := squared_distance mesh (topology_dim (topology mesh)) cells
             (replicate (length cells) p) in
  ∃ dm c, d !! min_element d = Some dm
    ∧ cells !! min_element d = Some c
    ∧ (∀ j dj, d !! j = Some dj → SFltb dj dm = false)
    ∧ nearest squared_distance mesh cells p eps2
      = if SFltb dm eps2 then [c] else [].
Proof.
  intros Hdist Hne d.
  assert (d ≠ []) as Hd.
  { intros E. apply (f_equal length) in E. unfold d in E. rewrite Hdist in E.
    by destruct cells. }
  destruct (min_element_spec d Hd) as (dm & Hdm & Hmin).
  destruct (lookup_lt_is_Some_2 cells (min_element d)) as [c Hc].
  { apply lookup_lt_Some in Hdm. unfold d in Hdm at 2. by rewrite Hdist in Hdm. }
  exists dm, c. repeat split; [done..|].
  unfold nearest. fold d. by rewrite Hdm, Hc.
Qed.

(** The loop of [compute_colliding_cells] in closed form. *)
Lemma compute_colliding_cells_Ok (mesh : Mesh) (cand : AdjacencyList)
    (points : list point) (eps2 : double) :
  (∀ cs ps, length (squared_distance mesh (topology_dim (topology mesh)) cs ps)
            = length cs) →
  num_nodes cand ≤ Z.of_nat (length points) →
  num_nodes cand ≤ int32_max →
  let f := nearest_of squared_distance mesh cand points eps2 in
  let n := Z.to_nat (num_nodes cand) in
  compute_colliding_cells squared_distance mesh cand points eps2
  = Ok {| array := concat (f <$> seq 0 n);
          offsets := (λ k, Z.of_nat (length (concat (f <$> seq 0 k))))
                       <$> seq 0 (S n) |}.
Proof.
  intros Hdist Hpts Hmax f n. unfold compute_colliding_cells.
  match goal with |- context [for_loop ?body 0 ?m ?s0] =>
    destruct (for_loop_inv
      (λ i '(offs, coll),
         coll = concat (f <$> seq 0 i)
         ∧ offs = (λ k, Z.of_nat (length (concat (f <$> seq 0 k))))
                    <$> seq 0 (S i))
      body m 0%nat s0) as ([offs coll] & -> & -> & ->)
  end; [done | | done].
  intros i [offs coll] Hi [-> ->].
  assert (Z.of_nat (S i) ≤ num_nodes cand) as Hbound by lia.
  destruct (links_in_range cand (Z.of_nat i)) as [cands Hs]; [lia|].
  rewrite Hs. cbn [mbind result_bind].
  assert (∀ l, l = f i →
            ((λ k, Z.of_nat (length (concat (f <$> seq 0 k)))) <$> seq 0 (S i))
              ++ [wrap32 (Z.of_nat (length (concat (f <$> seq 0 i) ++ l)))]
            = (λ k, Z.of_nat (length (concat (f <$> seq 0 k))))
                <$> seq 0 (S (S i))) as Hoffs.
  { intros l ->. rewrite (seq_S (S i)), fmap_app. f_equal.
    change (0 + S i)%nat with (S i).
    rewrite <- concat_seq_S, wrap32_small; [done|].
    pose proof (nearest_prefix_length mesh cand points eps2 (S i)) as Hle.
    fold f in Hle. unfold int32_max in *. lia. }
  destruct (lookup_lt_is_Some_2 points i) as [p Hp]; [lia|].
  assert (f i = nearest squared_distance mesh cands p eps2) as Hfi.
  { unfold f, nearest_of. by rewrite Hp, (row_links _ _ _ Hs). }
  case_bool_decide as Hc.
  - assert (f i = []) as Hnil by (by rewrite Hfi, Hc, nearest_nil).
    eexists. split; [reflexivity|]. split.
    + by rewrite concat_seq_S, Hnil, app_nil_r.
    + specialize (Hoffs [] (eq_sym Hnil)). by rewrite app_nil_r in Hoffs.
  - rewrite (vget_nat _ _ _ Hp). cbn [mbind result_bind].
    destruct (nearest_spec mesh cands p eps2 Hdist Hc)
      as (dm & c & Hdm & Hcell & _ & Hnear).
    rewrite (vget_nat _ _ _ Hdm). cbn [mbind result_bind].
    rewrite Hnear in Hfi. destruct (SFltb dm eps2).
    + rewrite (vget_nat _ _ _ Hcell). cbn [mbind result_bind].
      eexists. split; [reflexivity|]. split.
      * by rewrite concat_seq_S, Hfi.
      * by apply Hoffs.
    + eexists. split; [reflexivity|]. split.
      * by rewrite concat_seq_S, Hfi, app_nil_r.
      * specialize (Hoffs [] (eq_sym Hfi)). by rewrite app_nil_r in Hoffs.
Qed.

Lemma links_running_lengths (f : nat → list Z) (n k : nat) :
  (k < n)%nat →
  links {| array := concat (f <$> seq 0 n);
           offsets := (λ k, Z.of_nat (length (concat (f <$> seq 0 k))))
                        <$> seq 0 (S n) |} (Z.of_nat k)
  = Ok (f k).
Proof.
  intros Hk.
  rewrite (links_Ok _ _ (Z.of_nat (length (concat (f <$> seq 0 k))))
             (Z.of_nat (length (concat (f <$> seq 0 (S k)))))).
  - cbn [array]. f_equal. rewrite concat_seq_S, length_app.
    replace (Z.to_nat (_ - _)) with (length (f k)) by lia.
    rewrite Nat2Z.id. by apply concat_seq_row.
  - lia.
  - cbn [offsets]. rewrite Nat2Z.id, list_lookup_fmap, lookup_seq_lt by lia. done.
  - cbn [offsets]. rewrite Nat2Z.id, list_lookup_fmap, lookup_seq_lt by lia. done.
Qed.

Lemma nearest_closest_or_none (mesh : Mesh) (cells : list Z) (p : point)
    (eps2 : double) :
  (∀ cs ps, length (squared_distance mesh (topology_dim (topology mesh)) cs ps)
            = length cs) →
  closest_or_none squared_distance mesh cells p eps2
    (nearest squared_distance mesh cells p eps2).
Proof.
  intros Hdist. split; [apply nearest_length|]. split.
  - intros ->. apply nearest_nil.
  - intros Hne. destruct (nearest_spec mesh cells p eps2 Hdist Hne)
      as (dm & c & ? & ? & ? & ?). by exists dm, c.
Qed.

(** The loop of [find_local_collisions] in closed form. *)
Lemma find_local_collisions_Ok (mesh : Mesh) (tree : BoundingBoxTree)
    (points : list point) (eps2 : double) :
  (∀ cs ps, length (squared_distance mesh (topology_dim (topology mesh)) cs ps)
            = length cs) →
  Forall (λ p : point, length p = 3%nat) points →
  num_nodes (compute_collisions tree points) = Z.of_nat (length points) →
  Z.of_nat (length points) ≤ int32_max →
  find_local_collisions squared_distance BoundingBoxTree compute_collisions
    mesh tree points eps2
  = Ok ((λ k, hd (-1) (nearest_of squared_distance mesh
                         (compute_collisions tree points) points eps2 k))
          <$> seq 0 (length points)).
Proof.
  intros Hdist H3 Hn Hmax. unfold find_local_collisions.
  rewrite bool_decide_eq_true_2 by done. cbn [assert mbind result_bind].
  rewrite compute_colliding_cells_Ok by (done || lia).
  cbn [mbind result_bind].
  set (f := nearest_of squared_distance mesh (compute_collisions tree points)
              points eps2).
  rewrite Hn, Nat2Z.id.
  unfold num_nodes. cbn [offsets]. rewrite length_fmap, length_seq.
  replace (Z.to_nat (Z.of_nat (S (length points)) - 1)) with (length points) by lia.
  set (np := length points).
  match goal with |- for_loop ?body 0 np ?s0 = _ =>
    destruct (for_loop_inv
      (λ i coll, coll = ((λ k, hd (-1) (f k)) <$> seq 0 i)
                        ++ replicate (np - i) (-1))
      body np 0%nat s0) as (coll & -> & ->)
  end.
  - simpl. by rewrite Nat.sub_0_r.
  - intros i coll Hi ->.
    rewrite links_running_lengths by lia. cbn [mbind result_bind].
    replace (np - i)%nat with (S (np - S i)) by lia.
    rewrite seq_S, fmap_app, <- app_assoc. cbn [fmap list_fmap Nat.add app].
    destruct (f i) as [|c rest] eqn:Hf.
    + rewrite bool_decide_eq_false_2 by (intros ?; done).
      eexists. split; reflexivity.
    + rewrite bool_decide_eq_true_2 by done.
      assert (vget (c :: rest) 0 = Ok c) as -> by reflexivity.
      cbn [mbind result_bind]. rewrite vset_Ok.
      * eexists. split; [reflexivity|]. rewrite Nat2Z.id.
        rewrite insert_app_r_alt by (rewrite length_fmap, length_seq; lia).
        rewrite length_fmap, length_seq, Nat.sub_diag. done.
      * rewrite length_app, length_fmap, length_seq, length_replicate. lia.
  - simpl. by rewrite Nat.sub_diag, app_nil_r.
Qed.

(** C10. Let the distance computation return one value per cell.  Then
    [compute_colliding_cells] returns, and the row of every point holds at
    most one cell: none when the point has no candidate or when the least
    squared distance to its candidates is not below [eps2], otherwise the
    one candidate where [std::min_element] finds that least distance.
    [find_local_collisions] then returns, per point, the cell of that row,
    or -1 when the row is empty. *)
Theorem colliding_cells_closest_or_none (mesh : Mesh) (points : list point)
    (eps2 : double)
    (Hdist : ∀ cs ps,
       length (squared_distance mesh (topology_dim (topology mesh)) cs ps)
       = length cs) :
  (∀ cand : AdjacencyList,
     num_nodes cand ≤ Z.of_nat (length points) →
     num_nodes cand ≤ int32_max →
     ∃ out, compute_colliding_cells squared_distance mesh cand points eps2 = Ok out
       ∧ ∀ i : nat, Z.of_nat i < num_nodes cand →
           ∃ cells p rw, links cand (Z.of_nat i) = Ok cells
             ∧ points !! i = Some p
             ∧ links out (Z.of_nat i) = Ok rw
             ∧ closest_or_none squared_distance mesh cells p eps2 rw)
  ∧ (∀ tree : BoundingBoxTree,
       Forall (λ p : point, length p = 3%nat) points →
       num_nodes (compute_collisions tree points) = Z.of_nat (length points) →
       Z.of_nat (length points) ≤ int32_max →
       ∃ out collisions,
         compute_colliding_cells squared_distance mesh
           (compute_collisions tree points) points eps2 = Ok out
         ∧ find_local_collisions squared_distance BoundingBoxTree
             compute_collisions mesh tree points eps2 = Ok collisions
         ∧ length collisions = length points
         ∧ ∀ i : nat, (i < length points)%nat →
             ∃ rw, links out (Z.of_nat i) = Ok rw
               ∧ collisions !! i = Some (match rw with [] => -1 | c :: _ => c end)).
Proof.
  split.
  - intros cand Hpts Hmax.
    rewrite compute_colliding_cells_Ok by done.
    eexists. split; [reflexivity|]. intros i Hi.
    destruct (links_in_range cand (Z.of_nat i)) as [cells Hs]; [lia|].
    destruct (lookup_lt_is_Some_2 points i) as [p Hp]; [lia|].
    exists cells, p. eexists. split; [done|]. split; [done|].
    split; [apply links_running_lengths; lia|].
    unfold nearest_of. rewrite Hp, (row_links _ _ _ Hs).
    by apply nearest_closest_or_none.
  - intros tree H3 Hn Hmax.
    rewrite compute_colliding_cells_Ok by (done || lia).
    rewrite find_local_collisions_Ok by done.
    eexists _, _. split; [reflexivity|]. split; [reflexivity|].
    split; [by rewrite length_fmap, length_seq|].
    intros i Hi. eexists. split; [apply links_running_lengths; lia|].
    rewrite list_lookup_fmap, lookup_seq_lt by done. simpl.
    by destruct (nearest_of _ _ _ _ _ _).
Qed.

End collision.

Section collision_example.
Import Collision.

Lemma colliding_cells_closest_or_none_witness :
  (∃ out, compute_colliding_cells example_distance example_mesh
            example_candidates example_points three_halves = Ok out
     ∧ ∀ i : nat, Z.of_nat i < num_nodes example_candidates →
         ∃ cells p rw, links example_candidates (Z.of_nat i) = Ok cells
           ∧ example_points !! i = Some p
           ∧ links out (Z.of_nat i) = Ok rw
           ∧ closest_or_none example_distance example_mesh cells p three_halves rw)
  ∧ (∃ out collisions,
       compute_colliding_cells example_distance example_mesh
         (example_search tt example_points) example_points three_halves = Ok out
       ∧ find_local_collisions example_distance unit example_search
           example_mesh tt example_points three_halves = Ok collisions
       ∧ length collisions = length example_points
       ∧ ∀ i : nat, (i < length example_points)%nat →
           ∃ rw, links out (Z.of_nat i) = Ok rw
             ∧ collisions !! i = Some (match rw with [] => -1 | c :: _ => c end)).
Proof.
  destruct (colliding_cells_closest_or_none example_distance unit example_search
              example_mesh example_points three_halves) as [Hrows Hfirst].
  - intros cs ps. apply length_fmap.
  - split.
    + apply Hrows; vm_compute; congruence.
    + apply Hfirst.
      * repeat constructor.
      * reflexivity.
      * vm_compute. congruence.
Defined.

End collision_example.

(** ** Block-to-facet map: the two-pass CSR construction *)

Section csr_counting.
Import BlockToFacet.

Lemma occ_app (b : Z) (l k : list Z) : occ b (l ++ k) = (occ b l + occ b k)%nat.
Proof. unfold occ. by rewrite filter_app, length_app. Qed.

Lemma occ_singleton (b d : Z) :
  occ b [d] = if bool_decide (d = b) then 1%nat else 0%nat.
Proof.
  unfold occ. rewrite filter_cons, filter_nil.
  case_decide; case_bool_decide; done.
Qed.

Lemma below_app (b : Z) (l k : list Z) :
  below b (l ++ k) = (below b l + below b k)%nat.
Proof. unfold below. by rewrite filter_app, length_app. Qed.

Lemma occ_le (b : Z) (ds : list Z) : (occ b ds ≤ length ds)%nat.
Proof. apply length_filter. Qed.

Lemma below_le (b : Z) (ds : list Z) : (below b ds ≤ length ds)%nat.
Proof. apply length_filter. Qed.

Lemma below_succ (b : Z) (ds : list Z) :
  below (b + 1) ds = (below b ds + occ b ds)%nat.
Proof.
  unfold below, occ. induction ds as [|d ds IH]; [done|].
  rewrite !filter_cons. repeat case_decide; simpl; lia.
Qed.

Lemma below_mono (b b' : Z) (ds : list Z) :
  b ≤ b' → (below b ds ≤ below b' ds)%nat.
Proof.
  intros H. unfold below. induction ds as [|d ds IH]; [done|].
  rewrite !filter_cons. repeat case_decide; simpl; lia.
Qed.

Lemma below_zero (ds : list Z) : Forall (λ d, 0 ≤ d) ds → below 0 ds = 0%nat.
Proof.
  unfold below. induction 1 as [|d ds Hd _ IH]; [done|].
  rewrite filter_cons. case_decide; [lia | done].
Qed.

Lemma below_all (n : Z) (ds : list Z) :
  Forall (λ d, d < n) ds → below n ds = length ds.
Proof.
  unfold below. induction 1 as [|d ds Hd _ IH]; [done|].
  rewrite filter_cons. case_decide; [simpl; lia | lia].
Qed.

Lemma length_tally (n : nat) (ds : list Z) : length (tally n ds) = n.
Proof. unfold tally. by rewrite length_fmap, length_seq. Qed.

Lemma tally_lookup (n : nat) (ds : list Z) (b : nat) :
  (b < n)%nat → tally n ds !! b = Some (Z.of_nat (occ (Z.of_nat b) ds)).
Proof. intros H. unfold tally. by rewrite list_lookup_fmap, lookup_seq_lt. Qed.

Lemma tally_nil (n : nat) : tally n [] = replicate n 0.
Proof.
  apply list_eq. intros b. destruct (decide (b < n)%nat).
  - by rewrite tally_lookup, lookup_replicate_2.
  - rewrite !lookup_ge_None_2; [done | rewrite length_replicate; lia
                                | rewrite length_tally; lia].
Qed.

(** Bumping the counter of [d] records one more occurrence of [d]. *)
Lemma tally_bump (n : nat) (ds : list Z) (d : Z) :
  0 ≤ d →
  <[Z.to_nat d := Z.of_nat (occ d ds) + 1]> (tally n ds) = tally n (ds ++ [d]).
Proof.
  intros Hd. apply list_eq. intros b. destruct (decide (b < n)%nat) as [Hb|Hb].
  - rewrite (tally_lookup n (ds ++ [d])) by done.
    rewrite occ_app, occ_singleton.
    destruct (decide (Z.to_nat d = b)) as [<-|Hne].
    + rewrite list_lookup_insert_eq by (rewrite length_tally; lia).
      rewrite Z2Nat.id by done. rewrite bool_decide_eq_true_2 by done.
      f_equal. lia.
    + rewrite list_lookup_insert_ne by done. rewrite tally_lookup by done.
      rewrite bool_decide_eq_false_2 by lia. f_equal. lia.
  - rewrite !lookup_ge_None_2; [done | rewrite length_tally; lia
                                | rewrite length_insert, length_tally; lia].
Qed.

(** The prefix sums of the counters are the numbers of incidences on
    smaller blocks. *)
Lemma partial_sum_from_tally (ds : list Z) (m k : nat) :
  Z.of_nat (length ds) ≤ int32_max →
  partial_sum_from (Z.of_nat (below (Z.of_nat k) ds))
    ((λ b : nat, Z.of_nat (occ (Z.of_nat b) ds)) <$> seq k m)
  = (λ b : nat, Z.of_nat (below (Z.of_nat (S b)) ds)) <$> seq k m.
Proof.
  intros Hmax. revert k. induction m as [|m IH]; intros k; [done|].
  cbn [seq fmap list_fmap partial_sum_from].
  assert (wrap32 (Z.of_nat (below (Z.of_nat k) ds) + Z.of_nat (occ (Z.of_nat k) ds))
          = Z.of_nat (below (Z.of_nat (S k)) ds)) as ->.
  { replace (Z.of_nat (S k)) with (Z.of_nat k + 1) by lia.
    rewrite below_succ.
    pose proof (below_le (Z.of_nat k + 1) ds) as Hle. rewrite below_succ in Hle.
    rewrite wrap32_small; unfold int32_max in *; lia. }
  f_equal. apply IH.
Qed.

Lemma partial_sum_tally (n : nat) (ds : list Z) :
  Z.of_nat (length ds) ≤ int32_max →
  Forall (λ d, 0 ≤ d) ds →
  0 :: partial_sum (tally n ds)
  = (λ b : nat, Z.of_nat (below (Z.of_nat b) ds)) <$> seq 0 (S n).
Proof.
  intros Hmax Hpos. cbn [seq fmap list_fmap].
  change (Z.of_nat 0) with 0. rewrite (below_zero ds Hpos). f_equal.
  destruct n as [|n]; [done|].
  unfold tally. cbn [seq fmap list_fmap partial_sum].
  assert (Z.of_nat (occ (Z.of_nat 0) ds) = Z.of_nat (below (Z.of_nat 1) ds)) as ->.
  { change (Z.of_nat 1) with (0 + 1). change (Z.of_nat 0) with 0.
    rewrite below_succ, (below_zero ds Hpos). lia. }
  f_equal. rewrite (partial_sum_from_tally ds n 1 Hmax).
  by rewrite <- (fmap_S_seq 1), <- list_fmap_compose.
Qed.

End csr_counting.

Section csr_passes.
Import BlockToFacet.

Lemma selected_lookup (n : Z) (cell_blocks closure : list Z) (j : nat) :
  closure_ok n cell_blocks closure →
  (j < length closure)%nat →
  ∃ cb d, closure !! j = Some cb ∧ 0 ≤ cb
    ∧ cell_blocks !! Z.to_nat cb = Some d ∧ 0 ≤ d < n
    ∧ selected cell_blocks closure !! j = Some d.
Proof.
  intros Hok Hj.
  destruct (lookup_lt_is_Some_2 closure j Hj) as [cb Hcb].
  destruct (proj1 (Forall_lookup _ _) Hok j cb Hcb) as (Hpos & d & Hd & Hr).
  exists cb, d. do 4 (split; [done|]).
  unfold selected. rewrite list_lookup_fmap, Hcb. simpl. by rewrite Hd.
Qed.

Lemma selected_range (n : Z) (cell_blocks closure : list Z) :
  closure_ok n cell_blocks closure →
  Forall (λ d, 0 ≤ d < n) (selected cell_blocks closure).
Proof.
  intros Hok. apply Forall_lookup. intros j d Hj.
  assert (j < length closure)%nat as Hlt.
  { apply lookup_lt_Some in Hj. unfold selected in Hj. by rewrite length_fmap in Hj. }
  destruct (selected_lookup _ _ _ j Hok Hlt) as (cb & d' & _ & _ & _ & Hr & Hs).
  congruence.
Qed.

(** The inner loop of the first pass counts the blocks of the closure. *)
Lemma count_closure_Ok (n : nat) (cell_blocks closure ds0 : list Z) :
  closure_ok (Z.of_nat n) cell_blocks closure →
  Z.of_nat (length ds0 + length closure) ≤ int32_max →
  count_closure cell_blocks closure (tally n ds0)
  = Ok (tally n (ds0 ++ selected cell_blocks closure)).
Proof.
  intros Hok Hmax. unfold count_closure.
  match goal with |- for_loop ?body 0 ?m ?s0 = _ =>
    destruct (for_loop_inv
      (λ j cnt, cnt = tally n (ds0 ++ take j (selected cell_blocks closure)))
      body m 0%nat s0) as (cnt & -> & ->)
  end.
  - by rewrite take_0, app_nil_r.
  - intros j cnt Hj ->.
    destruct (selected_lookup _ _ _ j Hok) as (cb & d & Hcb & Hpos & Hd & Hr & Hs);
      [lia|].
    rewrite (vget_nat _ _ _ Hcb). cbn [mbind result_bind].
    assert (vget cell_blocks cb = Ok d) as -> by (by apply vget_Ok).
    cbn [mbind result_bind].
    set (ds := ds0 ++ take j (selected cell_blocks closure)).
    assert (vget (tally n ds) d = Ok (Z.of_nat (occ d ds))) as ->.
    { apply vget_Ok. split; [lia|]. rewrite tally_lookup by lia.
      by rewrite Z2Nat.id by lia. }
    cbn [mbind result_bind].
    assert (occ d ds ≤ length ds0 + j)%nat as Hocc.
    { etrans; [apply occ_le|]. unfold ds. rewrite length_app, length_take. lia. }
    rewrite wrap32_small by (unfold int32_max in *; lia).
    rewrite vset_Ok by (rewrite length_tally; lia).
    eexists. split; [reflexivity|].
    rewrite tally_bump by lia. unfold ds.
    by rewrite (take_S_r _ _ _ Hs), app_assoc.
  - simpl. f_equal. f_equal. f_equal.
    apply take_ge. unfold selected. by rewrite length_fmap.
Qed.

(** *** The incidences of a list of entities *)

Lemma incidences_app (V : FunctionSpace) (dim : Z) (l k : list Z) :
  incidences V dim (l ++ k) = incidences V dim l ++ incidences V dim k.
Proof. apply bind_app. Qed.

Lemma incidences_snoc (V : FunctionSpace) (dim : Z) (l : list Z) (e : Z) :
  incidences V dim (l ++ [e])
  = incidences V dim l ++ ((λ b, (b, e)) <$> entity_blocks V dim e).
Proof. unfold incidences. by rewrite bind_app, bind_singleton. Qed.

Lemma fst_pairs (e : Z) (bs : list Z) : ((λ b, (b, e)) <$> bs).*1 = bs.
Proof. rewrite <- list_fmap_compose. apply list_fmap_id. Qed.

Lemma snd_pairs (e : Z) (bs : list Z) :
  ((λ b, (b, e)) <$> bs).*2 = replicate (length bs) e.
Proof. induction bs as [|b bs IH]; [done|]. simpl. f_equal. exact IH. Qed.

Lemma length_incidences_prefix (V : FunctionSpace) (dim : Z)
    (entities : list Z) (i : nat) :
  (length (incidences V dim (take i entities))
   ≤ length (incidences V dim entities))%nat.
Proof.
  rewrite <- (take_drop i entities) at 2.
  rewrite incidences_app, length_app. lia.
Qed.

Lemma length_incidences (V : FunctionSpace) (dim : Z) (entities : list Z) :
  length (incidences V dim entities)
  = sum_list ((λ e, length (closure_blocks V dim e)) <$> entities).
Proof.
  induction entities as [|e es IH]; [done|].
  change (e :: es) with ([e] ++ es). rewrite incidences_app, length_app, IH.
  cbn [app fmap list_fmap sum_list sum_list_with]. f_equal.
  unfold incidences. rewrite bind_singleton, length_fmap.
  unfold entity_blocks, selected. by rewrite length_fmap.
Qed.

Lemma incidences_range (V : FunctionSpace) (dim : Z) (entities : list Z) :
  Forall (entity_ok V dim) entities →
  Forall (λ d, 0 ≤ d < dof_count V) (incidences V dim entities).*1.
Proof.
  induction 1 as [|e es (_ & _ & Hc) _ IH]; [constructor|].
  change (e :: es) with ([e] ++ es).
  rewrite incidences_app, fmap_app. apply Forall_app. split; [|done].
  unfold incidences. rewrite bind_singleton, fst_pairs.
  by apply selected_range.
Qed.

(** What [entity_ok] gives to the code. *)
Lemma entity_ok_links (V : FunctionSpace) (dim e : Z) :
  entity_ok V dim e →
  links (connectivity (topology (mesh V)) dim (topology_dim (topology (mesh V)))) e
    = Ok [the_cell V dim e]
  ∧ links (connectivity (topology (mesh V)) (topology_dim (topology (mesh V))) dim)
      (the_cell V dim e) = Ok (cell_entities V dim e)
  ∧ std_find e (cell_entities V dim e) ≠ length (cell_entities V dim e).
Proof.
  intros (Hone & Hin & _). split; [|split].
  - unfold the_cell. unfold incident_cells in *.
    rewrite row_nonempty by (by intros E; rewrite E in Hone).
    f_equal. by destruct (row _ e) as [|c [|? ?]].
  - unfold cell_entities in *. apply row_nonempty.
    intros E. rewrite E in Hin. by apply elem_of_nil in Hin.
  - by apply std_find_found.
Qed.

Lemma insert_fill {A : Type} (done : list A) (m i : nat) (x z : A) :
  length done = i → (i < m)%nat →
  <[i := x]> (done ++ replicate (m - i) z)
  = (done ++ [x]) ++ replicate (m - S i) z.
Proof.
  intros <- H. rewrite insert_app_r_alt, Nat.sub_diag by done.
  replace (m - length done)%nat with (S (m - S (length done))) by lia.
  by rewrite <- app_assoc.
Qed.

(** One iteration of the first pass keeps [first_pass_inv]. *)
Lemma first_pass_step (V : FunctionSpace) (dim : Z) (entities : list Z)
    (i : nat) (e : Z) (st : pass1) :
  0 ≤ dof_count V →
  entities !! i = Some e →
  entity_ok V dim e →
  Z.of_nat (length (incidences V dim (take (S i) entities))) ≤ int32_max →
  first_pass_inv V dim entities i st →
  ∃ st', first_pass_body V dim entities i st = Ok st'
    ∧ first_pass_inv V dim entities (S i) st'.
Proof.
  intros Hn He Hok Hmax (Hcnt & Hli & Hcells).
  destruct (entity_ok_links V dim e Hok) as (Hcell & Hents & Hfind).
  assert (i < length entities)%nat as Hi by (by eapply lookup_lt_Some).
  assert (length (take i entities) = i) as Hlen by (rewrite length_take; lia).
  rewrite (take_S_r _ _ _ He) in Hmax.
  unfold first_pass_inv. rewrite (take_S_r _ _ _ He).
  unfold first_pass_body. rewrite (vget_nat _ _ _ He). cbn [mbind result_bind].
  rewrite Hcell. cbn [mbind result_bind length].
  rewrite bool_decide_eq_true_2 by done. cbn [assert mbind result_bind].
  assert (vget [the_cell V dim e] 0 = Ok (the_cell V dim e)) as -> by reflexivity.
  cbn [mbind result_bind].
  rewrite vset_Ok
    by (rewrite Hcells, length_app, length_fmap, length_replicate; lia).
  cbn [mbind result_bind]. rewrite Hents. cbn [mbind result_bind].
  rewrite bool_decide_eq_true_2 by done. cbn [assert mbind result_bind].
  rewrite vset_Ok
    by (rewrite Hli, length_app, length_fmap, length_replicate; lia).
  cbn [mbind result_bind]. rewrite Hcnt.
  fold (local_entity V dim e). fold (closure_blocks V dim e).
  rewrite incidences_snoc, length_app, length_fmap in Hmax.
  rewrite count_closure_Ok.
  - cbn [mbind result_bind]. eexists. split; [reflexivity|].
    split; [|split]; cbn [num_facets_per_dof local_indices cells].
    + rewrite incidences_snoc, fmap_app, fst_pairs. done.
    + rewrite Hli, Nat2Z.id, fmap_app.
      apply insert_fill; [by rewrite length_fmap | done].
    + rewrite Hcells, Nat2Z.id, fmap_app.
      apply insert_fill; [by rewrite length_fmap | done].
  - rewrite Z2Nat.id by done. apply Hok.
  - rewrite length_fmap. unfold entity_blocks, selected in Hmax.
    rewrite length_fmap in Hmax. lia.
Qed.

Lemma first_pass_Ok (V : FunctionSpace) (dim : Z) (entities : list Z) :
  0 ≤ dof_count V ≤ int32_max →
  Forall (entity_ok V dim) entities →
  Z.of_nat (length (incidences V dim entities)) ≤ int32_max →
  ∃ st, first_pass V dim entities (wrap32 (dof_count V)) = Ok st
    ∧ first_pass_inv V dim entities (length entities) st.
Proof.
  intros Hn Hok Hmax. unfold first_pass.
  rewrite wrap32_small by (unfold int32_max in *; lia).
  rewrite vector_new_Ok by lia. cbn [mbind result_bind].
  apply (for_loop_inv (first_pass_inv V dim entities)).
  - split; [|split]; cbn [num_facets_per_dof local_indices cells].
    + by rewrite take_0, tally_nil.
    + by rewrite take_0, Nat.sub_0_r.
    + by rewrite take_0, Nat.sub_0_r.
  - intros i st Hi Hinv.
    destruct (lookup_lt_is_Some_2 entities i) as [e He]; [lia|].
    apply (first_pass_step V dim entities i e); [lia | done | | | done].
    + by eapply Forall_lookup_1.
    + pose proof (length_incidences_prefix V dim entities (S i)). lia.
Qed.

(** *** The second pass *)

Lemma length_row_of (b : Z) (ps : list (Z * Z)) :
  length (row_of b ps) = occ b ps.*1.
Proof.
  unfold row_of, occ. rewrite length_fmap.
  induction ps as [|[d e] ps IH]; [done|].
  rewrite fmap_cons, !filter_cons. simpl. repeat case_decide; simpl; lia.
Qed.

Lemma row_of_snoc (b d e : Z) (ps : list (Z * Z)) :
  row_of b (ps ++ [(d, e)])
  = row_of b ps ++ (if bool_decide (d = b) then [e] else []).
Proof.
  unfold row_of. rewrite filter_app, fmap_app. f_equal.
  rewrite filter_cons, filter_nil. simpl.
  case_decide; case_bool_decide; done.
Qed.

(** The slot of the next incidence on [d] is inside the data vector and
    differs from every slot in use. *)
Lemma slot_fresh (DS done rest : list Z) (d : Z) :
  DS = done ++ d :: rest →
  (below d DS + occ d done < length DS)%nat
  ∧ ∀ (b : Z) (k : nat), (k < occ b done)%nat →
      (below b DS + k)%nat ≠ (below d DS + occ d done)%nat.
Proof.
  intros ->.
  assert (∀ b, occ b (done ++ d :: rest) = occ b done + occ b (d :: rest))%nat
    as Hocc by (intros; apply occ_app).
  assert (occ d (d :: rest) ≥ 1)%nat as Hd.
  { change (d :: rest) with ([d] ++ rest). rewrite occ_app, occ_singleton.
    rewrite bool_decide_eq_true_2 by done. lia. }
  set (DS := done ++ d :: rest) in *.
  assert (∀ b, below b DS + occ b DS = below (b + 1) DS)%nat as Hs
    by (intros; by rewrite below_succ).
  split.
  - pose proof (below_le (d + 1) DS). pose proof (Hs d). pose proof (Hocc d). lia.
  - intros b k Hk.
    destruct (Z.lt_trichotomy b d) as [Hlt|[->|Hgt]].
    + pose proof (below_mono (b + 1) d DS). pose proof (Hs b).
      pose proof (Hocc b). lia.
    + lia.
    + pose proof (below_mono (d + 1) b DS). pose proof (Hs d).
      pose proof (Hocc d). lia.
Qed.

Lemma filled_snoc (DS data : list Z) (ps : list (Z * Z)) (rest : list Z)
    (d e : Z) :
  DS = ps.*1 ++ d :: rest →
  length data = length DS →
  filled DS data ps →
  filled DS (<[(below d DS + occ d ps.*1)%nat := e]> data) (ps ++ [(d, e)]).
Proof.
  intros HDS Hlen Hfilled b k x Hx.
  destruct (slot_fresh DS ps.*1 rest d HDS) as [Hin Hfresh].
  rewrite row_of_snoc in Hx.
  apply lookup_app_Some in Hx as [Hx|[Hk Hx]].
  - rewrite list_lookup_insert_ne; [by apply Hfilled|].
    intros E. apply (Hfresh b k); [|done].
    apply lookup_lt_Some in Hx. by rewrite length_row_of in Hx.
  - case_bool_decide as Hb; [subst b|by rewrite lookup_nil in Hx].
    apply list_lookup_singleton_Some in Hx as [Hk0 <-].
    rewrite length_row_of in Hk, Hk0.
    replace k with (occ d ps.*1) by lia.
    apply list_lookup_insert_eq. lia.
Qed.

(** The inner loop of the second pass writes the entity into the next
    free slot of each block of its closure. *)
Lemma fill_closure_Ok (n : nat) (DS : list Z) (ps0 : list (Z * Z))
    (cell_blocks closure rest : list Z) (e : Z) (data : list Z) :
  closure_ok (Z.of_nat n) cell_blocks closure →
  DS = ps0.*1 ++ selected cell_blocks closure ++ rest →
  Z.of_nat (length DS) ≤ int32_max →
  length data = length DS →
  filled DS data ps0 →
  ∃ data',
    fill_closure cell_blocks closure
      ((λ b : nat, Z.of_nat (below (Z.of_nat b) DS)) <$> seq 0 (S n)) e
      (data, tally n ps0.*1)
    = Ok (data', tally n (ps0.*1 ++ selected cell_blocks closure))
    ∧ length data' = length DS
    ∧ filled DS data' (ps0 ++ ((λ b, (b, e)) <$> selected cell_blocks closure)).
Proof.
  intros Hok HDS Hmax Hlen Hfilled. unfold fill_closure.
  set (sel := selected cell_blocks closure) in *.
  match goal with |- ∃ _, for_loop ?body 0 ?m ?s0 = _ ∧ _ =>
    destruct (for_loop_inv
      (λ j '(data', cursor),
         cursor = tally n (ps0.*1 ++ take j sel)
         ∧ length data' = length DS
         ∧ filled DS data' (ps0 ++ ((λ b, (b, e)) <$> take j sel)))
      body m 0%nat s0) as ([data' cursor] & Hloop & -> & Hlen' & Hfilled')
  end.
  - rewrite take_0, !app_nil_r. done.
  - intros j [dat cursor] Hj (-> & Hl & Hf).
    destruct (selected_lookup _ _ _ j Hok) as (cb & d & Hcb & Hpos & Hd & Hr & Hs);
      [lia|].
    fold sel in Hs.
    rewrite (vget_nat _ _ _ Hcb). cbn [mbind result_bind].
    assert (vget cell_blocks cb = Ok d) as -> by (by apply vget_Ok).
    cbn [mbind result_bind].
    set (ps := ps0 ++ ((λ b, (b, e)) <$> take j sel)) in *.
    assert (ps.*1 = ps0.*1 ++ take j sel) as Hps1
      by (unfold ps; by rewrite fmap_app, fst_pairs).
    rewrite <- Hps1.
    assert (DS = ps.*1 ++ d :: (drop (S j) sel ++ rest)) as HDS'.
    { rewrite Hps1, HDS, <- (take_drop_middle sel j d Hs) at 1.
      by rewrite <- !app_assoc. }
    destruct (slot_fresh DS ps.*1 _ d HDS') as [Hin _].
    assert (vget ((λ b : nat, Z.of_nat (below (Z.of_nat b) DS)) <$> seq 0 (S n)) d
            = Ok (Z.of_nat (below d DS))) as ->.
    { apply vget_Ok. split; [lia|].
      rewrite list_lookup_fmap, lookup_seq_lt by lia. simpl.
      by rewrite Z2Nat.id by lia. }
    cbn [mbind result_bind].
    assert (vget (tally n ps.*1) d = Ok (Z.of_nat (occ d ps.*1))) as ->.
    { apply vget_Ok. split; [lia|]. rewrite tally_lookup by lia.
      by rewrite Z2Nat.id by lia. }
    cbn [mbind result_bind].
    rewrite !wrap32_small by (unfold int32_max in *; lia).
    rewrite (vset_Ok (tally n ps.*1)) by (rewrite length_tally; lia).
    cbn [mbind result_bind].
    rewrite vset_Ok by lia. cbn [mbind result_bind].
    eexists. split; [reflexivity|].
    rewrite tally_bump by lia. rewrite (take_S_r _ _ _ Hs).
    split; [by rewrite Hps1, app_assoc|].
    split; [by rewrite length_insert|].
    rewrite fmap_app, app_assoc. fold ps.
    replace (Z.to_nat (Z.of_nat (below d DS) + Z.of_nat (occ d ps.*1)))
      with (below d DS + occ d ps.*1)%nat by lia.
    by eapply filled_snoc.
  - exists data'. rewrite Hloop.
    assert (take (0 + length closure) sel = sel) as E.
    { apply take_ge. unfold sel, selected. rewrite length_fmap. lia. }
    rewrite E in *. done.
Qed.

Lemma first_pass_inv_end (V : FunctionSpace) (dim : Z) (entities : list Z)
    (p : pass1) :
  first_pass_inv V dim entities (length entities) p →
  num_facets_per_dof p
    = tally (Z.to_nat (dof_count V)) (incidences V dim entities).*1
  ∧ local_indices p = local_entity V dim <$> entities
  ∧ cells p = the_cell V dim <$> entities.
Proof.
  intros (Hc & Hl & Hcells). rewrite take_ge in Hc, Hl, Hcells by done.
  rewrite Nat.sub_diag, app_nil_r in Hl, Hcells. done.
Qed.

Lemma second_pass_Ok (V : FunctionSpace) (dim : Z) (entities : list Z)
    (p : pass1) :
  0 ≤ dof_count V →
  Forall (entity_ok V dim) entities →
  first_pass_inv V dim entities (length entities) p →
  Z.of_nat (length (incidences V dim entities)) ≤ int32_max →
  let DS := (incidences V dim entities).*1 in
  let n := Z.to_nat (dof_count V) in
  ∃ data cursor,
    second_pass V dim entities p
      ((λ b : nat, Z.of_nat (below (Z.of_nat b) DS)) <$> seq 0 (S n))
      (replicate (length DS) 0) (replicate n 0)
    = Ok (data, cursor)
    ∧ length data = length DS
    ∧ filled DS data (incidences V dim entities).
Proof.
  intros Hn Hok Hp Hmax DS n.
  apply first_pass_inv_end in Hp as (_ & Hli & Hcells).
  unfold second_pass.
  match goal with |- ∃ _ _, for_loop ?body 0 ?m ?s0 = _ ∧ _ =>
    destruct (for_loop_inv
      (λ i '(data, cursor),
         cursor = tally n (incidences V dim (take i entities)).*1
         ∧ length data = length DS
         ∧ filled DS data (incidences V dim (take i entities)))
      body m 0%nat s0) as ([data cursor] & Hloop & _ & Hlen & Hfilled)
  end.
  - rewrite take_0. split; [by rewrite tally_nil|].
    split; [by rewrite length_replicate|].
    intros b k x Hx. change (row_of b (incidences V dim [])) with (@nil Z) in Hx.
    by rewrite lookup_nil in Hx.
  - intros i [data cursor] Hi (-> & Hlen & Hfilled).
    destruct (lookup_lt_is_Some_2 entities i) as [e He]; [lia|].
    assert (entity_ok V dim e) as Hoke by (by eapply Forall_lookup_1).
    rewrite (vget_nat (cells p) i (the_cell V dim e))
      by (by rewrite Hcells, list_lookup_fmap, He).
    cbn [mbind result_bind].
    rewrite (vget_nat (local_indices p) i (local_entity V dim e))
      by (by rewrite Hli, list_lookup_fmap, He).
    cbn [mbind result_bind].
    rewrite (vget_nat _ _ _ He). cbn [mbind result_bind].
    fold (closure_blocks V dim e).
    destruct (fill_closure_Ok n DS (incidences V dim (take i entities))
                (cell_dofs (dofmap V) (the_cell V dim e))
                (closure_blocks V dim e)
                (incidences V dim (drop (S i) entities)).*1 e data)
      as (data' & Hfill & Hlen' & Hfilled').
    + unfold n. rewrite Z2Nat.id by done. apply Hoke.
    + unfold DS. rewrite <- (take_drop_middle entities i e He) at 1.
      change (e :: drop (S i) entities) with ([e] ++ drop (S i) entities).
      rewrite !incidences_app, !fmap_app. f_equal. f_equal.
      unfold incidences at 1. by rewrite bind_singleton, fst_pairs.
    + unfold DS. by rewrite length_fmap.
    + done.
    + done.
    + eexists. split; [exact Hfill|].
      rewrite (take_S_r _ _ _ He), incidences_snoc, fmap_app, fst_pairs.
      done.
  - exists data, cursor. rewrite Hloop. rewrite take_ge in Hfilled by done. done.
Qed.

(** *** Rows of the finished map *)

Lemma filled_row (DS data : list Z) (ps : list (Z * Z)) (b : Z) :
  ps.*1 = DS →
  filled DS data ps →
  take (occ b DS) (drop (below b DS) data) = row_of b ps.
Proof.
  intros HDS Hfilled. apply list_eq. intros k.
  destruct (decide (k < occ b DS)%nat) as [Hk|Hk].
  - rewrite lookup_take_lt, lookup_drop by done.
    destruct (lookup_lt_is_Some_2 (row_of b ps) k) as [x Hx].
    { by rewrite length_row_of, HDS. }
    rewrite Hx. by apply Hfilled.
  - rewrite lookup_take_ge by lia. symmetry. apply lookup_ge_None_2.
    rewrite length_row_of, HDS. lia.
Qed.

Lemma count_row_of (b e : Z) (ps : list (Z * Z)) :
  length (filter (λ x, x = e) (row_of b ps))
  = length (filter (λ p, p = (b, e)) ps).
Proof.
  unfold row_of. induction ps as [|[d x] ps IH]; [done|].
  rewrite !filter_cons. simpl.
  destruct (decide (d = b)) as [->|Hne].
  - rewrite fmap_cons, filter_cons. simpl.
    destruct (decide (x = e)) as [->|Hx].
    + rewrite decide_True by done. simpl. by rewrite IH.
    + rewrite decide_False by congruence. done.
  - rewrite decide_False by congruence. done.
Qed.

(** C5. For entities that satisfy the precondition (one incident cell
    listing the entity, closure indices selecting dof blocks of the index
    map) and counts that fit [int32], the two-pass construction returns
    an adjacency list with one row per dof block; its data length is the
    sum over the input entities of the number of closure dof blocks; the
    row of each block lists, in enumeration order, the entities of the
    incidences on that block, so every (block, entity) incidence occurs in
    the row exactly as often as the direct enumeration yields it. *)
Theorem block_to_facet_map_is_csr (V : FunctionSpace) (dim : Z)
    (entities : list Z)
    (Hdofs : 0 ≤ dof_count V < int32_max)
    (Hok : Forall (entity_ok V dim) entities)
    (Hmax : Z.of_nat (length (incidences V dim entities)) ≤ int32_max) :
  ∃ adj, create_block_to_facet_map V dim entities = Ok adj
    ∧ num_nodes adj = dof_count V
    ∧ length (array adj)
      = sum_list ((λ e, length (closure_blocks V dim e)) <$> entities)
    ∧ ∀ b, 0 ≤ b < dof_count V →
        links adj b = Ok (row_of b (incidences V dim entities))
        ∧ ∀ e, length (filter (λ x, x = e) (row_of b (incidences V dim entities)))
               = length (filter (λ p, p = (b, e)) (incidences V dim entities)).
Proof.
  set (n := Z.to_nat (dof_count V)).
  set (DS := (incidences V dim entities).*1).
  assert (Forall (λ d, 0 ≤ d < dof_count V) DS) as Hrange
    by (by apply incidences_range).
  assert (length DS = length (incidences V dim entities)) as HlenDS
    by (unfold DS; by rewrite length_fmap).
  unfold create_block_to_facet_map. fold (dof_count V).
  destruct (first_pass_Ok V dim entities) as (p & -> & Hp);
    [unfold int32_max in *; lia | done | done |].
  cbn [mbind result_bind].
  destruct (first_pass_inv_end _ _ _ _ Hp) as (Hcnt & _ & _).
  rewrite (wrap32_small (dof_count V)) by (unfold int32_max in *; lia).
  rewrite wrap32_small by (unfold int32_max in *; lia).
  rewrite vector_new_Ok by lia. cbn [mbind result_bind].
  rewrite vset_Ok by (rewrite length_replicate; lia).
  cbn [mbind result_bind].
  replace (Z.to_nat (dof_count V + 1)) with (S n) by lia.
  cbn [replicate Z.to_nat]. rewrite list_insert_id by done.
  cbn [take app]. rewrite take_0. cbn [app].
  rewrite Hcnt. fold n DS.
  rewrite (partial_sum_tally n DS); [|lia|].
  2:{ eapply Forall_impl; [exact Hrange|]. simpl. lia. }
  rewrite length_fmap, length_seq, length_tally.
  assert (vget ((λ b : nat, Z.of_nat (below (Z.of_nat b) DS)) <$> seq 0 (S n))
               (Z.of_nat (S n) - 1) = Ok (Z.of_nat (length DS))) as ->.
  { apply vget_Ok. split; [lia|].
    replace (Z.to_nat (Z.of_nat (S n) - 1)) with n by lia.
    rewrite list_lookup_fmap, lookup_seq_lt by lia. simpl. f_equal. f_equal.
    apply below_all. eapply Forall_impl; [exact Hrange|]. simpl. lia. }
  cbn [mbind result_bind].
  rewrite vector_new_Ok by lia. cbn [mbind result_bind]. rewrite Nat2Z.id.
  destruct (second_pass_Ok V dim entities p) as (data & cursor & Hsp & Hlen & Hfilled);
    [lia | done | done | done |].
  fold DS n in Hsp, Hlen, Hfilled. rewrite Hsp. cbn [mbind result_bind].
  eexists. split; [reflexivity|]. cbn [array offsets].
  split; [|split].
  - unfold num_nodes. cbn [offsets]. rewrite length_fmap, length_seq. lia.
  - by rewrite Hlen, HlenDS, length_incidences.
  - intros b Hb. split; [|intros e; apply count_row_of].
    rewrite (links_Ok _ b (Z.of_nat (below b DS)) (Z.of_nat (below (b + 1) DS))).
    + cbn [array]. f_equal. rewrite below_succ.
      replace (Z.to_nat (_ - _)) with (occ b DS) by lia.
      rewrite Nat2Z.id. by apply filled_row.
    + lia.
    + cbn [offsets]. rewrite list_lookup_fmap, lookup_seq_lt by lia. simpl.
      by rewrite Z2Nat.id by lia.
    + cbn [offsets]. rewrite list_lookup_fmap, lookup_seq_lt by lia. simpl.
      f_equal. f_equal. f_equal. lia.
Qed.

Lemma example_entities_ok :
  Forall (entity_ok example_space 1) [0; 1; 3; 4; 0].
Proof.
  repeat constructor; try (vm_compute; set_solver);
    try (vm_compute; congruence); try (eexists; split; [reflexivity|vm_compute; split; congruence]).
Qed.

Lemma block_to_facet_map_is_csr_witness :
  ∃ adj, create_block_to_facet_map example_space 1 [0; 1; 3; 4; 0] = Ok adj
    ∧ num_nodes adj = dof_count example_space
    ∧ length (array adj)
      = sum_list ((λ e, length (closure_blocks example_space 1 e))
                    <$> [0; 1; 3; 4; 0])
    ∧ ∀ b, 0 ≤ b < dof_count example_space →
        links adj b
          = Ok (row_of b (incidences example_space 1 [0; 1; 3; 4; 0]))
        ∧ ∀ e, length (filter (λ x, x = e)
                         (row_of b (incidences example_space 1 [0; 1; 3; 4; 0])))
               = length (filter (λ p, p = (b, e))
                           (incidences example_space 1 [0; 1; 3; 4; 0])).
Proof.
  apply (block_to_facet_map_is_csr example_space 1 [0; 1; 3; 4; 0]).
  - vm_compute. split; congruence.
  - exact example_entities_ok.
  - vm_compute. congruence.
Defined.

(** *** The assertion on the number of incident cells *)

Lemma count_closure_Err (cell_blocks closure counts : list Z) (e : failure) :
  count_closure cell_blocks closure counts = Err e → e = out_of_range.
Proof.
  unfold count_closure. apply (for_loop_Err (λ e, e = out_of_range)). clear.
  intros j counts e _ [H | (cb & _ & [H | (d & _ & [H | (c & _ & H)]%bind_Err)]%bind_Err)]%bind_Err.
  - by eapply vget_Err.
  - by eapply vget_Err.
  - by eapply vget_Err.
  - by eapply vset_Err.
Qed.

Lemma fill_closure_Err (cell_blocks closure offs : list Z) (entity : Z)
    (st : list Z * list Z) (e : failure) :
  fill_closure cell_blocks closure offs entity st = Err e → e = out_of_range.
Proof.
  unfold fill_closure. apply (for_loop_Err (λ e, e = out_of_range)). clear.
  intros j [data cursor] e _ H. cbv beta iota in H.
  repeat (apply bind_Err in H as [H | (? & _ & H)];
          [first [by eapply vget_Err | by eapply vset_Err]|]).
  done.
Qed.

Lemma second_pass_Err (V : FunctionSpace) (dim : Z) (entities : list Z)
    (p : pass1) (offs data cursor : list Z) (e : failure) :
  second_pass V dim entities p offs data cursor = Err e → e = out_of_range.
Proof.
  unfold second_pass. apply (for_loop_Err (λ e, e = out_of_range)). clear.
  intros i st e _ H.
  repeat (apply bind_Err in H as [H | (? & _ & H)]; [by eapply vget_Err|]).
  by eapply fill_closure_Err.
Qed.

(** An iteration of the first pass on an entity with exactly one incident
    cell does not raise the cell-size assertion. *)
Lemma first_pass_body_Err (V : FunctionSpace) (dim : Z) (entities : list Z)
    (i : nat) (st : pass1) (e0 : Z) (e : failure) :
  entities !! i = Some e0 →
  length (incident_cells V dim e0) = 1%nat →
  first_pass_body V dim entities i st = Err e →
  other_failure e.
Proof.
  intros He Hone. unfold first_pass_body, other_failure.
  rewrite (vget_nat _ _ _ He). cbn [mbind result_bind].
  intros [H | (cell & Hcell & H)]%bind_Err; [left; by eapply links_Err|].
  rewrite <- (row_links _ _ _ Hcell) in H. fold (incident_cells V dim e0) in H.
  rewrite bool_decide_eq_true_2 in H by done. cbn [assert mbind result_bind] in H.
  apply bind_Err in H as [H | (c & _ & H)]; [left; by eapply vget_Err|].
  apply bind_Err in H as [H | (cells' & _ & H)]; [left; by eapply vset_Err|].
  apply bind_Err in H as [H | (ents & _ & H)]; [left; by eapply links_Err|].
  apply bind_Err in H as [H | (? & _ & H)].
  { right; right. unfold assert in H. by destruct (bool_decide _); [|injection H as <-]. }
  apply bind_Err in H as [H | (li' & _ & H)]; [left; by eapply vset_Err|].
  apply bind_Err in H as [H | (? & _ & H)]; [left; by eapply count_closure_Err|].
  done.
Qed.

Lemma create_block_to_facet_map_Err (V : FunctionSpace) (dim : Z)
    (entities : list Z) (e : failure) :
  Forall (λ e0, length (incident_cells V dim e0) = 1%nat) entities →
  create_block_to_facet_map V dim entities = Err e →
  other_failure e.
Proof.
  intros Hone. unfold create_block_to_facet_map.
  intros [H | (p & _ & H)]%bind_Err.
  - unfold first_pass in H.
    apply bind_Err in H as [H | (counts0 & _ & H)];
      [right; left; by eapply vector_new_Err|].
    revert H. apply (for_loop_Err other_failure).
    intros i st e' Hi Hbody.
    destruct (lookup_lt_is_Some_2 entities i) as [e0 He0]; [lia|].
    eapply first_pass_body_Err; [exact He0 | | exact Hbody].
    by eapply (Forall_lookup_1 _ _ _ _ Hone).
  - apply bind_Err in H as [H | (offs0 & _ & H)];
      [right; left; by eapply vector_new_Err|].
    apply bind_Err in H as [H | (offs1 & _ & H)]; [left; by eapply vset_Err|].
    apply bind_Err in H as [H | (back & _ & H)]; [left; by eapply vget_Err|].
    apply bind_Err in H as [H | (data0 & _ & H)];
      [right; left; by eapply vector_new_Err|].
    apply bind_Err in H as [H | ([data cursor] & _ & H)]; [|done].
    left. by eapply second_pass_Err.
Qed.

(** A first pass that returns has stored the one incident cell of every
    entity. *)
Lemma first_pass_cells (V : FunctionSpace) (dim : Z) (entities : list Z)
    (num_dofs : Z) (p : pass1) :
  first_pass V dim entities num_dofs = Ok p →
  cells p = the_cell V dim <$> entities
  ∧ Forall (λ e, incident_cells V dim e = [the_cell V dim e]) entities.
Proof.
  unfold first_pass. intros (counts0 & _ & Hloop)%bind_Ok.
  apply (for_loop_Ok_inv
    (λ i st, cells st = (the_cell V dim <$> take i entities)
                          ++ replicate (length entities - i) 0
             ∧ Forall (λ e, incident_cells V dim e = [the_cell V dim e])
                      (take i entities))) in Hloop.
  - simpl in Hloop. rewrite take_ge, Nat.sub_diag, app_nil_r in Hloop by done.
    done.
  - simpl. by rewrite Nat.sub_0_r.
  - intros i st st' Hi [Hcells Hall] Hbody.
    unfold first_pass_body in Hbody.
    apply bind_Ok in Hbody as (e & [_ He]%vget_Ok & Hbody).
    rewrite Nat2Z.id in He.
    apply bind_Ok in Hbody as (cell & Hcell & Hbody).
    apply bind_Ok in Hbody as (? & Hone%assert_Ok%bool_decide_eq_true & Hbody).
    apply bind_Ok in Hbody as (c & [_ Hc]%vget_Ok & Hbody).
    apply bind_Ok in Hbody as (cells' & [_ ->]%vset_Ok_inv & Hbody).
    apply bind_Ok in Hbody as (ents & _ & Hbody).
    apply bind_Ok in Hbody as (? & _ & Hbody).
    apply bind_Ok in Hbody as (li' & _ & Hbody).
    apply bind_Ok in Hbody as (counts' & _ & [= <-]).
    cbn [cells].
    assert (incident_cells V dim e = [the_cell V dim e] ∧ the_cell V dim e = c)
      as [Hinc Hthe].
    { unfold the_cell, incident_cells. rewrite (row_links _ _ _ Hcell).
      destruct cell as [|c' [|? ?]]; try done. simpl in *. by injection Hc as ->. }
    rewrite (take_S_r _ _ _ He), fmap_app. split.
    + rewrite Hcells, Nat2Z.id, <- Hthe.
      apply insert_fill; [|lia]. rewrite length_fmap, length_take. lia.
    + apply Forall_app. split; [done|]. by constructor.
Qed.

(** The first pass aborts on the first entity with several incident
    cells. *)
Lemma first_pass_aborts (V : FunctionSpace) (dim : Z) (entities : list Z)
    (i : nat) (e : Z) (cell : list Z) :
  0 ≤ dof_count V ≤ int32_max →
  entities !! i = Some e →
  Forall (entity_ok V dim) (take i entities) →
  Z.of_nat (length (incidences V dim (take i entities))) ≤ int32_max →
  links (connectivity (topology (mesh V)) dim (topology_dim (topology (mesh V)))) e
    = Ok cell →
  (1 < length cell)%nat →
  first_pass V dim entities (wrap32 (dof_count V)) = Err one_cell_assertion.
Proof.
  intros Hn He Hok Hmax Hcell Hlen. unfold first_pass.
  rewrite wrap32_small by (unfold int32_max in *; lia).
  rewrite vector_new_Ok by lia. cbn [mbind result_bind].
  assert (i < length entities)%nat as Hi by (by eapply lookup_lt_Some).
  match goal with |- for_loop ?body 0 ?m ?s0 = _ =>
    destruct (for_loop_inv (first_pass_inv V dim entities) body i 0%nat s0)
      as (st & Hpre & _)
  end.
  - split; [|split]; cbn [num_facets_per_dof local_indices cells].
    + by rewrite take_0, tally_nil.
    + by rewrite take_0, Nat.sub_0_r.
    + by rewrite take_0, Nat.sub_0_r.
  - intros k st Hk Hinv.
    destruct (lookup_lt_is_Some_2 entities k) as [ek Hek]; [lia|].
    apply (first_pass_step V dim entities k ek); [lia | done | | | done].
    + eapply (Forall_lookup_1 _ _ k _ Hok). rewrite lookup_take_lt by lia. done.
    + replace (take (S k) entities) with (take (S k) (take i entities))
        by (rewrite take_take; f_equal; lia).
      pose proof (length_incidences_prefix V dim (take i entities) (S k)). lia.
  - eapply for_loop_fail; [exact Hi | exact Hpre |].
    unfold first_pass_body. cbn [Nat.add].
    rewrite (vget_nat _ _ _ He). cbn [mbind result_bind].
    rewrite Hcell. cbn [mbind result_bind].
    rewrite bool_decide_eq_false_2 by lia. done.
Qed.

(** C8. The construction aborts with the cell-size assertion at the first
    input entity that has more than one incident cell (the entities before
    it satisfying the precondition).  When every input entity has exactly
    one incident cell, that assertion is never raised, whatever else the
    call does; a first pass that returns has read, for every entity, its
    one incident cell; and under the full precondition the first pass
    does return. *)
Theorem one_incident_cell_assertion (V : FunctionSpace) (dim : Z)
    (entities : list Z) :
  (∀ (i : nat) (e : Z) (cell : list Z),
     0 ≤ dof_count V ≤ int32_max →
     entities !! i = Some e →
     Forall (entity_ok V dim) (take i entities) →
     Z.of_nat (length (incidences V dim (take i entities))) ≤ int32_max →
     links (connectivity (topology (mesh V)) dim
              (topology_dim (topology (mesh V)))) e = Ok cell →
     (1 < length cell)%nat →
     create_block_to_facet_map V dim entities = Err one_cell_assertion)
  ∧ (Forall (λ e, length (incident_cells V dim e) = 1%nat) entities →
     create_block_to_facet_map V dim entities ≠ Err one_cell_assertion
     ∧ (∀ e, create_block_to_facet_map V dim entities = Err e → other_failure e)
     ∧ ∀ p, first_pass V dim entities (wrap32 (dof_count V)) = Ok p →
         cells p = the_cell V dim <$> entities
         ∧ Forall (λ e, incident_cells V dim e = [the_cell V dim e]) entities)
  ∧ (0 ≤ dof_count V ≤ int32_max →
     Forall (entity_ok V dim) entities →
     Z.of_nat (length (incidences V dim entities)) ≤ int32_max →
     ∃ p, first_pass V dim entities (wrap32 (dof_count V)) = Ok p
       ∧ cells p = the_cell V dim <$> entities
       ∧ Forall (λ e, incident_cells V dim e = [the_cell V dim e]) entities).
Proof.
  split; [|split].
  - intros i e cell Hn He Hok Hmax Hcell Hlen.
    unfold create_block_to_facet_map. fold (dof_count V).
    by rewrite (first_pass_aborts V dim entities i e cell).
  - intros Hone. split; [|split].
    + intros H. apply create_block_to_facet_map_Err in H; [|done].
      by destruct H as [H|[H|H]].
    + intros e. by apply create_block_to_facet_map_Err.
    + intros p. apply first_pass_cells.
  - intros Hn Hok Hmax.
    destruct (first_pass_Ok V dim entities Hn Hok Hmax) as (p & Hp & _).
    exists p. split; [done|]. by eapply first_pass_cells.
Qed.

Lemma one_incident_cell_assertion_witness :
  create_block_to_facet_map example_space 1 [0; 2; 1] = Err one_cell_assertion
  ∧ create_block_to_facet_map example_space 1 [0; 1; 3; 4; 0]
    ≠ Err one_cell_assertion
  ∧ ∃ p, first_pass example_space 1 [0; 1; 3; 4; 0]
           (wrap32 (dof_count example_space)) = Ok p
      ∧ cells p = the_cell example_space 1 <$> [0; 1; 3; 4; 0]
      ∧ Forall (λ e, incident_cells example_space 1 e
                     = [the_cell example_space 1 e]) [0; 1; 3; 4; 0].
Proof.
  split; [|split].
  - apply (proj1 (one_incident_cell_assertion example_space 1 [0; 2; 1])
             1%nat 2 [0; 1]).
    + vm_compute. split; congruence.
    + reflexivity.
    + cbn [take]. constructor; [apply (Forall_inv example_entities_ok) | constructor].
    + vm_compute. congruence.
    + reflexivity.
    + simpl. lia.
  - apply (proj1 (proj2 (one_incident_cell_assertion example_space 1
                           [0; 1; 3; 4; 0]))).
    repeat constructor.
  - apply (proj2 (proj2 (one_incident_cell_assertion example_space 1
                           [0; 1; 3; 4; 0]))).
    + vm_compute. split; congruence.
    + exact example_entities_ok.
    + vm_compute. congruence.
Defined.

End csr_passes.

(** ** Rows of a two-pass CSR map *)

Section csr_rows.
Import BlockToFacet.

Lemma for_each_app {A St : Type} (body : A → St → result St)
    (xs ys : list A) (s : St) :
  for_each body (xs ++ ys) s = s' ← for_each body xs s; for_each body ys s'.
Proof.
  revert s. induction xs as [|x xs IH]; intros s; [done|].
  cbn [app for_each]. destruct (body x s) as [s1|e]; [|done].
  cbn [mbind result_bind]. apply IH.
Qed.

Lemma row_of_app (b : Z) (l k : list (Z * Z)) :
  row_of b (l ++ k) = row_of b l ++ row_of b k.
Proof. unfold row_of. by rewrite filter_app, fmap_app. Qed.

Lemma elem_of_row_of (b x : Z) (ps : list (Z * Z)) :
  x ∈ row_of b ps ↔ (b, x) ∈ ps.
Proof.
  unfold row_of. rewrite list_elem_of_fmap. split.
  - intros ([d y] & -> & [E Hin]%list_elem_of_filter). simpl in *. by subst.
  - intros Hin. exists (b, x). split; [done|].
    apply list_elem_of_filter. done.
Qed.

Lemma below_skip (b b' : Z) (ds : list Z) :
  b ≤ b' → (∀ d, d ∈ ds → ¬ b ≤ d < b') → below b ds = below b' ds.
Proof.
  intros Hle. unfold below. induction ds as [|d ds IH]; intros Hno; [done|].
  rewrite !filter_cons.
  assert (¬ b ≤ d < b') by (apply Hno; left).
  assert (length (filter (λ d, d < b) ds) = length (filter (λ d, d < b') ds))
    by (apply IH; intros d' Hd'; apply Hno; by right).
  repeat case_decide; simpl; lia.
Qed.

Lemma row_of_pairs (b e : Z) (bs : list Z) :
  row_of b ((λ b', (b', e)) <$> bs) = replicate (occ b bs) e.
Proof.
  unfold row_of, occ. induction bs as [|d bs IH]; [done|].
  rewrite fmap_cons, !filter_cons. cbn [fst].
  destruct (decide (d = b)); [|exact IH].
  rewrite fmap_cons. cbn [snd length replicate]. f_equal. exact IH.
Qed.

Lemma occ_zero (b : Z) (bs : list Z) : occ b bs = 0%nat ↔ b ∉ bs.
Proof.
  induction bs as [|d bs IH].
  - split; [intros _; apply not_elem_of_nil | done].
  - rewrite not_elem_of_cons.
    change (occ b (d :: bs)) with (occ b ([d] ++ bs)).
    rewrite occ_app, occ_singleton.
    case_bool_decide as E.
    + subst. split; [lia | intros [? _]; done].
    + rewrite <- IH. split; [intros; split; [congruence | lia] | intros [_ ?]; lia].
Qed.

Lemma occ_NoDup (b : Z) (bs : list Z) :
  NoDup bs → occ b bs = if decide (b ∈ bs) then 1%nat else 0%nat.
Proof.
  induction 1 as [|d bs Hd _ IH].
  - by rewrite decide_False by apply not_elem_of_nil.
  - change (d :: bs) with ([d] ++ bs). rewrite occ_app, occ_singleton, IH.
    case_bool_decide as E; [subst d|].
    + rewrite decide_False by done. rewrite decide_True by left. done.
    + destruct (decide (b ∈ bs)).
      * by rewrite decide_True by (by right).
      * rewrite decide_False; [done|].
        intros [?|?]%elem_of_cons; congruence.
Qed.

(** The rows and the data of a filled map. *)
Lemma csr_row (n : nat) (data : list Z) (ps : list (Z * Z)) (b : Z) :
  filled ps.*1 data ps →
  0 ≤ b < Z.of_nat n →
  links {| array := data;
           offsets := (λ b : nat, Z.of_nat (below (Z.of_nat b) ps.*1))
                        <$> seq 0 (S n) |} b
  = Ok (row_of b ps).
Proof.
  intros Hfilled Hb.
  rewrite (links_Ok _ b (Z.of_nat (below b ps.*1))
             (Z.of_nat (below (b + 1) ps.*1))).
  - cbn [array]. f_equal. rewrite below_succ.
    replace (Z.to_nat (_ - _)) with (occ b ps.*1) by lia.
    rewrite Nat2Z.id. by apply filled_row.
  - lia.
  - cbn [offsets]. rewrite list_lookup_fmap, lookup_seq_lt by lia. simpl.
    by rewrite Z2Nat.id by lia.
  - cbn [offsets]. rewrite list_lookup_fmap, lookup_seq_lt by lia. simpl.
    f_equal. f_equal. f_equal. lia.
Qed.

Lemma csr_data (n : nat) (data : list Z) (ps : list (Z * Z)) :
  filled ps.*1 data ps →
  length data = length ps →
  Forall (λ d, 0 ≤ d < Z.of_nat n) ps.*1 →
  data = concat ((λ b : nat, row_of (Z.of_nat b) ps) <$> seq 0 n).
Proof.
  intros Hfilled Hlen Hrange.
  assert (∀ k : nat,
            take (below (Z.of_nat k) ps.*1) data
            = concat ((λ b : nat, row_of (Z.of_nat b) ps) <$> seq 0 k)) as Hk.
  { induction k as [|k IH].
    - change (Z.of_nat 0) with 0. rewrite below_zero; [done|].
      eapply Forall_impl; [exact Hrange|]. simpl. lia.
    - rewrite concat_seq_S, <- IH.
      replace (Z.of_nat (S k)) with (Z.of_nat k + 1) by lia.
      rewrite below_succ, <- take_take_drop. f_equal.
      by apply filled_row. }
  rewrite <- (Hk n), below_all.
  - rewrite take_ge; [done|]. rewrite length_fmap. lia.
  - eapply Forall_impl; [exact Hrange|]. simpl. lia.
Qed.

End csr_rows.

(** ** Block-to-facet map: offsets, rows, and the second assertion *)

Section block_to_facet_rows.
Import BlockToFacet.

(** The result of the construction, with the data left abstract. *)
Lemma create_block_to_facet_map_Ok (V : FunctionSpace) (dim : Z)
    (entities : list Z) :
  0 ≤ dof_count V < int32_max →
  Forall (entity_ok V dim) entities →
  Z.of_nat (length (incidences V dim entities)) ≤ int32_max →
  let ps := incidences V dim entities in
  let n := Z.to_nat (dof_count V) in
  ∃ data,
    create_block_to_facet_map V dim entities
    = Ok {| array := data;
            offsets := (λ b : nat, Z.of_nat (below (Z.of_nat b) ps.*1))
                         <$> seq 0 (S n) |}
    ∧ length data = length ps
    ∧ filled ps.*1 data ps.
Proof.
  intros Hdofs Hok Hmax ps n. fold ps in Hmax.
  set (DS := ps.*1).
  assert (Forall (λ d, 0 ≤ d < dof_count V) DS) as Hrange
    by (by apply incidences_range).
  assert (length DS = length ps) as HlenDS
    by (unfold DS; by rewrite length_fmap).
  unfold create_block_to_facet_map. fold (dof_count V).
  destruct (first_pass_Ok V dim entities) as (p & -> & Hp);
    [unfold int32_max in *; lia | done | done |].
  cbn [mbind result_bind].
  destruct (first_pass_inv_end _ _ _ _ Hp) as (Hcnt & _ & _).
  rewrite (wrap32_small (dof_count V)) by (unfold int32_max in *; lia).
  rewrite wrap32_small by (unfold int32_max in *; lia).
  rewrite vector_new_Ok by lia. cbn [mbind result_bind].
  rewrite vset_Ok by (rewrite length_replicate; lia).
  cbn [mbind result_bind].
  replace (Z.to_nat (dof_count V + 1)) with (S n) by lia.
  cbn [replicate Z.to_nat]. rewrite list_insert_id by done.
  cbn [take app]. rewrite take_0. cbn [app].
  rewrite Hcnt. fold ps DS n.
  rewrite (partial_sum_tally n DS); [|lia|].
  2:{ eapply Forall_impl; [exact Hrange|]. simpl. lia. }
  rewrite length_fmap, length_seq, length_tally.
  assert (vget ((λ b : nat, Z.of_nat (below (Z.of_nat b) DS)) <$> seq 0 (S n))
               (Z.of_nat (S n) - 1) = Ok (Z.of_nat (length DS))) as ->.
  { apply vget_Ok. split; [lia|].
    replace (Z.to_nat (Z.of_nat (S n) - 1)) with n by lia.
    rewrite list_lookup_fmap, lookup_seq_lt by lia. simpl. f_equal. f_equal.
    apply below_all. eapply Forall_impl; [exact Hrange|]. simpl. lia. }
  cbn [mbind result_bind].
  rewrite vector_new_Ok by lia. cbn [mbind result_bind]. rewrite Nat2Z.id.
  destruct (second_pass_Ok V dim entities p) as (data & cursor & Hsp & Hlen & Hfilled);
    [lia | done | done | done |].
  fold ps DS n in Hsp, Hlen, Hfilled. rewrite Hsp. cbn [mbind result_bind].
  exists data. split; [done|]. split; [lia | done].
Qed.

(** The entities in the row of a block. *)
Lemma elem_of_row_of_incidences (V : FunctionSpace) (dim : Z)
    (entities : list Z) (b e : Z) :
  e ∈ row_of b (incidences V dim entities)
  ↔ e ∈ entities ∧ b ∈ entity_blocks V dim e.
Proof.
  rewrite elem_of_row_of. unfold incidences. rewrite list_elem_of_bind. split.
  - intros (e' & Hin & He'). apply list_elem_of_fmap in Hin as (b' & [= -> ->] & Hb).
    done.
  - intros [He Hb]. exists e. split; [|done]. apply list_elem_of_fmap. eauto.
Qed.

Lemma row_of_incidences_filter (V : FunctionSpace) (dim : Z)
    (entities : list Z) (b : Z) :
  (∀ e, e ∈ entities → NoDup (entity_blocks V dim e)) →
  row_of b (incidences V dim entities)
  = filter (λ e, b ∈ entity_blocks V dim e) entities.
Proof.
  induction entities as [|e es IH]; intros Hnd; [done|].
  change (e :: es) with ([e] ++ es).
  rewrite incidences_app, row_of_app, filter_app, IH
    by (intros; apply Hnd; by right).
  f_equal. unfold incidences. rewrite bind_singleton, row_of_pairs.
  rewrite occ_NoDup by (apply Hnd; left).
  rewrite filter_cons, filter_nil. by destruct (decide _).
Qed.

(** X1. The block-to-facet map is a well-formed CSR structure.  Under
    the precondition of the construction, the offsets have one entry more
    than there are dof blocks, start at 0, never decrease, and end at the
    length of the data; and the data is the rows of the blocks 0, 1, ...
    one after the other, each row in the order of the input entities. *)
Theorem block_to_facet_map_layout (V : FunctionSpace) (dim : Z)
    (entities : list Z)
    (Hdofs : 0 ≤ dof_count V < int32_max)
    (Hok : Forall (entity_ok V dim) entities)
    (Hmax : Z.of_nat (length (incidences V dim entities)) ≤ int32_max) :
  let n := Z.to_nat (dof_count V) in
  ∃ adj, create_block_to_facet_map V dim entities = Ok adj
    ∧ length (offsets adj) = S n
    ∧ offsets adj !! 0%nat = Some 0
    ∧ offsets adj !! n = Some (Z.of_nat (length (array adj)))
    ∧ (∀ (k : nat) a b, offsets adj !! k = Some a → offsets adj !! S k = Some b →
         a ≤ b)
    ∧ array adj
      = concat ((λ b : nat, row_of (Z.of_nat b) (incidences V dim entities))
                  <$> seq 0 n).
Proof.
  intros n.
  destruct (create_block_to_facet_map_Ok V dim entities Hdofs Hok Hmax)
    as (data & -> & Hlen & Hfilled).
  set (ps := incidences V dim entities) in *.
  assert (Forall (λ d, 0 ≤ d < dof_count V) ps.*1) as Hrange
    by (by apply incidences_range).
  eexists. split; [reflexivity|]. cbn [array offsets]. fold n.
  split; [by rewrite length_fmap, length_seq|].
  split; [|split; [|split]].
  - rewrite list_lookup_fmap, lookup_seq_lt by lia. simpl.
    change (Z.of_nat 0) with 0. rewrite below_zero; [done|].
    eapply Forall_impl; [exact Hrange|]. simpl. lia.
  - rewrite list_lookup_fmap, lookup_seq_lt by lia. simpl.
    rewrite below_all, length_fmap, Hlen; [done|].
    eapply Forall_impl; [exact Hrange|]. simpl. lia.
  - intros k a b Ha Hb.
    apply lookup_lt_Some in Hb as Hk. rewrite length_fmap, length_seq in Hk.
    rewrite list_lookup_fmap, lookup_seq_lt in Ha, Hb by lia.
    cbn [fmap option_fmap option_map Nat.add] in Ha, Hb.
    apply (inj Some) in Ha, Hb. subst a b.
    pose proof (below_mono (Z.of_nat k) (Z.of_nat (S k)) ps.*1 ltac:(lia)). lia.
  - apply csr_data; [done | done |].
    eapply Forall_impl; [exact Hrange|]. simpl. lia.
Qed.

(** X2. The entities of a row.  Under the precondition, the row of a dof
    block holds exactly the input entities whose closure selects the
    block: none for a block that no input entity touches.  When no
    closure selects a block twice, the row is the input list filtered to
    those entities, in input order, so a row has a duplicate only where
    the input list has one. *)
Theorem block_to_facet_map_rows (V : FunctionSpace) (dim : Z)
    (entities : list Z) (b : Z)
    (Hdofs : 0 ≤ dof_count V < int32_max)
    (Hok : Forall (entity_ok V dim) entities)
    (Hmax : Z.of_nat (length (incidences V dim entities)) ≤ int32_max)
    (Hb : 0 ≤ b < dof_count V) :
  ∃ adj rw, create_block_to_facet_map V dim entities = Ok adj
    ∧ links adj b = Ok rw
    ∧ (∀ e, e ∈ rw ↔ e ∈ entities ∧ b ∈ entity_blocks V dim e)
    ∧ ((∀ e, e ∈ entities → NoDup (entity_blocks V dim e)) →
       rw = filter (λ e, b ∈ entity_blocks V dim e) entities
       ∧ (NoDup entities → NoDup rw)).
Proof.
  destruct (create_block_to_facet_map_Ok V dim entities Hdofs Hok Hmax)
    as (data & -> & Hlen & Hfilled).
  eexists _, _. split; [reflexivity|].
  split; [apply csr_row; [done | lia]|].
  split; [intros e; apply elem_of_row_of_incidences|].
  intros Hnd. rewrite row_of_incidences_filter by done.
  split; [done|]. apply NoDup_filter.
Qed.

(** X3. No entities, no incidences.  For an empty entity list the call
    returns the map with an empty row for every dof block: no data, and
    offsets that are all zero. *)
Theorem block_to_facet_map_no_entities (V : FunctionSpace) (dim : Z)
    (Hdofs : 0 ≤ dof_count V < int32_max) :
  create_block_to_facet_map V dim []
  = Ok {| array := []; offsets := replicate (S (Z.to_nat (dof_count V))) 0 |}.
Proof.
  destruct (create_block_to_facet_map_Ok V dim [] Hdofs)
    as (data & -> & Hlen & _); [constructor | simpl; unfold int32_max; lia|].
  destruct data; [|done]. f_equal. f_equal.
  apply list_eq. intros k.
  destruct (decide (k < S (Z.to_nat (dof_count V)))%nat).
  - by rewrite list_lookup_fmap, lookup_seq_lt, lookup_replicate_2 by done.
  - rewrite !lookup_ge_None_2; [done | rewrite length_replicate; lia
                                | rewrite length_fmap, length_seq; lia].
Qed.

(** X4. The second assertion.  When the one incident cell of an input
    entity does not list the entity among its entities of that dimension
    (the entities before it satisfying the precondition), the call aborts
    with the assertion on the position found by [std::find]. *)
Theorem entity_not_listed_assertion (V : FunctionSpace) (dim : Z)
    (entities : list Z) (i : nat) (e c : Z) (ents : list Z)
    (Hn : 0 ≤ dof_count V ≤ int32_max)
    (He : entities !! i = Some e)
    (Hpre : Forall (entity_ok V dim) (take i entities))
    (Hmax : Z.of_nat (length (incidences V dim (take i entities))) ≤ int32_max)
    (Hcell : links (connectivity (topology (mesh V)) dim
                      (topology_dim (topology (mesh V)))) e = Ok [c])
    (Hents : links (connectivity (topology (mesh V))
                      (topology_dim (topology (mesh V))) dim) c = Ok ents)
    (Hnot : e ∉ ents) :
  create_block_to_facet_map V dim entities
  = Err (assertion_failed
           "it != (cell_entities.data() + cell_entities.size())").
Proof.
  unfold create_block_to_facet_map. fold (dof_count V).
  assert (first_pass V dim entities (wrap32 (dof_count V))
          = Err (assertion_failed
                   "it != (cell_entities.data() + cell_entities.size())"))
    as ->; [|done].
  unfold first_pass.
  rewrite wrap32_small by (unfold int32_max in *; lia).
  rewrite vector_new_Ok by lia. cbn [mbind result_bind].
  assert (i < length entities)%nat as Hi by (by eapply lookup_lt_Some).
  match goal with |- for_loop ?body 0 ?m ?s0 = _ =>
    destruct (for_loop_inv (first_pass_inv V dim entities) body i 0%nat s0)
      as (st & Hloop & (_ & _ & Hcells))
  end.
  - split; [|split]; cbn [num_facets_per_dof local_indices cells].
    + by rewrite take_0, tally_nil.
    + by rewrite take_0, Nat.sub_0_r.
    + by rewrite take_0, Nat.sub_0_r.
  - intros k st Hk Hinv.
    destruct (lookup_lt_is_Some_2 entities k) as [ek Hek]; [lia|].
    apply (first_pass_step V dim entities k ek); [lia | done | | | done].
    + eapply (Forall_lookup_1 _ _ k _ Hpre). rewrite lookup_take_lt by lia. done.
    + replace (take (S k) entities) with (take (S k) (take i entities))
        by (rewrite take_take; f_equal; lia).
      pose proof (length_incidences_prefix V dim (take i entities) (S k)). lia.
  - eapply for_loop_fail; [exact Hi | exact Hloop |].
    unfold first_pass_body. cbn [Nat.add].
    rewrite (vget_nat _ _ _ He). cbn [mbind result_bind].
    rewrite Hcell. cbn [mbind result_bind length].
    rewrite bool_decide_eq_true_2 by done. cbn [assert mbind result_bind].
    assert (vget [c] 0 = Ok c) as -> by reflexivity.
    cbn [mbind result_bind].
    rewrite vset_Ok.
    2:{ cbn [Nat.add] in Hcells.
        rewrite Hcells, length_app, length_fmap, length_replicate, length_take.
        lia. }
    cbn [mbind result_bind]. rewrite Hents. cbn [mbind result_bind].
    rewrite bool_decide_eq_false_2; [done|].
    intros Hfind. by apply std_find_found in Hfind.
Qed.

End block_to_facet_rows.

Section block_to_facet_rows_example.
Import BlockToFacet BlockToFacetExample.

Lemma block_to_facet_map_layout_witness :
  let n := Z.to_nat (dof_count example_space) in
  ∃ adj, create_block_to_facet_map example_space 1 [0; 1; 3; 4; 0] = Ok adj
    ∧ length (offsets adj) = S n
    ∧ offsets adj !! 0%nat = Some 0
    ∧ offsets adj !! n = Some (Z.of_nat (length (array adj)))
    ∧ (∀ (k : nat) a b, offsets adj !! k = Some a → offsets adj !! S k = Some b →
         a ≤ b)
    ∧ array adj
      = concat ((λ b : nat, row_of (Z.of_nat b)
                              (incidences example_space 1 [0; 1; 3; 4; 0]))
                  <$> seq 0 n).
Proof.
  apply (block_to_facet_map_layout example_space 1 [0; 1; 3; 4; 0]).
  - vm_compute. split; congruence.
  - exact example_entities_ok.
  - vm_compute. congruence.
Defined.

Lemma block_to_facet_map_rows_witness :
  ∃ adj rw, create_block_to_facet_map example_space 1 [0; 1; 3; 4; 0] = Ok adj
    ∧ links adj 2 = Ok rw
    ∧ (∀ e, e ∈ rw ↔ e ∈ [0; 1; 3; 4; 0] ∧ 2 ∈ entity_blocks example_space 1 e)
    ∧ ((∀ e, e ∈ [0; 1; 3; 4; 0] → NoDup (entity_blocks example_space 1 e)) →
       rw = filter (λ e, 2 ∈ entity_blocks example_space 1 e) [0; 1; 3; 4; 0]
       ∧ (NoDup [0; 1; 3; 4; 0] → NoDup rw)).
Proof.
  apply (block_to_facet_map_rows example_space 1 [0; 1; 3; 4; 0] 2).
  - vm_compute. split; congruence.
  - exact example_entities_ok.
  - vm_compute. congruence.
  - vm_compute. split; congruence.
Defined.

Lemma block_to_facet_map_no_entities_witness :
  create_block_to_facet_map example_space 1 []
  = Ok {| array := []; offsets := [0; 0; 0; 0; 0] |}.
Proof.
  apply (block_to_facet_map_no_entities example_space 1).
  vm_compute. split; congruence.
Defined.

Lemma entity_not_listed_assertion_witness :
  create_block_to_facet_map unlisted_space 1 [0]
  = Err (assertion_failed
           "it != (cell_entities.data() + cell_entities.size())").
Proof.
  apply (entity_not_listed_assertion unlisted_space 1 [0] 0 0 1 [2; 3; 4]).
  - vm_compute. split; congruence.
  - reflexivity.
  - constructor.
  - vm_compute. congruence.
  - reflexivity.
  - reflexivity.
  - rewrite !not_elem_of_cons. repeat split; [lia..|]. apply not_elem_of_nil.
Defined.

End block_to_facet_rows_example.

(** ** Block-to-cell map *)

Section block_to_cell.
Import BlockToFacet BlockToCell.

Variable topology_index_map : Topology → Z → IndexMap.

(** *** The incidences of the cells *)

Lemma cell_incidences_S (V : FunctionSpace) (m : nat) :
  cell_incidences V (S m)
  = cell_incidences V m
    ++ ((λ b, (b, Z.of_nat m)) <$> cell_dofs (dofmap V) (Z.of_nat m)).
Proof.
  unfold cell_incidences. by rewrite seq_S, bind_app, bind_singleton.
Qed.

Lemma cell_incidences_fst_S (V : FunctionSpace) (m : nat) :
  (cell_incidences V (S m)).*1
  = (cell_incidences V m).*1 ++ cell_dofs (dofmap V) (Z.of_nat m).
Proof. by rewrite cell_incidences_S, fmap_app, fst_pairs. Qed.

Lemma cell_incidences_split (V : FunctionSpace) (i m : nat) :
  (i < m)%nat →
  ∃ rest, (cell_incidences V m).*1
          = (cell_incidences V i).*1 ++ cell_dofs (dofmap V) (Z.of_nat i) ++ rest.
Proof.
  intros Hi. induction m as [|m IH]; [lia|].
  rewrite cell_incidences_fst_S.
  destruct (decide (i = m)) as [->|Hne].
  - exists []. by rewrite app_nil_r.
  - destruct IH as [rest ->]; [lia|].
    exists (rest ++ cell_dofs (dofmap V) (Z.of_nat m)).
    by rewrite <- !app_assoc.
Qed.

Lemma elem_of_cell_incidences (V : FunctionSpace) (m : nat) (b c : Z) :
  (b, c) ∈ cell_incidences V m
  ↔ ∃ i : nat, (i < m)%nat ∧ c = Z.of_nat i
               ∧ b ∈ cell_dofs (dofmap V) (Z.of_nat i).
Proof.
  unfold cell_incidences. rewrite list_elem_of_bind. split.
  - intros (i & Hin & Hi). apply elem_of_seq in Hi.
    apply list_elem_of_fmap in Hin as (b' & [= -> ->] & Hb).
    exists i. split; [lia | done].
  - intros (i & Hi & -> & Hb). exists i. split.
    + apply list_elem_of_fmap. eauto.
    + apply elem_of_seq. lia.
Qed.

Lemma elem_of_cell_blocks (V : FunctionSpace) (b : Z) :
  b ∈ (cell_incidences V (Z.to_nat (num_cells topology_index_map V))).*1
  ↔ ∃ c, in_cell topology_index_map V b c.
Proof.
  rewrite list_elem_of_fmap. unfold in_cell. split.
  - intros ([b' c] & -> & (i & Hi & -> & Hb)%elem_of_cell_incidences).
    exists (Z.of_nat i). split; [lia | done].
  - intros (c & Hc & Hb). exists (b, c). split; [done|].
    apply elem_of_cell_incidences. exists (Z.to_nat c).
    rewrite Z2Nat.id by lia. split; [lia | done].
Qed.

Lemma cell_blocks_range (V : FunctionSpace) :
  dofmap_ok topology_index_map V →
  Forall (λ d, 0 ≤ d < num_blocks V)
    (cell_incidences V (Z.to_nat (num_cells topology_index_map V))).*1.
Proof.
  intros (_ & _ & Hdofs & _). apply Forall_forall. intros b Hb.
  apply elem_of_cell_blocks in Hb as (c & Hc & Hb).
  by eapply (proj1 (Forall_forall _ _) (Hdofs c Hc)).
Qed.

(** The first entry of the row of a block is the cell with the least
    index among the cells that hold the block. *)
Lemma row_of_cells_head (V : FunctionSpace) (m : nat) (b c : Z) :
  row_of b (cell_incidences V m) !! 0%nat = Some c →
  ∃ i : nat, c = Z.of_nat i ∧ (i < m)%nat
    ∧ b ∈ cell_dofs (dofmap V) (Z.of_nat i)
    ∧ ∀ i' : nat, (i' < i)%nat → b ∉ cell_dofs (dofmap V) (Z.of_nat i').
Proof.
  induction m as [|m IH]; [done|].
  rewrite cell_incidences_S, row_of_app.
  destruct (row_of b (cell_incidences V m)) as [|x r] eqn:E.
  - cbn [app]. intros Hc. apply list_elem_of_lookup_2 in Hc.
    apply elem_of_row_of, list_elem_of_fmap in Hc as (b' & [= <- ->] & Hb).
    exists m. repeat split; [lia | done |].
    intros i' Hi' Hin.
    assert (Z.of_nat i' ∈ row_of b (cell_incidences V m)) as Hrow.
    { apply elem_of_row_of, elem_of_cell_incidences. by exists i'. }
    rewrite E in Hrow. by apply elem_of_nil in Hrow.
  - cbn [app lookup list_lookup]. intros Hc.
    destruct IH as (i & -> & Hi & Hb & Hleast); [done|].
    exists i. repeat split; [lia | done | done].
Qed.

Lemma least_cell_row (V : FunctionSpace) (b : Z) :
  0 ≤ num_cells topology_index_map V →
  (∃ c, in_cell topology_index_map V b c) →
  ∃ c, row_of b (cell_incidences V (Z.to_nat (num_cells topology_index_map V)))
         !! 0%nat = Some c
    ∧ least_cell topology_index_map V b c.
Proof.
  intros Hn Hin.
  set (ps := cell_incidences V (Z.to_nat (num_cells topology_index_map V))).
  destruct (row_of b ps) as [|c r] eqn:E.
  - exfalso. destruct Hin as (c & Hc & Hb).
    assert (c ∈ row_of b ps) as Hrow.
    { apply elem_of_row_of, elem_of_cell_incidences. exists (Z.to_nat c).
      rewrite Z2Nat.id by lia. split; [lia | done]. }
    rewrite E in Hrow. by apply elem_of_nil in Hrow.
  - exists c. split; [done|].
    destruct (row_of_cells_head V (Z.to_nat (num_cells topology_index_map V)) b c)
      as (i & -> & Hi & Hb & Hleast); [fold ps; by rewrite E|].
    split; [split; [lia | done]|].
    intros c' Hc'. specialize (Hleast (Z.to_nat c')).
    rewrite Z2Nat.id in Hleast by lia. apply Hleast. lia.
Qed.

(** *** The two passes *)

Lemma count_cell_Ok (n : nat) (dofs ds0 : list Z) :
  Forall (λ d, 0 ≤ d < Z.of_nat n) dofs →
  Z.of_nat (length ds0 + length dofs) ≤ int32_max →
  count_cell dofs (tally n ds0) = Ok (tally n (ds0 ++ dofs)).
Proof.
  unfold count_cell. intros Hr. revert ds0.
  induction Hr as [|d dofs Hd _ IH]; intros ds0 Hmax.
  - by rewrite app_nil_r.
  - cbn [for_each length] in *.
    assert (vget (tally n ds0) d = Ok (Z.of_nat (occ d ds0))) as ->.
    { apply vget_Ok. split; [lia|]. rewrite tally_lookup by lia.
      by rewrite Z2Nat.id by lia. }
    cbn [mbind result_bind].
    pose proof (occ_le d ds0).
    rewrite wrap32_small by (unfold int32_max in *; lia).
    rewrite vset_Ok by (rewrite length_tally; lia).
    cbn [mbind result_bind]. rewrite tally_bump by lia.
    rewrite IH by (rewrite length_app; simpl; lia).
    by rewrite <- app_assoc.
Qed.

Lemma fill_cell_Ok (n : nat) (DS dofs rest : list Z) (e : Z)
    (ps0 : list (Z * Z)) (data : list Z) :
  Forall (λ d, 0 ≤ d < Z.of_nat n) dofs →
  DS = ps0.*1 ++ dofs ++ rest →
  Z.of_nat (length DS) ≤ int32_max →
  length data = length DS →
  filled DS data ps0 →
  ∃ data',
    fill_cell dofs
      ((λ b : nat, Z.of_nat (below (Z.of_nat b) DS)) <$> seq 0 (S n)) e
      (data, tally n ps0.*1)
    = Ok (data', tally n (ps0.*1 ++ dofs))
    ∧ length data' = length DS
    ∧ filled DS data' (ps0 ++ ((λ b, (b, e)) <$> dofs)).
Proof.
  unfold fill_cell. intros Hr. revert ps0 data.
  induction Hr as [|d dofs Hd _ IH]; intros ps0 data HDS Hmax Hlen Hfilled.
  - exists data. by rewrite !app_nil_r.
  - cbn [for_each].
    destruct (slot_fresh DS ps0.*1 (dofs ++ rest) d HDS) as [Hin _].
    assert (vget ((λ b : nat, Z.of_nat (below (Z.of_nat b) DS)) <$> seq 0 (S n)) d
            = Ok (Z.of_nat (below d DS))) as ->.
    { apply vget_Ok. split; [lia|].
      rewrite list_lookup_fmap, lookup_seq_lt by lia. simpl.
      by rewrite Z2Nat.id by lia. }
    cbn [mbind result_bind].
    assert (vget (tally n ps0.*1) d = Ok (Z.of_nat (occ d ps0.*1))) as ->.
    { apply vget_Ok. split; [lia|]. rewrite tally_lookup by lia.
      by rewrite Z2Nat.id by lia. }
    cbn [mbind result_bind].
    rewrite !wrap32_small by (unfold int32_max in *; lia).
    rewrite (vset_Ok (tally n ps0.*1)) by (rewrite length_tally; lia).
    cbn [mbind result_bind].
    rewrite vset_Ok by lia. cbn [mbind result_bind].
    rewrite tally_bump by lia.
    replace (Z.to_nat (Z.of_nat (below d DS) + Z.of_nat (occ d ps0.*1)))
      with (below d DS + occ d ps0.*1)%nat by lia.
    destruct (IH (ps0 ++ [(d, e)])
                (<[(below d DS + occ d ps0.*1)%nat := e]> data))
      as (data' & Hfill & Hlen' & Hfilled').
    + rewrite fmap_app. cbn [fmap list_fmap fst]. rewrite HDS.
      by rewrite <- !app_assoc.
    + done.
    + by rewrite length_insert.
    + by eapply filled_snoc.
    + rewrite fmap_app in Hfill. cbn [fmap list_fmap fst] in Hfill.
      exists data'. rewrite Hfill. split; [|split; [done|]].
      * by rewrite <- app_assoc.
      * rewrite <- app_assoc in Hfilled'. exact Hfilled'.
Qed.

(** The map the two passes build, before the blocks are looked up. *)
Lemma block_to_cell_passes (V : FunctionSpace) :
  dofmap_ok topology_index_map V →
  let ps := cell_incidences V (Z.to_nat (num_cells topology_index_map V)) in
  let n := Z.to_nat (num_blocks V) in
  ∃ cell_map,
    length cell_map = length ps
    ∧ filled ps.*1 cell_map ps
    ∧ ∀ blocks,
        create_block_to_cell_map topology_index_map V blocks
        = (cells ← for_each (λ dof cells,
               o ← vget ((λ b : nat, Z.of_nat (below (Z.of_nat b) ps.*1))
                           <$> seq 0 (S n)) dof;
               c ← vget cell_map o;
               Ok (cells ++ [c]))
             blocks [];
           _ ← assert "cells.size() == blocks.size()"
                 (bool_decide (length cells = length blocks));
           Ok cells).
Proof.
  intros Hok ps n.
  pose proof (cell_blocks_range V Hok) as Hrange. fold ps in Hrange.
  destruct Hok as (Hn & Hc & Hdofs & Hmax). fold ps in Hmax.
  set (m := Z.to_nat (num_cells topology_index_map V)) in *.
  set (DS := ps.*1) in *.
  assert (length DS = length ps) as HlenDS by (unfold DS; by rewrite length_fmap).
  assert (∀ i, (i ≤ m)%nat →
            (length (cell_incidences V i).*1 ≤ length DS)%nat) as Hpre.
  { intros i Hi. destruct (decide (i = m)) as [->|Hne]; [done|].
    destruct (cell_incidences_split V i m) as [rest Hrest]; [lia|].
    unfold DS, ps. rewrite Hrest, !length_app. lia. }
  assert (∀ i, (i < m)%nat →
            Forall (λ d, 0 ≤ d < Z.of_nat n) (cell_dofs (dofmap V) (Z.of_nat i)))
    as Hdofs'.
  { intros i Hi. eapply Forall_impl; [apply Hdofs; lia|]. simpl. lia. }
  (* the first pass *)
  assert (for_loop (λ i num_cells_per_dof,
              count_cell (cell_dofs (dofmap V) (Z.of_nat i)) num_cells_per_dof)
            0 m (replicate n 0) = Ok (tally n DS)) as Hfirst.
  { match goal with |- for_loop ?body 0 m ?s0 = _ =>
      destruct (for_loop_inv
        (λ i cnt, cnt = tally n (cell_incidences V i).*1) body m 0%nat s0)
        as (cnt & -> & ->)
    end; [by rewrite tally_nil | | done].
    intros i cnt Hi ->. eexists. split; [|reflexivity].
    rewrite cell_incidences_fst_S. apply count_cell_Ok; [apply Hdofs'; lia|].
    specialize (Hpre (S i)). rewrite cell_incidences_fst_S, length_app in Hpre.
    lia. }
  (* the second pass *)
  assert (∃ cell_map,
            for_loop (λ i st,
                fill_cell (cell_dofs (dofmap V) (Z.of_nat i))
                  ((λ b : nat, Z.of_nat (below (Z.of_nat b) DS)) <$> seq 0 (S n))
                  (Z.of_nat i) st)
              0 m (replicate (length DS) 0, replicate n 0)
            = Ok (cell_map, tally n DS)
            ∧ length cell_map = length DS
            ∧ filled DS cell_map ps) as (cell_map & Hsecond & Hlen & Hfilled).
  { match goal with |- ∃ _, for_loop ?body 0 m ?s0 = _ ∧ _ =>
      destruct (for_loop_inv
        (λ i '(data, cursor),
           cursor = tally n (cell_incidences V i).*1
           ∧ length data = length DS
           ∧ filled DS data (cell_incidences V i))
        body m 0%nat s0) as ([data cursor] & Hloop & -> & Hlen & Hfilled)
    end.
    - split; [by rewrite tally_nil|]. split; [by rewrite length_replicate|].
      intros b k x Hx.
      change (row_of b (cell_incidences V 0)) with (@nil Z) in Hx.
      by rewrite lookup_nil in Hx.
    - intros i [data cursor] Hi (-> & Hlen & Hfilled).
      destruct (cell_incidences_split V i m) as [rest Hrest]; [lia|].
      destruct (fill_cell_Ok n DS (cell_dofs (dofmap V) (Z.of_nat i)) rest
                  (Z.of_nat i) (cell_incidences V i) data)
        as (data' & Hfill & Hlen' & Hfilled');
        [apply Hdofs'; lia | done | lia | done | done |].
      exists (data', tally n ((cell_incidences V i).*1
                              ++ cell_dofs (dofmap V) (Z.of_nat i))).
      split; [exact Hfill|]. rewrite cell_incidences_fst_S, cell_incidences_S.
      done.
    - exists data. by rewrite Hloop. }
  exists cell_map. split; [lia|]. split; [done|]. intros blocks.
  unfold create_block_to_cell_map.
  fold (num_blocks V). fold (num_cells topology_index_map V).
  rewrite vector_new_Ok by done. cbn [mbind result_bind]. fold n.
  rewrite wrap32_small by (unfold int32_max in *; lia). fold m.
  rewrite Hfirst. cbn [mbind result_bind].
  rewrite length_tally.
  rewrite vector_new_Ok by lia. cbn [mbind result_bind].
  replace (Z.to_nat (Z.of_nat n + 1)) with (S n) by lia.
  cbn [replicate take]. rewrite take_0. cbn [app].
  rewrite (partial_sum_tally n DS); [|lia|].
  2:{ eapply Forall_impl; [exact Hrange|]. simpl. lia. }
  rewrite length_fmap, length_seq.
  assert (vget ((λ b : nat, Z.of_nat (below (Z.of_nat b) DS)) <$> seq 0 (S n))
               (Z.of_nat (S n) - 1) = Ok (Z.of_nat (length DS))) as ->.
  { apply vget_Ok. split; [lia|].
    replace (Z.to_nat (Z.of_nat (S n) - 1)) with n by lia.
    rewrite list_lookup_fmap, lookup_seq_lt by lia. simpl. f_equal. f_equal.
    apply below_all. eapply Forall_impl; [exact Hrange|]. simpl. lia. }
  cbn [mbind result_bind].
  rewrite vector_new_Ok by lia. cbn [mbind result_bind]. rewrite Nat2Z.id.
  rewrite Hsecond. cbn [mbind result_bind]. done.
Qed.

(** The loop over the requested blocks. *)
Lemma lookup_blocks_Ok (disp cell_map blocks acc : list Z)
    (P : Z → Z → Prop) :
  Forall (λ b, ∃ o c, vget disp b = Ok o ∧ vget cell_map o = Ok c ∧ P b c)
         blocks →
  ∃ cells,
    for_each (λ dof cells,
        o ← vget disp dof; c ← vget cell_map o; Ok (cells ++ [c]))
      blocks acc = Ok (acc ++ cells)
    ∧ Forall2 P blocks cells.
Proof.
  intros Hall. revert acc.
  induction Hall as [|b blocks (o & c & Ho & Hc & HP) _ IH]; intros acc.
  - exists []. by rewrite app_nil_r.
  - cbn [for_each]. rewrite Ho. cbn [mbind result_bind].
    rewrite Hc. cbn [mbind result_bind].
    destruct (IH (acc ++ [c])) as (cells & -> & HF).
    exists (c :: cells). rewrite <- app_assoc. split; [done|].
    by constructor.
Qed.

(** What the lookup of one block reads. *)
Lemma lookup_block (V : FunctionSpace) (cell_map : list Z) (b b' : Z) :
  dofmap_ok topology_index_map V →
  let ps := cell_incidences V (Z.to_nat (num_cells topology_index_map V)) in
  let n := Z.to_nat (num_blocks V) in
  filled ps.*1 cell_map ps →
  0 ≤ b →
  next_block_in_a_cell topology_index_map V b b' →
  ∃ c,
    vget ((λ b : nat, Z.of_nat (below (Z.of_nat b) ps.*1)) <$> seq 0 (S n)) b
      = Ok (Z.of_nat (below b' ps.*1))
    ∧ vget cell_map (Z.of_nat (below b' ps.*1)) = Ok c
    ∧ least_cell topology_index_map V b' c.
Proof.
  intros Hok ps n Hfilled Hb (Hbb & Hnone & Hsome).
  destruct (least_cell_row V b') as (c & Hrow & Hleast);
    [apply Hok | done |]. fold ps in Hrow.
  exists c. split; [|split; [|done]].
  - apply vget_Ok. split; [lia|].
    rewrite list_lookup_fmap, lookup_seq_lt by lia. simpl.
    rewrite Z2Nat.id by lia. f_equal. f_equal.
    apply below_skip; [lia|].
    intros d Hd Hr. apply elem_of_cell_blocks in Hd as (c' & Hc').
    by apply (Hnone d c').
  - apply vget_Ok. split; [lia|]. rewrite Nat2Z.id.
    apply Hfilled in Hrow. by rewrite Nat.add_0_r in Hrow.
Qed.

(** X5. The block-to-cell map.  When the dof map is within the range of
    the counters and every requested block belongs to some cell, the
    call returns one cell per requested block, in the order of the
    blocks, and the cell returned for a block is the cell with the least
    index among the local and ghost cells that hold the block. *)
Theorem block_to_cell_map_least_cell (V : FunctionSpace) (blocks : list Z)
    (Hok : dofmap_ok topology_index_map V)
    (Hblocks : Forall (λ b, ∃ c, in_cell topology_index_map V b c) blocks) :
  ∃ cells, create_block_to_cell_map topology_index_map V blocks = Ok cells
    ∧ Forall2 (least_cell topology_index_map V) blocks cells.
Proof.
  destruct (block_to_cell_passes V Hok) as (cell_map & Hlen & Hfilled & ->).
  match goal with |- context [for_each ?body blocks []] =>
    destruct (lookup_blocks_Ok
      ((λ b : nat, Z.of_nat
          (below (Z.of_nat b)
             (cell_incidences V (Z.to_nat (num_cells topology_index_map V))).*1))
         <$> seq 0 (S (Z.to_nat (num_blocks V))))
      cell_map blocks [] (least_cell topology_index_map V))
      as (cells & Hloop & HF)
  end.
  - eapply Forall_impl; [exact Hblocks|]. intros b Hin. cbv beta in *.
    assert (0 ≤ b < num_blocks V) as Hb.
    { destruct Hin as (c & Hc & Hbc). destruct Hok as (_ & _ & Hdofs & _).
      by eapply (proj1 (Forall_forall _ _) (Hdofs c Hc)). }
    destruct (lookup_block V cell_map b b Hok Hfilled) as (c & ? & ? & ?);
      [lia | split; [lia | split; [intros; lia | done]] |].
    eauto.
  - rewrite Hloop. cbn [mbind result_bind app].
    rewrite bool_decide_eq_true_2 by (symmetry; by eapply Forall2_length).
    cbn [assert mbind result_bind]. eauto.
Qed.

(** X6. A block that no cell holds is not detected.  When every
    requested block is, or is followed by, a block that some cell holds,
    the call returns, and the cell given for a block [b] is the least
    cell of the first block from [b] on that some cell holds: for a
    block in no cell, that is a cell of another block, and it does not
    hold [b]. *)
Theorem block_to_cell_map_next_block (V : FunctionSpace) (blocks : list Z)
    (Hok : dofmap_ok topology_index_map V)
    (Hblocks : Forall (λ b, 0 ≤ b
                 ∧ ∃ b', next_block_in_a_cell topology_index_map V b b')
                 blocks) :
  ∃ cells, create_block_to_cell_map topology_index_map V blocks = Ok cells
    ∧ Forall2 (λ b c, ∃ b', next_block_in_a_cell topology_index_map V b b'
                            ∧ least_cell topology_index_map V b' c
                            ∧ ((∀ c', ¬ in_cell topology_index_map V b c') →
                               b < b' ∧ b ∉ cell_dofs (dofmap V) c))
              blocks cells.
Proof.
  destruct (block_to_cell_passes V Hok) as (cell_map & Hlen & Hfilled & ->).
  match goal with |- context [Forall2 ?P blocks _] =>
    destruct (lookup_blocks_Ok
      ((λ b : nat, Z.of_nat
          (below (Z.of_nat b)
             (cell_incidences V (Z.to_nat (num_cells topology_index_map V))).*1))
         <$> seq 0 (S (Z.to_nat (num_blocks V))))
      cell_map blocks [] P)
      as (cells & Hloop & HF)
  end.
  - eapply Forall_impl; [exact Hblocks|]. intros b (Hb & b' & Hnext).
    destruct (lookup_block V cell_map b b' Hok Hfilled Hb Hnext)
      as (c & Ho & Hc & Hleast).
    eexists _, c. split; [exact Ho|]. split; [exact Hc|].
    exists b'. split; [done|]. split; [done|].
    intros Hno. destruct Hnext as (Hbb & _ & c' & Hc').
    destruct Hleast as [[Hcr Hcin] _].
    split.
    + destruct (decide (b = b')) as [->|]; [by destruct (Hno c')|lia].
    + intros Hin. apply (Hno c). by split.
  - rewrite Hloop. cbn [mbind result_bind app].
    rewrite bool_decide_eq_true_2 by (symmetry; by eapply Forall2_length).
    cbn [assert mbind result_bind]. eauto.
Qed.

(** X7. Reading past the map.  A requested block that is negative, or
    from which on no block belongs to any cell (for one, any block when
    the mesh has no cell), makes the lookup leave [cell_dofs_disp] or
    [cell_map]: the call has no defined result (the failure
    [out_of_range] of the embedding), whatever the blocks after it
    are. *)
Theorem block_to_cell_map_out_of_range (V : FunctionSpace) (blocks : list Z)
    (k : nat) (b : Z)
    (Hok : dofmap_ok topology_index_map V)
    (Hk : blocks !! k = Some b)
    (Hpre : Forall (λ b, 0 ≤ b
              ∧ ∃ b', next_block_in_a_cell topology_index_map V b b')
              (take k blocks))
    (Hnone : b < 0 ∨ ∀ b'' c, b ≤ b'' → ¬ in_cell topology_index_map V b'' c) :
  create_block_to_cell_map topology_index_map V blocks = Err out_of_range.
Proof.
  destruct (block_to_cell_passes V Hok) as (cell_map & Hlen & Hfilled & ->).
  set (ps := cell_incidences V (Z.to_nat (num_cells topology_index_map V))) in *.
  set (n := Z.to_nat (num_blocks V)).
  rewrite <- (take_drop_middle blocks k b Hk), for_each_app.
  destruct (lookup_blocks_Ok
    ((λ b : nat, Z.of_nat (below (Z.of_nat b) ps.*1)) <$> seq 0 (S n))
    cell_map (take k blocks) [] (λ _ _, True)) as (cells & -> & _).
  { eapply Forall_impl; [exact Hpre|]. intros b0 (Hb0 & b' & Hnext).
    destruct (lookup_block V cell_map b0 b' Hok Hfilled Hb0 Hnext)
      as (c & Ho & Hc & _).
    eauto. }
  cbn [mbind result_bind for_each].
  destruct (vget _ b) as [o|e] eqn:Ho;
    [|apply vget_Err in Ho as ->; done].
  cbn [mbind result_bind].
  apply vget_Ok in Ho as [Hb Ho].
  destruct Hnone as [?|Hnone]; [lia|].
  apply lookup_lt_Some in Ho as Hlt. rewrite length_fmap, length_seq in Hlt.
  rewrite list_lookup_fmap, lookup_seq_lt in Ho by done. simpl in Ho.
  rewrite Z2Nat.id in Ho by done. injection Ho as <-.
  rewrite (below_all b ps.*1).
  - unfold vget. rewrite bool_decide_eq_true_2 by lia.
    rewrite lookup_ge_None_2; [done|]. rewrite length_fmap. lia.
  - apply Forall_forall. intros d Hd.
    apply elem_of_cell_blocks in Hd as (c & Hc).
    destruct (decide (d < b)); [done|]. destruct (Hnone d c); [lia | done].
Qed.

End block_to_cell.

Section block_to_cell_example.
Import BlockToCell.

Lemma example_cell_dofs (b c : Z) :
  in_cell example_cells example_space b c
  ↔ (c = 0 ∧ b ∈ [0; 1; 2]) ∨ (c = 1 ∧ b ∈ [1; 2; 3]) ∨ (c = 2 ∧ b ∈ [2; 3; 5]).
Proof.
  unfold in_cell, num_cells. cbn. split.
  - intros [Hc Hb].
    assert (c = 0 ∨ c = 1 ∨ c = 2) as [->|[->| ->]] by lia; auto.
  - intros [[-> ?]|[[-> ?]|[-> ?]]]; (split; [lia | done]).
Qed.

Lemma example_dofmap_ok : dofmap_ok example_cells example_space.
Proof.
  split; [vm_compute; congruence|]. split; [vm_compute; split; congruence|].
  split; [|vm_compute; congruence].
  intros c Hc. unfold num_cells in Hc. cbn in Hc. unfold num_blocks. cbn.
  assert (c = 0 ∨ c = 1 ∨ c = 2) as [->|[->| ->]] by lia;
    repeat constructor; lia.
Qed.

Lemma block_to_cell_map_least_cell_witness :
  ∃ cells,
    create_block_to_cell_map example_cells example_space [2; 0; 5; 3] = Ok cells
    ∧ Forall2 (least_cell example_cells example_space) [2; 0; 5; 3] cells.
Proof.
  apply (block_to_cell_map_least_cell example_cells example_space [2; 0; 5; 3]).
  - exact example_dofmap_ok.
  - repeat apply Forall_cons_2; [| | | |constructor].
    + exists 0. apply example_cell_dofs. left. split; [done | set_solver].
    + exists 0. apply example_cell_dofs. left. split; [done | set_solver].
    + exists 2. apply example_cell_dofs. right; right. split; [done | set_solver].
    + exists 1. apply example_cell_dofs. right; left. split; [done | set_solver].
Defined.

Lemma example_block_4 : next_block_in_a_cell example_cells example_space 4 5.
Proof.
  split; [vm_compute; repeat split; congruence|]. split.
  - intros b'' c Hb Hin. assert (b'' = 4) as -> by lia.
    apply example_cell_dofs in Hin. set_solver.
  - exists 2. apply example_cell_dofs. right; right. split; [done | set_solver].
Qed.

Lemma block_to_cell_map_next_block_witness :
  ∃ cells,
    create_block_to_cell_map example_cells example_space [4] = Ok cells
    ∧ Forall2 (λ b c, ∃ b', next_block_in_a_cell example_cells example_space b b'
                            ∧ least_cell example_cells example_space b' c
                            ∧ ((∀ c', ¬ in_cell example_cells example_space b c') →
                               b < b' ∧ b ∉ cell_dofs (dofmap example_space) c))
              [4] cells.
Proof.
  apply (block_to_cell_map_next_block example_cells example_space [4]).
  - exact example_dofmap_ok.
  - constructor; [|constructor]. split; [lia|]. exists 5. exact example_block_4.
Defined.

Lemma block_to_cell_map_out_of_range_witness :
  create_block_to_cell_map example_cells example_space [4; 6; 0]
  = Err out_of_range.
Proof.
  apply (block_to_cell_map_out_of_range example_cells example_space
           [4; 6; 0] 1 6).
  - exact example_dofmap_ok.
  - reflexivity.
  - constructor; [|constructor]. split; [lia|]. exists 5. exact example_block_4.
  - right. intros b'' c Hb Hin. apply example_cell_dofs in Hin.
    rewrite !elem_of_cons, !elem_of_nil in Hin. lia.
Defined.

End block_to_cell_example.

(** ** The entries of the sparsity pattern, and [create_matrix] *)

Section sparsity_entries.
Import Sparsity MatrixFactory.

(** The cells the populator works on are the rows of the cell-to-slave
    map that are not empty. *)
Lemma cells_with_slaves (mpc : MultiPointConstraint) (P : Z → list Z → Prop) :
  (∃ i : nat, (i < Z.to_nat (num_nodes (cell_to_slaves mpc)))%nat
     ∧ row (cell_to_slaves mpc) (Z.of_nat i) ≠ []
     ∧ P (Z.of_nat i) (row (cell_to_slaves mpc) (Z.of_nat i)))
  ↔ ∃ (i : Z) (slaves : list Z),
      links (cell_to_slaves mpc) i = Ok slaves ∧ slaves ≠ [] ∧ P i slaves.
Proof.
  split.
  - intros (i & Hi & Hne & HP).
    exists (Z.of_nat i), (row (cell_to_slaves mpc) (Z.of_nat i)).
    split; [by apply row_nonempty | done].
  - intros (i & slaves & Hl & Hne & HP).
    apply links_Ok_range in Hl as Hr. apply row_links in Hl as Hrow.
    exists (Z.to_nat i). rewrite Z2Nat.id by lia. rewrite Hrow.
    split; [lia | done].
Qed.

Lemma pattern_populator_extends (PI MI : inserter)
    (fP fM : list Z → list Z → list (Z * Z))
    (p p' : SparsityPattern) (mpc off : MultiPointConstraint) :
  appends PI fP → appends MI fM →
  pattern_populator p mpc off PI MI = Ok p' →
  ∀ e, e ∈ p → e ∈ p'.
Proof.
  intros HP HM H. unfold pattern_populator in H.
  apply (for_loop_Ok_inv (λ _ q, ∀ e, e ∈ p → e ∈ q) _ _ _ _ _ H); [done|].
  intros i q q' _ Hq Hbody. cbv beta in Hbody.
  apply bind_Ok in Hbody as (slaves & _ & Hbody).
  case_bool_decide; [by injection Hbody as <-|].
  apply bind_Ok in Hbody as (fm & _ & [= <-]).
  intros e He. apply (elem_of_insert_masters PI MI fP fM); auto.
Qed.

Lemma pattern_populator_unconstrained (PI MI : inserter)
    (p : SparsityPattern) (mpc off : MultiPointConstraint) :
  unconstrained mpc → pattern_populator p mpc off PI MI = Ok p.
Proof.
  intros Hno. unfold pattern_populator.
  match goal with |- for_loop ?body 0 ?n p = _ =>
    destruct (for_loop_inv (λ _ q, q = p) body n 0%nat p) as (q & -> & ->)
  end; [done | | done].
  intros i q Hi ->.
  destruct (links_in_range (cell_to_slaves mpc) (Z.of_nat i)) as [slaves Hs];
    [lia|].
  rewrite Hs. cbn [mbind result_bind].
  rewrite (Hno _ _ Hs). rewrite bool_decide_eq_true_2 by done. eauto.
Qed.

Lemma elem_of_row_populated (p : SparsityPattern)
    (mpc off : MultiPointConstraint) (r c : Z) :
  (r, c) ∈ foldl (cell_step row_inserter do_nothing_inserter mpc off) p
             (seq 0 (Z.to_nat (num_nodes (cell_to_slaves mpc))))
  ↔ (r, c) ∈ p ∨ master_dof_pair mpc off r c.
Proof.
  rewrite (elem_of_populated _ _ _ _ _ _ _ _ _ row_appends nothing_appends).
  apply or_iff_compat_l. unfold master_dof_pair.
  rewrite <- (cells_with_slaves mpc (λ i slaves,
    r ∈ flattened mpc slaves ∧ c ∈ cell_dofs (dofmap (function_space off)) i)).
  apply exist_proper; intros i. do 2 apply and_iff_compat_l.
  unfold cell_entry. split.
  - intros [(m & Hm & He)|(j & k & mj & mk & _ & _ & _ & []%elem_of_nil)].
    apply elem_of_list_prod_pair in He as [->%list_elem_of_singleton Hc]. done.
  - intros [Hr Hc]. left. exists r. split; [done|].
    apply elem_of_list_prod_pair. split; [by apply list_elem_of_singleton | done].
Qed.

Lemma elem_of_column_populated (p : SparsityPattern)
    (mpc off : MultiPointConstraint) (r c : Z) :
  (r, c) ∈ foldl (cell_step column_inserter do_nothing_inserter mpc off) p
             (seq 0 (Z.to_nat (num_nodes (cell_to_slaves mpc))))
  ↔ (r, c) ∈ p ∨ master_dof_pair mpc off c r.
Proof.
  rewrite (elem_of_populated _ _ _ _ _ _ _ _ _ column_appends nothing_appends).
  apply or_iff_compat_l. unfold master_dof_pair.
  rewrite <- (cells_with_slaves mpc (λ i slaves,
    c ∈ flattened mpc slaves ∧ r ∈ cell_dofs (dofmap (function_space off)) i)).
  apply exist_proper; intros i. do 2 apply and_iff_compat_l.
  unfold cell_entry. split.
  - intros [(m & Hm & He)|(j & k & mj & mk & _ & _ & _ & []%elem_of_nil)].
    apply elem_of_list_prod_pair in He as [Hr ->%list_elem_of_singleton]. done.
  - intros [Hc Hr]. left. exists c. split; [done|].
    apply elem_of_list_prod_pair. split; [done | by apply list_elem_of_singleton].
Qed.

Lemma cell_entry_square_swap (dofs fm : list Z) (r c : Z) :
  cell_entry (λ m s, list_prod m s ++ list_prod s m)
             (λ m s, list_prod m s ++ list_prod s m) dofs fm (r, c) →
  cell_entry (λ m s, list_prod m s ++ list_prod s m)
             (λ m s, list_prod m s ++ list_prod s m) dofs fm (c, r).
Proof.
  unfold cell_entry.
  intros [(m & Hm & He)|(j & k & mj & mk & Hjk & Hj & Hk & He)].
  - left. exists m. split; [done|].
    rewrite elem_of_app, !elem_of_list_prod_pair in *. tauto.
  - right. exists j, k, mj, mk. repeat split; [done..|].
    rewrite elem_of_app, !elem_of_list_prod_pair in *. tauto.
Qed.

(** X8. Whenever [create_sparsity_pattern] returns a pattern, whatever
    the two constraints are, the form has rank 2 and the pattern holds
    every entry of the standard pattern of the form: the constraint
    traversals only add entries. *)
Theorem sparsity_pattern_extends_standard
    (build : SparsityPattern → Form → SparsityPattern)
    (store : nat → MultiPointConstraint) (a : Form) (mpc0 mpc1 : nat)
    (pattern : SparsityPattern)
    (Hret : create_sparsity_pattern build store a mpc0 mpc1 = Ok pattern) :
  form_rank a = 2 ∧ ∀ e, e ∈ build [] a → e ∈ pattern.
Proof.
  unfold create_sparsity_pattern in Hret.
  case_bool_decide as Hr; [done|]. split; [lia|].
  case_bool_decide.
  - by apply (pattern_populator_extends _ _ _ _ _ _ _ _
                square_appends square_appends Hret).
  - unfold rectangular_path in Hret.
    apply bind_Ok in Hret as (p1 & H1 & H2).
    intros e He.
    apply (pattern_populator_extends _ _ _ _ _ _ _ _
             column_appends nothing_appends H2).
    by apply (pattern_populator_extends _ _ _ _ _ _ _ _
                row_appends nothing_appends H1).
Qed.

Lemma sparsity_pattern_extends_standard_witness :
  form_rank {| form_rank := 2 |} = 2
  ∧ ∀ e, e ∈ [(1, 1); (2, 0)]
         → e ∈ [(1, 1); (2, 0);
                (5, 0); (5, 1); (5, 2); (0, 5); (1, 5); (2, 5);
                (7, 5); (5, 7);
                (7, 0); (7, 1); (7, 2); (0, 7); (1, 7); (2, 7)].
Proof.
  apply (sparsity_pattern_extends_standard (λ p _, p ++ [(1, 1); (2, 0)])
           (λ _, example_mpc) {| form_rank := 2 |} 0%nat 0%nat).
  reflexivity.
Defined.

(** X9. The rectangular case.  For a form of rank 2 and two traversable
    constraints held by different pointers the call returns, and an
    entry [(r, c)] is in the pattern exactly when it is in the standard
    pattern, or [r] is a master block of [mpc0] met on a cell with slaves
    and [c] a dof block of that cell in the space of [mpc1], or [c] is
    such a master block of [mpc1] and [r] a dof block of the cell in the
    space of [mpc0].  The constraints add nothing else: no pair of two
    masters as such. *)
Theorem rectangular_pattern_entries
    (build : SparsityPattern → Form → SparsityPattern)
    (store : nat → MultiPointConstraint) (a : Form) (mpc0 mpc1 : nat)
    (Hrank : form_rank a = 2)
    (Hdiff : mpc0 ≠ mpc1)
    (Hwf0 : wf_mpc (store mpc0))
    (Hwf1 : wf_mpc (store mpc1)) :
  ∃ pattern, create_sparsity_pattern build store a mpc0 mpc1 = Ok pattern
    ∧ ∀ r c, (r, c) ∈ pattern
             ↔ (r, c) ∈ build [] a
               ∨ master_dof_pair (store mpc0) (store mpc1) r c
               ∨ master_dof_pair (store mpc1) (store mpc0) c r.
Proof.
  unfold create_sparsity_pattern.
  rewrite bool_decide_eq_false_2 by (intros ?; done).
  rewrite bool_decide_eq_false_2 by done.
  unfold rectangular_path.
  rewrite pattern_populator_Ok by done. cbn [mbind result_bind].
  rewrite pattern_populator_Ok by done.
  eexists. split; [reflexivity|]. intros r c.
  rewrite elem_of_column_populated, elem_of_row_populated. tauto.
Qed.

Lemma rectangular_pattern_entries_witness :
  ∃ pattern,
    create_sparsity_pattern (λ p _, p ++ [(1, 1)]) (λ _, example_mpc)
      {| form_rank := 2 |} 0%nat 1%nat = Ok pattern
    ∧ ∀ r c, (r, c) ∈ pattern
             ↔ (r, c) ∈ [(1, 1)]
               ∨ master_dof_pair example_mpc example_mpc r c
               ∨ master_dof_pair example_mpc example_mpc c r.
Proof.
  apply (rectangular_pattern_entries (λ p _, p ++ [(1, 1)]) (λ _, example_mpc)
           {| form_rank := 2 |} 0%nat 1%nat).
  - reflexivity.
  - discriminate.
  - split; [reflexivity|]. repeat constructor; vm_compute; congruence.
  - split; [reflexivity|]. repeat constructor; vm_compute; congruence.
Defined.

(** X10. The square case keeps symmetry.  For a form of rank 2 and a
    traversable constraint passed as both arguments, the call returns,
    and if the standard pattern holds the transpose of each of its
    entries, so does the returned pattern. *)
Theorem square_pattern_symmetric
    (build : SparsityPattern → Form → SparsityPattern)
    (store : nat → MultiPointConstraint) (a : Form) (mpc : nat)
    (Hrank : form_rank a = 2)
    (Hwf : wf_mpc (store mpc))
    (Hsym : symmetric (build [] a)) :
  ∃ pattern, create_sparsity_pattern build store a mpc mpc = Ok pattern
    ∧ symmetric pattern.
Proof.
  unfold create_sparsity_pattern.
  rewrite bool_decide_eq_false_2 by (intros ?; done).
  rewrite bool_decide_eq_true_2 by done.
  unfold square_path. rewrite pattern_populator_Ok by done.
  eexists. split; [reflexivity|]. intros r c.
  rewrite !(elem_of_populated _ _ _ _ _ _ _ _ _ square_appends square_appends).
  intros [?|(i & Hi & Hne & He)]; [left; by apply Hsym|].
  right. exists i. repeat split; [done..|]. by apply cell_entry_square_swap.
Qed.

Lemma square_pattern_symmetric_witness :
  ∃ pattern,
    create_sparsity_pattern (λ p _, p ++ [(1, 2); (2, 1)]) (λ _, example_mpc)
      {| form_rank := 2 |} 0%nat 0%nat = Ok pattern
    ∧ symmetric pattern.
Proof.
  apply (square_pattern_symmetric (λ p _, p ++ [(1, 2); (2, 1)])
           (λ _, example_mpc) {| form_rank := 2 |} 0%nat).
  - reflexivity.
  - split; [reflexivity|]. repeat constructor; vm_compute; congruence.
  - intros r c. cbn [app]. rewrite !elem_of_cons, !elem_of_nil.
    intros [[= -> ->]|[[= -> ->]|[]]]; auto.
Defined.

(** X11. Constraints without slaves change nothing.  For a form of rank 2,
    if no cell of either constraint has a slave, the call returns the
    standard pattern itself, on the square and on the rectangular path;
    the master lists and the block sizes are never read. *)
Theorem unconstrained_pattern_is_standard
    (build : SparsityPattern → Form → SparsityPattern)
    (store : nat → MultiPointConstraint) (a : Form) (mpc0 mpc1 : nat)
    (Hrank : form_rank a = 2)
    (Hno0 : unconstrained (store mpc0))
    (Hno1 : unconstrained (store mpc1)) :
  create_sparsity_pattern build store a mpc0 mpc1 = Ok (build [] a).
Proof.
  unfold create_sparsity_pattern.
  rewrite bool_decide_eq_false_2 by (intros ?; done).
  case_bool_decide.
  - by apply pattern_populator_unconstrained.
  - unfold rectangular_path.
    rewrite pattern_populator_unconstrained by done. cbn [mbind result_bind].
    by apply pattern_populator_unconstrained.
Qed.

Lemma unconstrained_pattern_is_standard_witness :
  create_sparsity_pattern (λ p _, p ++ [(1, 1)])
    (λ _, {| function_space := example_space;
             cell_to_slaves := {| array := []; offsets := [0; 0; 0] |};
             masters := {| array := [5]; offsets := [0; 1] |} |})
    {| form_rank := 2 |} 0%nat 1%nat
  = Ok [(1, 1)].
Proof.
  apply (unconstrained_pattern_is_standard (λ p _, p ++ [(1, 1)])
           (λ _, {| function_space := example_space;
                    cell_to_slaves := {| array := []; offsets := [0; 0; 0] |};
                    masters := {| array := [5]; offsets := [0; 1] |} |})
           {| form_rank := 2 |} 0%nat 1%nat).
  - reflexivity.
  - intros i slaves H. apply links_Ok_range in H as Hr.
    unfold num_nodes in Hr. cbn in Hr.
    assert (i = 0 ∨ i = 1) as [->| ->] by lia; by injection H as <-.
  - intros i slaves H. apply links_Ok_range in H as Hr.
    unfold num_nodes in Hr. cbn in Hr.
    assert (i = 0 ∨ i = 1) as [->| ->] by lia; by injection H as <-.
Defined.


End sparsity_entries.

(** ** The edge lists of the neighbourhood communicators *)

Section neighborhood_lists.
Import Neighborhood.

Lemma seq_sorted (a n : nat) : StronglySorted Nat.lt (seq a n).
Proof.
  revert a. induction n as [|n IH]; intros a; [constructor|].
  cbn [seq]. constructor; [apply IH|].
  apply Forall_forall. intros x Hx%elem_of_seq. unfold Nat.lt. lia.
Qed.

Lemma filter_sorted {A : Type} (R : relation A) (P : A → Prop)
    `{∀ x, Decision (P x)} (l : list A) :
  StronglySorted R l → StronglySorted R (filter P l).
Proof.
  induction 1 as [|x l Hl IH Hx]; [constructor|].
  rewrite filter_cons. case_decide; [|done].
  constructor; [done|]. apply Forall_forall. intros y Hy.
  apply list_elem_of_filter in Hy as [_ Hy].
  by eapply Forall_forall in Hx.
Qed.

(** X13. The two endpoints of an edge agree.  In the forward and in the
    reverse topology, rank [i] lists [j] among its destinations exactly
    when rank [j] lists [i] among its sources, for the arguments of all
    ranks: the adjacency handed to [MPI_Dist_graph_create_adjacent] is
    consistent across the ranks. *)
Theorem neighborhood_endpoints_agree (world : list rank_input) (i j : nat) :
  ((i, j) ∈ out_edges (forward world) ↔ (i, j) ∈ in_edges (forward world))
  ∧ ((i, j) ∈ out_edges (reverse world) ↔ (i, j) ∈ in_edges (reverse world)).
Proof.
  rewrite forward_out_edge, forward_in_edge, reverse_out_edge, reverse_in_edge.
  tauto.
Qed.

(** X14. The edge lists of one rank.  Whatever the arguments of the
    ranks, the source and the destination list that a rank computes are
    strictly increasing (so without duplicates), hold only ranks of the
    communicator, and never the rank itself; the reverse graph is the
    forward graph with the two lists exchanged; and in a run on one rank
    both lists are empty. *)
Theorem neighborhood_edge_lists (world : list rank_input) (rank : nat) :
  let fwd := (create_neighborhood_comms world rank).1 in
  let rev := (create_neighborhood_comms world rank).2 in
  StronglySorted Nat.lt (sources fwd)
  ∧ StronglySorted Nat.lt (destinations fwd)
  ∧ (∀ i, i ∈ sources fwd ∨ i ∈ destinations fwd →
          (i < length world)%nat ∧ i ≠ rank)
  ∧ rev = {| sources := destinations fwd; destinations := sources fwd |}
  ∧ ((length world ≤ 1)%nat → (rank < length world)%nat →
     sources fwd = [] ∧ destinations fwd = []).
Proof.
  intros fwd rev.
  assert (∀ i, i ∈ sources fwd ∨ i ∈ destinations fwd →
               (i < length world)%nat ∧ i ≠ rank) as Hmem.
  { intros i. unfold fwd. cbn [create_neighborhood_comms fst sources destinations].
    intros [Hi|Hi]; case_bool_decide; try (by apply elem_of_nil in Hi);
      apply list_elem_of_filter in Hi as [[Hne _] Hi%elem_of_seq]; (split; [lia | done]). }
  split; [|split; [|split; [|split]]].
  - unfold fwd. cbn [create_neighborhood_comms fst sources].
    case_bool_decide; [|constructor]. apply filter_sorted, seq_sorted.
  - unfold fwd. cbn [create_neighborhood_comms fst destinations].
    case_bool_decide; [|constructor]. apply filter_sorted, seq_sorted.
  - exact Hmem.
  - done.
  - intros Hone Hr. clearbody fwd. clear rev.
    destruct fwd as [[|i src] [|j dst]]; cbn [sources destinations] in *.
    + done.
    + destruct (Hmem j); [right; left|]. lia.
    + destruct (Hmem i); [left; left|]. lia.
    + destruct (Hmem i); [left; left|]. lia.
Qed.

End neighborhood_lists.

(** ** The owner-to-ghost communicator as a function of block sets *)

Section owner_to_ghost_sets.
Import OwnerToGhost.

Lemma sorted_ext (l1 l2 : list Z) :
  StronglySorted Z.lt l1 → StronglySorted Z.lt l2 →
  (∀ x, x ∈ l1 ↔ x ∈ l2) → l1 = l2.
Proof.
  intros H1. revert l2. induction H1 as [|x l1 Hs1 IH Hx]; intros l2 H2 Hsame.
  - destruct l2 as [|y l2]; [done|].
    assert (y ∈ @nil Z) as []%elem_of_nil by (apply Hsame; left).
  - destruct H2 as [|y l2 Hs2 Hy].
    { assert (x ∈ @nil Z) as []%elem_of_nil by (apply Hsame; left). }
    rewrite Forall_forall in Hx, Hy.
    assert (x = y) as <-.
    { assert (x ∈ y :: l2) as [->|Hxy]%elem_of_cons by (apply Hsame; left);
        [done|].
      assert (y ∈ x :: l1) as [->|Hyx]%elem_of_cons by (apply Hsame; left);
        [done|].
      specialize (Hx _ Hyx). specialize (Hy _ Hxy). lia. }
    f_equal. apply IH; [done|]. intros z. split.
    + intros Hz. assert (z ∈ x :: l2) as [->|?]%elem_of_cons
        by (apply Hsame; by right); [|done].
      specialize (Hx _ Hz). lia.
    + intros Hz. assert (z ∈ x :: l1) as [->|?]%elem_of_cons
        by (apply Hsame; by right); [|done].
      specialize (Hy _ Hz). lia.
Qed.

Lemma foldl_set_insert_ext (xs ys : list Z) :
  (∀ x, x ∈ xs ↔ x ∈ ys) →
  foldl (λ s x, set_insert x s) [] xs = foldl (λ s x, set_insert x s) [] ys.
Proof.
  intros Hsame. apply sorted_ext.
  - apply foldl_set_insert_sorted. constructor.
  - apply foldl_set_insert_sorted. constructor.
  - intros x. rewrite !elem_of_foldl_set_insert, Hsame. done.
Qed.

(** The two loops in closed form. *)
Lemma dest_loop_Ok (imap : IndexMap) (local_blocks s : list Z) :
  Forall (valid_local imap) local_blocks →
  for_each (λ block dst_edges,
      procs ← links (index_to_dest_ranks imap) block;
      Ok (foldl (λ s proc, set_insert proc s) dst_edges procs))
    local_blocks s
  = Ok (foldl (λ s proc, set_insert proc s) s
          (local_blocks ≫= row (index_to_dest_ranks imap))).
Proof.
  intros Hall. revert s. induction Hall as [|b l Hb _ IH]; intros s; [done|].
  cbn [for_each]. destruct (links_in_range _ _ Hb) as [procs Hprocs].
  rewrite Hprocs. cbn [mbind result_bind]. rewrite IH.
  rewrite bind_cons, foldl_app, (row_links _ _ _ Hprocs). done.
Qed.

Lemma source_loop_Ok (imap : IndexMap) (ghost_blocks s : list Z) :
  Forall (valid_ghost imap) ghost_blocks →
  for_each (λ block src_edges,
      owner ← vget (owners imap) (wrap32 (block - size_local imap));
      Ok (set_insert owner src_edges))
    ghost_blocks s
  = Ok (foldl (λ s owner, set_insert owner s) s
          (ghost_blocks ≫= λ block,
             match owner_of imap block with Ok r => [r] | Err _ => [] end)).
Proof.
  intros Hall. revert s. induction Hall as [|b l Hb _ IH]; intros s; [done|].
  cbn [for_each]. destruct Hb as (Hsl & Hmax & Hlt).
  rewrite wrap32_small by (unfold int32_max in *; lia).
  destruct (lookup_lt_is_Some_2 (owners imap)
              (Z.to_nat (b - size_local imap))) as [o Ho]; [lia|].
  assert (vget (owners imap) (b - size_local imap) = Ok o) as Hget.
  { apply vget_Ok. split; [lia | done]. }
  rewrite Hget. cbn [mbind result_bind]. rewrite IH.
  rewrite bind_cons, foldl_app. unfold owner_of at 2. rewrite Hget. done.
Qed.

(** X15. The communicator depends on the sets of blocks only.  For valid
    blocks, two calls whose local-block lists have the same members and
    whose ghost-block lists have the same members return the same source
    and destination lists: neither the order of the blocks nor a block
    given twice changes the result. *)
Theorem owner_to_ghost_block_sets
    (local_blocks local_blocks' ghost_blocks ghost_blocks' : list Z)
    (imap : IndexMap)
    (Hlocal : Forall (valid_local imap) local_blocks)
    (Hghost : Forall (valid_ghost imap) ghost_blocks)
    (Hsame_local : ∀ b, b ∈ local_blocks ↔ b ∈ local_blocks')
    (Hsame_ghost : ∀ b, b ∈ ghost_blocks ↔ b ∈ ghost_blocks') :
  ∃ g, create_owner_to_ghost_comm local_blocks ghost_blocks imap = Ok g
    ∧ create_owner_to_ghost_comm local_blocks' ghost_blocks' imap = Ok g.
Proof.
  assert (Forall (valid_local imap) local_blocks') as Hlocal'.
  { rewrite Forall_forall in *. intros b Hb. by apply Hlocal, Hsame_local. }
  assert (Forall (valid_ghost imap) ghost_blocks') as Hghost'.
  { rewrite Forall_forall in *. intros b Hb. by apply Hghost, Hsame_ghost. }
  unfold create_owner_to_ghost_comm.
  rewrite !dest_loop_Ok by done. cbn [mbind result_bind].
  rewrite !source_loop_Ok by done. cbn [mbind result_bind].
  eexists. split; [reflexivity|]. f_equal. f_equal.
  - apply foldl_set_insert_ext. intros r. rewrite !list_elem_of_bind.
    split; intros (b & Hr & Hb); exists b; (split; [done|]);
      by apply Hsame_ghost.
  - apply foldl_set_insert_ext. intros r. rewrite !list_elem_of_bind.
    split; intros (b & Hr & Hb); exists b; (split; [done|]);
      by apply Hsame_local.
Qed.

Lemma owner_to_ghost_block_sets_witness :
  ∃ g, create_owner_to_ghost_comm [0; 1] [4; 5; 6] example_index_map = Ok g
    ∧ create_owner_to_ghost_comm [1; 0; 1] [6; 4; 5; 4] example_index_map = Ok g.
Proof.
  apply (owner_to_ghost_block_sets [0; 1] [1; 0; 1] [4; 5; 6] [6; 4; 5; 4]
           example_index_map).
  - repeat constructor; vm_compute; congruence.
  - repeat constructor; vm_compute; congruence.
  - intros b. rewrite !elem_of_cons, !elem_of_nil. tauto.
  - intros b. rewrite !elem_of_cons, !elem_of_nil. tauto.
Defined.

End owner_to_ghost_sets.

(** ** The adjacency list of the colliding cells, ties and NaN *)

Section collision_rows.
Import Collision.

Context (squared_distance : Mesh → Z → list Z → list point → list double).
Context (BoundingBoxTree : Type).
Context (compute_collisions : BoundingBoxTree → list point → AdjacencyList).

(** On doubles other than NaN, [<] is total: what is not below [b] is
    above everything below [b]. *)
Lemma SFltb_below_not_below (x b d : double) :
  SFltb x b = true → SFltb d b = false → d ≠ S754_nan → SFltb x d = true.
Proof.
  unfold SFltb.
  destruct x as [sx|sx| |sx mx ex], b as [sb|sb| |sb mb eb],
           d as [sd|sd| |sd md ed];
    simpl; try discriminate; try done; try (destruct sx); try (destruct sb);
    try (destruct sd); simpl; try discriminate; try done.
  all: rewrite ?Pos.compare_cont_spec by idtac; simpl.
  all: repeat match goal with
       | |- context [Z.compare ?a ?b] => destruct (Z.compare_spec a b); subst
       | |- context [Pos.compare ?a ?b] => destruct (Pos.compare_spec a b); subst
       end; simpl; try discriminate; try done; try lia.
Qed.

Lemma SFltb_nan_r (d : double) : SFltb d S754_nan = false.
Proof. by destruct d as [[]|[]| |[] ? ?]. Qed.

Lemma SFltb_nan_l (d : double) : SFltb S754_nan d = false.
Proof. by destruct d as [[]|[]| |[] ? ?]. Qed.

(** [std::min_element] returns the first of the least elements: the
    element it returns is below every element before it that is not
    NaN. *)
Lemma min_element_from_first (pre l : list double) (smallest : nat)
    (best : double) :
  pre !! smallest = Some best →
  (∀ j dj, pre !! j = Some dj → SFltb dj best = false) →
  (∀ j dj, (j < smallest)%nat → pre !! j = Some dj → dj ≠ S754_nan →
           SFltb best dj = true) →
  ∃ dm, (pre ++ l) !! min_element_from smallest best (length pre) l = Some dm
    ∧ ∀ j dj, (j < min_element_from smallest best (length pre) l)%nat →
        (pre ++ l) !! j = Some dj → dj ≠ S754_nan → SFltb dm dj = true.
Proof.
  revert pre smallest best.
  induction l as [|d l IH]; intros pre smallest best Hb Hmin Hfirst.
  - exists best. rewrite app_nil_r. done.
  - cbn [min_element_from].
    replace (pre ++ d :: l) with ((pre ++ [d]) ++ l) by (by rewrite <- app_assoc).
    replace (S (length pre)) with (length (pre ++ [d]))
      by (rewrite length_app; simpl; lia).
    destruct (SFltb d best) eqn:Hd.
    + apply IH.
      * by rewrite lookup_app_r, Nat.sub_diag.
      * intros j dj Hj. apply lookup_app_Some in Hj as [Hj|[_ Hj]].
        -- destruct (SFltb dj d) eqn:E; [|done].
           rewrite <- (Hmin j dj Hj). symmetry. by eapply SFltb_trans.
        -- apply list_lookup_singleton_Some in Hj as [_ <-].
           apply SFltb_irrefl.
      * intros j dj Hj Hdj Hnan. rewrite lookup_app_l in Hdj by done.
        eapply SFltb_below_not_below; [exact Hd | by eapply Hmin | done].
    + apply IH.
      * apply lookup_app_l_Some. done.
      * intros j dj Hj. apply lookup_app_Some in Hj as [Hj|[_ Hj]].
        -- by eapply Hmin.
        -- by apply list_lookup_singleton_Some in Hj as [_ <-].
      * intros j dj Hj Hdj Hnan. apply (Hfirst j); [done | | done].
        apply lookup_lt_Some in Hb. by rewrite lookup_app_l in Hdj by lia.
Qed.

Lemma min_element_first (l : list double) (j : nat) (dj dm : double) :
  l !! min_element l = Some dm →
  (j < min_element l)%nat → l !! j = Some dj → dj ≠ S754_nan →
  SFltb dm dj = true.
Proof.
  destruct l as [|d l]; [done|]. cbn [min_element].
  destruct (min_element_from_first [d] l 0 d) as (dm' & Hdm & Hfirst).
  - done.
  - intros k dk Hk. apply list_lookup_singleton_Some in Hk as [_ <-].
    apply SFltb_irrefl.
  - intros; lia.
  - cbn [length app] in *. intros Hdm'. rewrite Hdm in Hdm'.
    injection Hdm' as <-. apply Hfirst.
Qed.

Lemma min_element_nan_head (l : list double) :
  min_element (S754_nan :: l) = 0%nat.
Proof.
  cbn [min_element]. generalize 1%nat.
  induction l as [|d l IH]; intros pos; [done|].
  cbn [min_element_from]. rewrite SFltb_nan_r. apply IH.
Qed.

Lemma elem_of_concat {A : Type} (x : A) (ls : list (list A)) :
  x ∈ concat ls ↔ ∃ l, x ∈ l ∧ l ∈ ls.
Proof.
  induction ls as [|l0 ls IH]; simpl.
  - split; [by intros ?%elem_of_nil | by intros (? & _ & ?%elem_of_nil)].
  - rewrite elem_of_app, IH. split.
    + intros [?|(l & ? & ?)]; [exists l0 | exists l]; rewrite elem_of_cons; auto.
    + intros (l & ? & [->|?]%elem_of_cons); eauto.
Qed.

Lemma nearest_subseteq (mesh : Mesh) (cells : list Z) (p : point)
    (eps2 : double) (c : Z) :
  c ∈ nearest squared_distance mesh cells p eps2 → c ∈ cells.
Proof.
  unfold nearest. destruct (_ !! _); [|by intros ?%elem_of_nil].
  destruct (cells !! _) eqn:E; [|by intros ?%elem_of_nil].
  destruct (SFltb _ _); [|by intros ?%elem_of_nil].
  intros ->%list_elem_of_singleton. by eapply list_elem_of_lookup_2.
Qed.

Lemma nearest_of_subseteq (mesh : Mesh) (cand : AdjacencyList)
    (points : list point) (eps2 : double) (i : nat) (c : Z) :
  c ∈ nearest_of squared_distance mesh cand points eps2 i → c ∈ array cand.
Proof.
  unfold nearest_of. destruct (points !! i); [|by intros ?%elem_of_nil].
  intros Hc%nearest_subseteq. unfold row in Hc.
  destruct (links cand (Z.of_nat i)) eqn:E; [|by apply elem_of_nil in Hc].
  by eapply links_subseteq.
Qed.

(** X16. The result of [compute_colliding_cells] is a well-formed
    adjacency list.  With one distance per candidate, the call returns
    offsets with one entry more than there are candidate rows, starting
    at 0 and ending at the length of the data; consecutive offsets
    differ by 0 or 1; the data holds at most one cell per point, and
    every cell in it is one of the candidate cells. *)
Theorem colliding_cells_adjacency (mesh : Mesh) (cand : AdjacencyList)
    (points : list point) (eps2 : double)
    (Hdist : ∀ cs ps,
       length (squared_distance mesh (topology_dim (topology mesh)) cs ps)
       = length cs)
    (Hpts : num_nodes cand ≤ Z.of_nat (length points))
    (Hmax : num_nodes cand ≤ int32_max) :
  let n := Z.to_nat (num_nodes cand) in
  ∃ out, compute_colliding_cells squared_distance mesh cand points eps2 = Ok out
    ∧ length (offsets out) = S n
    ∧ offsets out !! 0%nat = Some 0
    ∧ offsets out !! n = Some (Z.of_nat (length (array out)))
    ∧ (∀ (k : nat) a b, offsets out !! k = Some a → offsets out !! S k = Some b →
         a ≤ b ≤ a + 1)
    ∧ (length (array out) ≤ n)%nat
    ∧ ∀ c, c ∈ array out → c ∈ array cand.
Proof.
  intros n. rewrite compute_colliding_cells_Ok by done. fold n.
  eexists. split; [reflexivity|]. cbn [array offsets].
  split; [by rewrite length_fmap, length_seq|].
  split; [done|].
  split; [by rewrite list_lookup_fmap, lookup_seq_lt by lia|].
  split; [|split].
  - intros k a b Ha Hb.
    apply lookup_lt_Some in Hb as Hk. rewrite length_fmap, length_seq in Hk.
    rewrite list_lookup_fmap, lookup_seq_lt in Ha, Hb by lia.
    cbn [fmap option_fmap option_map Nat.add] in Ha, Hb.
    apply (inj Some) in Ha, Hb. subst a b.
    rewrite concat_seq_S, length_app.
    pose proof (nearest_of_length squared_distance mesh cand points eps2 k).
    lia.
  - apply nearest_prefix_length.
  - intros c (l & Hc & (k & -> & _)%list_elem_of_fmap)%elem_of_concat.
    by eapply nearest_of_subseteq.
Qed.

(** X17. Ties go to the first candidate.  The cell returned for a point
    stands at a position of its candidate list where the squared
    distance is below [eps2] and below the distance of every earlier
    candidate whose distance is not NaN: of several candidates at the
    least distance the one listed first is returned. *)
Theorem colliding_cell_is_first_nearest (mesh : Mesh) (cand : AdjacencyList)
    (points : list point) (eps2 : double) (i : nat)
    (Hdist : ∀ cs ps,
       length (squared_distance mesh (topology_dim (topology mesh)) cs ps)
       = length cs)
    (Hpts : num_nodes cand ≤ Z.of_nat (length points))
    (Hmax : num_nodes cand ≤ int32_max)
    (Hi : Z.of_nat i < num_nodes cand) :
  ∃ out cells p rw,
    compute_colliding_cells squared_distance mesh cand points eps2 = Ok out
    ∧ links cand (Z.of_nat i) = Ok cells
    ∧ points !! i = Some p
    ∧ links out (Z.of_nat i) = Ok rw
    ∧ ∀ c, c ∈ rw →
        let d := squared_distance mesh (topology_dim (topology mesh)) cells
                   (replicate (length cells) p) in
        ∃ (pos : nat) (dm : double),
          cells !! pos = Some c ∧ d !! pos = Some dm
          ∧ SFltb dm eps2 = true
          ∧ ∀ j dj, (j < pos)%nat → d !! j = Some dj → dj ≠ S754_nan →
              SFltb dm dj = true.
Proof.
  rewrite compute_colliding_cells_Ok by done.
  destruct (links_in_range cand (Z.of_nat i)) as [cells Hs]; [lia|].
  destruct (lookup_lt_is_Some_2 points i) as [p Hp]; [lia|].
  eexists _, cells, p, _. split; [reflexivity|]. split; [done|]. split; [done|].
  split; [apply links_running_lengths; lia|].
  unfold nearest_of. rewrite Hp, (row_links _ _ _ Hs).
  intros c Hc. unfold nearest in Hc.
  set (d := squared_distance mesh (topology_dim (topology mesh)) cells
              (replicate (length cells) p)) in *.
  destruct (d !! min_element d) as [dm|] eqn:Hdm; [|by apply elem_of_nil in Hc].
  destruct (cells !! min_element d) as [c'|] eqn:Hcell;
    [|by apply elem_of_nil in Hc].
  destruct (SFltb dm eps2) eqn:Heps; [|by apply elem_of_nil in Hc].
  apply list_elem_of_singleton in Hc as ->.
  exists (min_element d), dm. do 3 (split; [done|]).
  intros j dj Hj Hdj Hnan. by eapply min_element_first.
Qed.

(** X18. NaN.  With a NaN threshold no point collides: the data of the
    result is empty.  And when the distance of the first candidate of a
    point is NaN, the row of the point is empty, whatever the distances
    of its other candidates are: no distance is below NaN, so
    [std::min_element] stays at the first position. *)
Theorem colliding_cells_nan (mesh : Mesh) (cand : AdjacencyList)
    (points : list point) (eps2 : double)
    (Hdist : ∀ cs ps,
       length (squared_distance mesh (topology_dim (topology mesh)) cs ps)
       = length cs)
    (Hpts : num_nodes cand ≤ Z.of_nat (length points))
    (Hmax : num_nodes cand ≤ int32_max) :
  ∃ out, compute_colliding_cells squared_distance mesh cand points eps2 = Ok out
    ∧ (eps2 = S754_nan → array out = [])
    ∧ ∀ (i : nat) cells p,
        links cand (Z.of_nat i) = Ok cells → points !! i = Some p →
        squared_distance mesh (topology_dim (topology mesh)) cells
          (replicate (length cells) p) !! 0%nat = Some S754_nan →
        links out (Z.of_nat i) = Ok [].
Proof.
  rewrite compute_colliding_cells_Ok by done.
  eexists. split; [reflexivity|]. cbn [array]. split.
  - intros ->. apply concat_nil_Forall, Forall_forall.
    intros l (k & -> & _)%list_elem_of_fmap.
    unfold nearest_of. destruct (points !! k); [|done].
    unfold nearest. destruct (_ !! _); [|done]. destruct (_ !! _); [|done].
    by rewrite SFltb_nan_r.
  - intros i cells p Hs Hp Hnan.
    apply links_Ok_range in Hs as Hr.
    rewrite links_running_lengths by lia. f_equal.
    unfold nearest_of. rewrite Hp, (row_links _ _ _ Hs).
    unfold nearest.
    destruct (squared_distance _ _ _ _) as [|d0 l] eqn:E; [done|].
    injection Hnan as ->. rewrite min_element_nan_head.
    cbn [lookup list_lookup]. destruct (cells !! 0%nat); [|done].
    by rewrite SFltb_nan_l.
Qed.

End collision_rows.

Section collision_rows_example.
Import Collision.

Lemma colliding_cells_adjacency_witness :
  let n := Z.to_nat (num_nodes example_candidates) in
  ∃ out, compute_colliding_cells example_distance example_mesh
           example_candidates example_points three_halves = Ok out
    ∧ length (offsets out) = S n
    ∧ offsets out !! 0%nat = Some 0
    ∧ offsets out !! n = Some (Z.of_nat (length (array out)))
    ∧ (∀ (k : nat) a b, offsets out !! k = Some a → offsets out !! S k = Some b →
         a ≤ b ≤ a + 1)
    ∧ (length (array out) ≤ n)%nat
    ∧ ∀ c, c ∈ array out → c ∈ array example_candidates.
Proof.
  apply (colliding_cells_adjacency example_distance example_mesh
           example_candidates example_points three_halves).
  - intros cs ps. apply length_fmap.
  - vm_compute. congruence.
  - vm_compute. congruence.
Defined.

Lemma colliding_cell_is_first_nearest_witness :
  ∃ out cells p rw,
    compute_colliding_cells example_distance example_mesh
      example_candidates example_points three_halves = Ok out
    ∧ links example_candidates 0 = Ok cells
    ∧ example_points !! 0%nat = Some p
    ∧ links out 0 = Ok rw
    ∧ ∀ c, c ∈ rw →
        let d := example_distance example_mesh
                   (topology_dim (topology example_mesh)) cells
                   (replicate (length cells) p) in
        ∃ (pos : nat) (dm : double),
          cells !! pos = Some c ∧ d !! pos = Some dm
          ∧ SFltb dm three_halves = true
          ∧ ∀ j dj, (j < pos)%nat → d !! j = Some dj → dj ≠ S754_nan →
              SFltb dm dj = true.
Proof.
  apply (colliding_cell_is_first_nearest example_distance example_mesh
           example_candidates example_points three_halves 0).
  - intros cs ps. apply length_fmap.
  - vm_compute. congruence.
  - vm_compute. congruence.
  - vm_compute. reflexivity.
Defined.

Lemma colliding_cells_nan_witness :
  ∃ out, compute_colliding_cells example_distance example_mesh
           example_candidates example_points S754_nan = Ok out
    ∧ (S754_nan = S754_nan → array out = [])
    ∧ ∀ (i : nat) cells p,
        links example_candidates (Z.of_nat i) = Ok cells →
        example_points !! i = Some p →
        example_distance example_mesh (topology_dim (topology example_mesh))
          cells (replicate (length cells) p) !! 0%nat = Some S754_nan →
        links out (Z.of_nat i) = Ok [].
Proof.
  apply (colliding_cells_nan example_distance example_mesh
           example_candidates example_points S754_nan).
  - intros cs ps. apply length_fmap.
  - vm_compute. congruence.
  - vm_compute. congruence.
Defined.

End collision_rows_example.

(** ** Basis functions on a cell: the block expansion *)

Section basis_expansion.
Import Basis BasisExpansion.

Lemma to_size_t_small (z : Z) : 0 ≤ z < 2 ^ 64 → to_size_t z = z.
Proof. intros H. unfold to_size_t. by apply Z.mod_small. Qed.

Lemma radix_unique (a b a' b' m : Z) :
  0 ≤ b < m → 0 ≤ b' < m → a * m + b = a' * m + b' → a = a' ∧ b = b'.
Proof.
  intros Hb Hb' E. destruct (decide (a = a')) as [->|Hne]; [lia|].
  exfalso. assert ((a - a') * m = b' - b) as Hd by lia.
  assert (a - a' ≤ -1 ∨ 1 ≤ a - a') as [?|?] by lia; nia.
Qed.

Lemma div_mod_block (i blk bs : Z) :
  0 ≤ blk < bs →
  (i * bs + blk) / bs = i ∧ (i * bs + blk) `mod` bs = blk.
Proof.
  intros H. split.
  - rewrite Z.div_add_l by lia. rewrite Z.div_small by lia. lia.
  - rewrite Z.add_comm, Z.mod_add by lia. by apply Z.mod_small.
Qed.

Lemma expanded_zeros (bs s2 s3 : Z) (vals : list double) :
  0 < bs → 0 ≤ s2 → 0 ≤ s3 →
  expanded bs s2 s3 vals 0 (zeros (s2 * bs) (s3 * bs)).
Proof.
  intros Hbs H2 H3. split; [done|]. split; [apply length_replicate|].
  intros r c Hr Hc. unfold entry, zeros. cbn [data].
  rewrite lookup_replicate_2 by nia.
  rewrite bool_decide_eq_false_2; [done|]. intros [_ Hk].
  pose proof (Z.mod_pos_bound r bs Hbs).
  pose proof (Z.div_pos r bs ltac:(lia) Hbs).
  pose proof (Z.div_pos c bs ltac:(lia) Hbs). nia.
Qed.

(** One assignment of the innermost loop. *)
Lemma expand_assign (bs s2 s3 : Z) (vals : list double) (blk i j : nat)
    (t : xtensor2) :
  0 < bs → (s2 * bs) * (s3 * bs) < 2 ^ 64 →
  Z.of_nat (length vals) = s2 * s3 →
  Z.of_nat blk < bs → Z.of_nat i < s2 → Z.of_nat j < s3 →
  expanded bs s2 s3 vals
    ((Z.of_nat blk * s2 + Z.of_nat i) * s3 + Z.of_nat j) t →
  ∃ t',
    (v ← vget vals (to_size_t (Z.of_nat i * s3 + Z.of_nat j));
     tensor_set t (to_size_t (Z.of_nat i * bs + Z.of_nat blk))
       (to_size_t (Z.of_nat j * bs + Z.of_nat blk)) v) = Ok t'
    ∧ expanded bs s2 s3 vals
        ((Z.of_nat blk * s2 + Z.of_nat i) * s3 + Z.of_nat j + 1) t'.
Proof.
  intros Hbs Hsize Hlen Hblk Hi Hj (Hshape & Hdata & Hentries).
  set (r0 := Z.of_nat i * bs + Z.of_nat blk).
  set (c0 := Z.of_nat j * bs + Z.of_nat blk).
  assert (0 ≤ r0 < s2 * bs) as Hr0 by (unfold r0; nia).
  assert (0 ≤ c0 < s3 * bs) as Hc0 by (unfold c0; nia).
  assert (0 ≤ Z.of_nat i * s3 + Z.of_nat j < s2 * s3) as Hij by nia.
  assert (0 ≤ r0 * (s3 * bs) + c0 < (s2 * bs) * (s3 * bs)) as Hp0 by nia.
  rewrite !to_size_t_small by nia.
  destruct (lookup_lt_is_Some_2 vals (Z.to_nat (Z.of_nat i * s3 + Z.of_nat j)))
    as [v Hv]; [lia|].
  assert (vget vals (Z.of_nat i * s3 + Z.of_nat j) = Ok v) as ->
    by (apply vget_Ok; split; [lia | done]).
  cbn [mbind result_bind].
  unfold tensor_set, strides. rewrite Hshape.
  assert (r0 * (if bool_decide (s2 * bs = 1) then 0 else s3 * bs)
          + c0 * (if bool_decide (s3 * bs = 1) then 0 else 1)
          = r0 * (s3 * bs) + c0) as ->.
  { repeat case_bool_decide; nia. }
  rewrite to_size_t_small by nia.
  rewrite vset_Ok by lia. cbn [mbind result_bind].
  eexists. split; [reflexivity|].
  split; [done|]. split; [cbn [data]; by rewrite length_insert|].
  intros r c Hr Hc. unfold entry. cbn [data].
  destruct (div_mod_block (Z.of_nat i) (Z.of_nat blk) bs ltac:(lia))
    as [Hr0d Hr0m].
  destruct (div_mod_block (Z.of_nat j) (Z.of_nat blk) bs ltac:(lia))
    as [Hc0d Hc0m].
  fold r0 in Hr0d, Hr0m. fold c0 in Hc0d, Hc0m.
  destruct (decide (r * (s3 * bs) + c = r0 * (s3 * bs) + c0)) as [E|E].
  - apply radix_unique in E as [-> ->]; [|lia..].
    rewrite list_lookup_insert_eq by lia. f_equal.
    rewrite bool_decide_eq_true_2.
    + unfold basis_value. by rewrite Hr0d, Hc0d, Hv.
    + rewrite Hr0d, Hr0m, Hc0d, Hc0m. split; [done | lia].
  - assert (0 ≤ r * (s3 * bs) + c) by nia.
    rewrite list_lookup_insert_ne by lia.
    specialize (Hentries r c Hr Hc). unfold entry in Hentries.
    rewrite Hentries. f_equal.
    pose proof (Z.mod_pos_bound r bs Hbs) as Hrm.
    pose proof (Z.mod_pos_bound c bs Hbs) as Hcm.
    pose proof (Z.div_mod r bs ltac:(lia)) as Hrd.
    pose proof (Z.div_mod c bs ltac:(lia)) as Hcd.
    assert (0 ≤ r / bs < s2) as Hri by (split; [apply Z.div_pos; lia | apply Z.div_lt_upper_bound; lia]).
    assert (0 ≤ c / bs < s3) as Hci by (split; [apply Z.div_pos; lia | apply Z.div_lt_upper_bound; lia]).
    match goal with
    | |- (if bool_decide ?A then _ else _) = (if bool_decide ?B then _ else _) =>
        rewrite (bool_decide_ext A B); [done|]
    end.
    split; [intros [? ?]; split; [done | lia]|].
    intros [Hm Hk]. split; [done|].
    destruct (decide (((r `mod` bs) * s2 + r / bs) * s3 + c / bs
                      = (Z.of_nat blk * s2 + Z.of_nat i) * s3 + Z.of_nat j))
      as [Ek|Ek]; [|lia].
    exfalso. apply radix_unique in Ek as [Ek Ej]; [|lia..].
    apply radix_unique in Ek as [Eb Ei]; [|lia..].
    apply E. unfold r0, c0. rewrite <- Eb, <- Ei, <- Ej.
    rewrite Hm at 2. nia.
Qed.

Lemma expand_basis_values_Ok (bs s2 s3 : Z) (vals : list double) :
  0 < bs → 0 ≤ s2 → 0 ≤ s3 → (s2 * bs) * (s3 * bs) < 2 ^ 64 →
  Z.of_nat (length vals) = s2 * s3 →
  ∃ t, expand_basis_values bs s2 s3 vals (zeros (s2 * bs) (s3 * bs)) = Ok t
    ∧ expanded bs s2 s3 vals (bs * s2 * s3) t.
Proof.
  intros Hbs H2 H3 Hsize Hlen. unfold expand_basis_values.
  match goal with |- ∃ _, for_loop ?body 0 ?n ?s0 = _ ∧ _ =>
    destruct (for_loop_inv
      (λ blk t, expanded bs s2 s3 vals (Z.of_nat blk * s2 * s3) t)
      body n 0%nat s0) as (t & Ht & Hexp)
  end.
  - by apply expanded_zeros.
  - intros blk t Hblk Hexp.
    match goal with |- ∃ _, for_loop ?body 0 ?n ?s0 = _ ∧ _ =>
      destruct (for_loop_inv
        (λ i t, expanded bs s2 s3 vals
                  ((Z.of_nat blk * s2 + Z.of_nat i) * s3) t)
        body n 0%nat s0) as (t1 & Ht1 & Hexp1)
    end.
    + replace ((Z.of_nat blk * s2 + Z.of_nat 0) * s3)
        with (Z.of_nat blk * s2 * s3) by lia. done.
    + intros i t1 Hi Hexp1.
      match goal with |- ∃ _, for_loop ?body 0 ?n ?s0 = _ ∧ _ =>
        destruct (for_loop_inv
          (λ j t, expanded bs s2 s3 vals
                    ((Z.of_nat blk * s2 + Z.of_nat i) * s3 + Z.of_nat j) t)
          body n 0%nat s0) as (t2 & Ht2 & Hexp2)
      end.
      * by rewrite Z.add_0_r.
      * intros j t2 Hj Hexp2.
        replace ((Z.of_nat blk * s2 + Z.of_nat i) * s3 + Z.of_nat (S j))
          with ((Z.of_nat blk * s2 + Z.of_nat i) * s3 + Z.of_nat j + 1) by lia.
        apply expand_assign; [done | done | done | lia..| done].
      * exists t2. split; [exact Ht2|].
        replace ((Z.of_nat blk * s2 + Z.of_nat (S i)) * s3)
          with ((Z.of_nat blk * s2 + Z.of_nat i) * s3
                + Z.of_nat (0 + Z.to_nat s3)) by lia.
        done.
    + exists t1. split; [exact Ht1|].
      replace (Z.of_nat (S blk) * s2 * s3)
        with ((Z.of_nat blk * s2 + Z.of_nat (0 + Z.to_nat s2)) * s3) by lia.
      done.
  - exists t. split; [exact Ht|].
    replace (bs * s2 * s3) with (Z.of_nat (0 + Z.to_nat bs) * s2 * s3) by lia.
    done.
Qed.

(** X19. The basis functions on a cell.  For a non-negative cell index
    and a point with [gdim] coordinates, when the collaborators deliver
    the [basis_shape[2] * basis_shape[3]] basis values of the cell, the
    call returns the array of shape
    [(basis_shape[2] * bs, basis_shape[3] * bs)] in which the entry
    [(r, c)] is the basis value [(r / bs, c / bs)] when [r] and [c] have
    the same remainder modulo the block size [bs], and zero otherwise:
    every block gets a copy of the scalar basis values, and the blocks do
    not mix. *)
Theorem basis_functions_block_expansion
    (basis_values_on_cell : FunctionSpace → list double → Z → result (list double))
    (V : FunctionSpace) (x : list double) (index : Z)
    (s0 s1 s2 s3 : Z) (vals : list double)
    (Hx : Z.of_nat (length x) = to_size_t (geometry_dim (mesh V)))
    (Hindex : 0 ≤ index)
    (Hshape : tabulate_shape (element V) 0 1 = (s0, s1, s2, s3))
    (Hbs : 0 < block_size (element V) < 2 ^ 64)
    (Hs2 : 0 ≤ s2) (Hs3 : 0 ≤ s3)
    (Hrows : s2 * block_size (element V) < 2 ^ 64)
    (Hcols : s3 * block_size (element V) < 2 ^ 64)
    (Hsize : (s2 * block_size (element V)) * (s3 * block_size (element V))
             < 2 ^ 64)
    (Hvals : basis_values_on_cell V x index = Ok vals)
    (Hlen : Z.of_nat (length vals) = s2 * s3) :
  let bs := block_size (element V) in
  ∃ t, get_basis_functions (evaluate_on_cell basis_values_on_cell) V x index
       = Ok t
    ∧ shape t = (s2 * bs, s3 * bs)
    ∧ ∀ r c, 0 ≤ r < s2 * bs → 0 ≤ c < s3 * bs →
        entry t (s3 * bs) r c
        = Some (if bool_decide (r `mod` bs = c `mod` bs)
                then basis_value s3 vals (r / bs) (c / bs)
                else double_zero).
Proof.
  intros bs. unfold get_basis_functions, evaluate_on_cell.
  rewrite (bool_decide_eq_true_2 _ Hx). cbn [assert mbind result_bind].
  rewrite Hshape. rewrite (to_size_t_small (block_size (element V))) by lia.
  fold bs in Hbs, Hrows, Hcols, Hsize |- *.
  rewrite !to_size_t_small by nia.
  rewrite bool_decide_eq_false_2 by lia.
  rewrite Hvals. cbn [mbind result_bind].
  destruct (expand_basis_values_Ok bs s2 s3 vals)
    as (t & -> & Hsh & _ & Hentries); [lia | done..|].
  exists t. split; [done|]. split; [done|].
  intros r c Hr Hc. rewrite (Hentries r c Hr Hc). f_equal.
  match goal with
  | |- (if bool_decide ?A then _ else _) = (if bool_decide ?B then _ else _) =>
      rewrite (bool_decide_ext A B); [done|]
  end.
  split; [by intros [? _]|]. intros Hm. split; [done|].
  pose proof (Z.mod_pos_bound r bs ltac:(lia)).
  assert (0 ≤ r / bs < s2)
    by (split; [apply Z.div_pos; lia | apply Z.div_lt_upper_bound; lia]).
  assert (0 ≤ c / bs < s3)
    by (split; [apply Z.div_pos; lia | apply Z.div_lt_upper_bound; lia]).
  nia.
Qed.

Lemma basis_functions_block_expansion_witness :
  let bs := 2 in
  ∃ t, get_basis_functions (evaluate_on_cell example_values) vector_space
         [double_zero; double_zero; double_zero] 0 = Ok t
    ∧ shape t = (3 * bs, 1 * bs)
    ∧ ∀ r c, 0 ≤ r < 3 * bs → 0 ≤ c < 1 * bs →
        entry t (1 * bs) r c
        = Some (if bool_decide (r `mod` bs = c `mod` bs)
                then basis_value 1
                       [Collision.one; Collision.two; Collision.three_halves]
                       (r / bs) (c / bs)
                else double_zero).
Proof.
  apply (basis_functions_block_expansion example_values vector_space
           [double_zero; double_zero; double_zero] 0 1 1 3 1
           [Collision.one; Collision.two; Collision.three_halves]).
  - reflexivity.
  - lia.
  - reflexivity.
  - vm_compute. split; congruence.
  - lia.
  - lia.
  - vm_compute. congruence.
  - vm_compute. congruence.
  - vm_compute. congruence.
  - reflexivity.
  - reflexivity.
Defined.

End basis_expansion.

(** ** [evaluate_basis_functions]: the checks and the call without points *)

Section basis_at_points.
Import Basis BasisAtPoints.

Context (reference_value_size value_size space_dimension num_sub_elements
           : FiniteElement → Z).
Context (evaluate_at_points :
           FunctionSpace → xtensor2 → list Z → xtensor3 → result xtensor3).

Lemma div_quot_not_thrown (a b : Z) (e : failure) :
  Sparsity.div_quot a b = Err e → not_thrown e.
Proof. intros ->%div_quot_Err. by intros what. Qed.

Lemma assert_not_thrown (expr : string) (b : bool) (e : failure) :
  assert expr b = Err e → not_thrown e.
Proof. destruct b; [done|]. intros [= <-]. by intros what. Qed.

(** X20. The runtime errors of [evaluate_basis_functions], and the call
    without points.  Provided the evaluation at the points throws no
    runtime error of its own, the call throws one in exactly two cases:
    the number of points differs from the number of cells; or the numbers
    agree, the three divisions by the block size are defined, and the
    element has more than one sub-element, not as many as the block
    size.  With no point and no cell, a positive block size, no such
    sub-elements and the two shape assertions satisfied, the call returns
    the array of shape [(0, space_dimension, value_size)], which has no
    entry, and the geometry is never consulted; with a zero block size
    the division is undefined, points or not. *)
Theorem evaluate_basis_functions_checks (V : FunctionSpace) (x : xtensor2)
    (cells : list Z) :
  let bs := block_size (element V) in
  let e := element V in
  let run := evaluate_basis_functions reference_value_size value_size
               space_dimension num_sub_elements evaluate_at_points V x cells in
  ((∀ t e, evaluate_at_points V x cells t = Err e → not_thrown e) →
   ∀ what, run = Err (runtime_error what)
     ↔ ((shape x).1 ≠ Z.of_nat (length cells) ∧ what = points_and_cells)
       ∨ ((shape x).1 = Z.of_nat (length cells)
          ∧ (∃ q1 q2 q3, Sparsity.div_quot (reference_value_size e) bs = Ok q1
               ∧ Sparsity.div_quot (value_size e) bs = Ok q2
               ∧ Sparsity.div_quot (space_dimension e) bs = Ok q3)
          ∧ num_sub_elements e > 1 ∧ num_sub_elements e ≠ bs
          ∧ what = mixed_element))
  ∧ ((shape x).1 = 0 → cells = [] → 0 < bs →
     ¬ (num_sub_elements e > 1 ∧ num_sub_elements e ≠ bs) →
     (tabulate_shape e 0 0).1.2 = to_size_t (space_dimension e ÷ bs) →
     (tabulate_shape e 0 0).2 = to_size_t (value_size e ÷ bs) →
     run = Ok {| shape3 := (0, to_size_t (space_dimension e ÷ bs),
                            to_size_t (value_size e ÷ bs));
                 data3 := [] |})
  ∧ ((shape x).1 = Z.of_nat (length cells) → bs = 0 →
     run = Err division_error).
Proof.
  intros bs e run. subst bs e run. unfold evaluate_basis_functions.
  split; [|split].
  - intros Hcollab what.
    case_bool_decide as Hn.
    { split; [intros [= <-]; by left|].
      intros [[_ ->]|[? _]]; [done | contradiction]. }
    destruct (Sparsity.div_quot (reference_value_size (element V))
                (block_size (element V))) as [q1|e1] eqn:E1.
    2:{ cbn [mbind result_bind]. split.
        - intros [= ->]. by destruct (div_quot_not_thrown _ _ _ E1 what).
        - intros [[? _]|(_ & (? & ? & ? & [=] & _) & _)]. contradiction. }
    cbn [mbind result_bind].
    destruct (Sparsity.div_quot (value_size (element V)) (block_size (element V))) as [q2|e2] eqn:E2.
    2:{ cbn [mbind result_bind]. split.
        - intros [= ->]. by destruct (div_quot_not_thrown _ _ _ E2 what).
        - intros [[? _]|(_ & (? & ? & ? & _ & [=] & _) & _)]. contradiction. }
    cbn [mbind result_bind].
    destruct (Sparsity.div_quot (space_dimension (element V))
                (block_size (element V))) as [q3|e3] eqn:E3.
    2:{ cbn [mbind result_bind]. split.
        - intros [= ->]. by destruct (div_quot_not_thrown _ _ _ E3 what).
        - intros [[? _]|(_ & (? & ? & ? & _ & _ & [=]) & _)]. contradiction. }
    cbn [mbind result_bind].
    case_bool_decide as Hmixed.
    { split.
      - intros [= <-]. right. split; [done|].
        split; [by exists q1, q2, q3|]. destruct Hmixed. auto.
      - intros [[? _]|(_ & _ & _ & _ & ->)]; [contradiction | done]. }
    split; [|intros [[? _]|(_ & _ & ? & ? & _)]; [contradiction | tauto]].
    intros Hrun. exfalso.
    destruct (tabulate_shape (element V) 0 (shape x).1) as [[[s0 s1] s2] s3].
    apply bind_Err in Hrun as [Hrun|(? & _ & Hrun)];
      [by destruct (assert_not_thrown _ _ _ Hrun what)|].
    apply bind_Err in Hrun as [Hrun|(? & _ & Hrun)];
      [by destruct (assert_not_thrown _ _ _ Hrun what)|].
    case_bool_decide; [done|].
    by destruct (Hcollab _ _ Hrun what).
  - intros Hx -> Hbs Hmixed H2 H3.
    rewrite bool_decide_eq_false_2 by (rewrite Hx; simpl; lia).
    rewrite !div_quot_Ok by done. cbn [mbind result_bind].
    rewrite bool_decide_eq_false_2 by done.
    rewrite Hx. destruct (tabulate_shape (element V) 0 0) as [[[s0 s1] s2] s3].
    cbn [fst snd] in H2, H3.
    rewrite !bool_decide_eq_true_2 by done. cbn [assert mbind result_bind].
    done.
  - intros Hn Hbs.
    rewrite bool_decide_eq_false_2 by (intros ?; done).
    rewrite Hbs.
    assert (∀ a, Sparsity.div_quot a 0 = Err division_error) as Hz.
    { intros a. unfold Sparsity.div_quot.
      rewrite bool_decide_eq_true_2; [done | by left]. }
    by rewrite Hz.
Qed.

End basis_at_points.

(** ** [tabulate_dof_coordinates] *)

Section dof_coordinates.
Import Basis BasisExpansion DofCoordinates.

Context (component : FunctionSpace → list Z).
Context (is_mixed interpolation_ident : FiniteElement → bool).
Context (space_dimension interpolation_points_shape0 : FiniteElement → Z).
Context (num_coordinate_dofs : FunctionSpace → result Z).
Context (tabulate_coordinate_element : FunctionSpace → result unit).
Context (cell_dof_coordinates : FunctionSpace → Z → Z → result (list double)).

Lemma tensor_set_Err (t : xtensor2) (r c : Z) (v : double) (e : failure) :
  tensor_set t r c v = Err e → e = out_of_range.
Proof.
  unfold tensor_set. destruct (strides t) as [s0 s1].
  intros [H|(d & _ & [=])]%bind_Err. by eapply vset_Err.
Qed.

Lemma tabulated_zeros (V : FunctionSpace) (dofs cells : list Z)
    (xb : nat → list double) :
  tabulated V dofs cells xb 0 0 (zeros 3 (Z.of_nat (length dofs))).
Proof.
  split; [done|]. split; [apply length_replicate|].
  intros j c Hj Hc. unfold entry, zeros. cbn [data].
  rewrite lookup_replicate_2 by nia.
  rewrite bool_decide_eq_false_2; [done|]. lia.
Qed.

(** One assignment [coords(j, c) = xb[loc * gdim + j]]. *)
Lemma tabulate_assign (V : FunctionSpace) (dofs cells : list Z)
    (xb : nat → list double) (c j : nat) (cell dof : Z) (t : xtensor2) :
  let gdim := geometry_dim (mesh V) in
  let loc := Z.of_nat (std_find dof (cell_dofs (dofmap V) cell)) in
  0 ≤ gdim ≤ 3 →
  3 * Z.of_nat (length dofs) < 2 ^ 64 →
  cells !! c = Some cell → dofs !! c = Some dof →
  Z.of_nat j < gdim →
  loc * gdim + Z.of_nat j < Z.of_nat (length (xb c)) →
  Z.of_nat (length (xb c)) < 2 ^ 64 →
  tabulated V dofs cells xb c (Z.of_nat j) t →
  ∃ t',
    (v ← vget (xb c) (to_size_t (loc * gdim + Z.of_nat j));
     tensor_set t (Z.of_nat j) (Z.of_nat c) v) = Ok t'
    ∧ tabulated V dofs cells xb c (Z.of_nat (S j)) t'.
Proof.
  intros gdim loc Hg Hn Hcell Hdof Hj Hidx Hxb (Hshape & Hdata & Hentries).
  assert (c < length dofs)%nat as Hc by (by eapply lookup_lt_Some).
  assert (0 ≤ loc * gdim + Z.of_nat j) as Hpos by (unfold loc; nia).
  rewrite to_size_t_small by lia.
  destruct (lookup_lt_is_Some_2 (xb c) (Z.to_nat (loc * gdim + Z.of_nat j)))
    as [v Hv]; [lia|].
  assert (vget (xb c) (loc * gdim + Z.of_nat j) = Ok v) as ->
    by (apply vget_Ok; split; [lia | done]).
  cbn [mbind result_bind].
  unfold tensor_set, strides. rewrite Hshape.
  set (n := Z.of_nat (length dofs)) in *.
  assert (Z.of_nat j * (if bool_decide (3 = 1) then 0 else n)
          + Z.of_nat c * (if bool_decide (n = 1) then 0 else 1)
          = Z.of_nat j * n + Z.of_nat c) as ->.
  { rewrite bool_decide_eq_false_2 by done. case_bool_decide; lia. }
  assert (0 ≤ Z.of_nat j * n + Z.of_nat c < 3 * n) as Hflat by nia.
  rewrite to_size_t_small by lia.
  rewrite vset_Ok by lia. cbn [mbind result_bind].
  eexists. split; [reflexivity|].
  split; [done|]. split; [cbn [data]; by rewrite length_insert|].
  intros j' c' Hj' Hc'. unfold entry. cbn [data]. fold n in Hc' |- *.
  destruct (decide (j' * n + Z.of_nat c' = Z.of_nat j * n + Z.of_nat c))
    as [E|E].
  - apply radix_unique in E as [-> ->%(inj Z.of_nat)]; [|lia..].
    rewrite list_lookup_insert_eq by lia. f_equal.
    rewrite bool_decide_eq_true_2 by lia.
    unfold dof_coordinate. rewrite Hcell, Hdof.
    rewrite bool_decide_eq_true_2 by done. fold gdim loc. by rewrite Hv.
  - assert (0 ≤ j' * n + Z.of_nat c') by nia.
    rewrite list_lookup_insert_ne by lia.
    specialize (Hentries j' c' Hj' Hc'). unfold entry in Hentries.
    rewrite Hentries. f_equal.
    match goal with
    | |- (if bool_decide ?A then _ else _) = (if bool_decide ?B then _ else _) =>
        rewrite (bool_decide_ext A B); [done|]
    end.
    split; [intros [?|[-> ?]]; [by left | right; split; [done | lia]]|].
    intros [?|[-> Hlt]]; [by left|]. right. split; [done|].
    destruct (decide (j' = Z.of_nat j)) as [->|]; [done | lia].
Qed.

(** X21. The dof coordinates.  For a space that is neither a subspace
    nor mixed, with pointwise evaluation, a geometric dimension of at
    most 3, and at least as many dofs as cells, when the collaborators
    deliver for every position [c] the buffer of the cell [cells[c]] and
    the dof [dofs[c]] is among the first [space_dimension] dofs of that
    cell: the call returns an array of shape [(3, dofs.size())] whose
    column [c] holds, in its first [gdim] rows, the coordinates found in
    the buffer at the position of [dofs[c]] among the dofs of
    [cells[c]]; the rows from [gdim] on and the columns of the dofs
    beyond the cells are zero. *)
Theorem dof_coordinates_columns (V : FunctionSpace) (dofs cells : list Z)
    (xb : nat → list double) (num_dofs_g : Z)
    (Hcomp : component V = [])
    (Hmixed : is_mixed (element V) = false)
    (Hbs : 0 < block_size (element V))
    (Hsd : 0 ≤ space_dimension (element V) < 2 ^ 31)
    (Hident : interpolation_ident (element V) = true)
    (Hpoints : interpolation_points_shape0 (element V)
               = space_dimension (element V) ÷ block_size (element V))
    (Hgeometry : num_coordinate_dofs V = Ok num_dofs_g)
    (Htabulate : tabulate_coordinate_element V = Ok tt)
    (Hgdim : 0 ≤ geometry_dim (mesh V) ≤ 3)
    (Hcells : (length cells ≤ length dofs)%nat)
    (Hdofs : 3 * Z.of_nat (length dofs) < 2 ^ 64)
    (Hxb : ∀ (c : nat) cell dof, cells !! c = Some cell → dofs !! c = Some dof →
       cell_dof_coordinates V cell (Z.of_nat c) = Ok (xb c)
       ∧ Z.of_nat (length (xb c))
         = (space_dimension (element V) ÷ block_size (element V))
           * geometry_dim (mesh V)
       ∧ Z.of_nat (std_find dof (cell_dofs (dofmap V) cell))
         < space_dimension (element V) ÷ block_size (element V)) :
  let n := Z.of_nat (length dofs) in
  ∃ t, tabulate_dof_coordinates component is_mixed interpolation_ident
         space_dimension interpolation_points_shape0 num_coordinate_dofs
         tabulate_coordinate_element cell_dof_coordinates V dofs cells = Ok t
    ∧ shape t = (3, n)
    ∧ ∀ (j : Z) (c : nat), 0 ≤ j < 3 → (c < length dofs)%nat →
        entry t n j (Z.of_nat c) = Some (dof_coordinate V dofs cells xb j c).
Proof.
  intros n. unfold tabulate_dof_coordinates.
  rewrite bool_decide_eq_false_2 by (intros ?; done).
  rewrite Hmixed.
  rewrite div_quot_Ok by done. cbn [mbind result_bind].
  rewrite Hident. cbn [negb]. rewrite Hgeometry. cbn [mbind result_bind].
  set (sd := space_dimension (element V) ÷ block_size (element V)) in *.
  assert (0 ≤ sd < 2 ^ 31) as Hsdr.
  { unfold sd. split; [apply Z.quot_pos; lia|].
    assert (space_dimension (element V) ÷ block_size (element V)
            ≤ space_dimension (element V))
      by (apply Z.quot_le_upper_bound; nia).
    lia. }
  rewrite (to_size_t_small sd) by lia.
  rewrite bool_decide_eq_true_2 by done. cbn [assert mbind result_bind].
  rewrite Htabulate. cbn [mbind result_bind].
  rewrite (to_size_t_small (geometry_dim (mesh V))) by lia.
  match goal with |- ∃ _, for_loop ?body 0 ?m ?s0 = _ ∧ _ =>
    destruct (for_loop_inv
      (λ c t, tabulated V dofs cells xb c 0 t) body m 0%nat s0)
      as (t & Ht & Hsh & _ & Hentries)
  end.
  - apply tabulated_zeros.
  - intros c t Hc Htab.
    destruct (lookup_lt_is_Some_2 cells c) as [cell Hcell]; [lia|].
    destruct (lookup_lt_is_Some_2 dofs c) as [dof Hdof]; [lia|].
    destruct (Hxb c cell dof Hcell Hdof) as (Hbuf & Hlen & Hloc).
    rewrite (vget_nat _ _ _ Hcell). cbn [mbind result_bind].
    rewrite Hbuf. cbn [mbind result_bind].
    rewrite (vget_nat _ _ _ Hdof). cbn [mbind result_bind].
    match goal with |- ∃ _, for_loop ?body 0 ?m ?s0 = _ ∧ _ =>
      destruct (for_loop_inv
        (λ j t, tabulated V dofs cells xb c (Z.of_nat j) t) body m 0%nat s0)
        as (t' & Ht' & Htab')
    end.
    + done.
    + intros j t' Hj Htab'.
      apply (tabulate_assign V dofs cells xb c j cell dof);
        [done | done | done | done | lia | | | done].
      * rewrite Hlen.
        assert (0 ≤ Z.of_nat (std_find dof (cell_dofs (dofmap V) cell))) by lia.
        nia.
      * rewrite Hlen. nia.
    + exists t'. split; [exact Ht'|].
      destruct Htab' as (Hsh' & Hlen' & Hentries'). split; [done|].
      split; [done|]. intros j c' Hj Hc'.
      rewrite (Hentries' j c' Hj Hc'). f_equal.
      destruct (decide (c' = c)) as [->|Hne].
      * destruct (decide (j < geometry_dim (mesh V))).
        -- rewrite !bool_decide_eq_true_2 by lia. done.
        -- rewrite bool_decide_eq_false_2 by lia.
           rewrite bool_decide_eq_true_2 by lia.
           unfold dof_coordinate. rewrite Hcell, Hdof.
           by rewrite bool_decide_eq_false_2.
      * match goal with
        | |- (if bool_decide ?A then _ else _) = (if bool_decide ?B then _ else _) =>
            rewrite (bool_decide_ext A B); [done|]
        end.
        lia.
  - exists t. split; [exact Ht|]. split; [done|].
    intros j c Hj Hc. unfold n. rewrite (Hentries j c Hj Hc). f_equal.
    case_bool_decide as Hdone; [done|].
    unfold dof_coordinate.
    rewrite (lookup_ge_None_2 cells c); [done|]. lia.
Qed.

(** X22. The runtime errors of [tabulate_dof_coordinates].  Provided the
    collaborators throw no runtime error of their own, the call throws
    one in exactly three cases, checked in this order: the space is a
    subspace; the element is mixed; or the division by the block size
    is defined and the element has no pointwise evaluation.  Every other
    failure of the call is an undefined access, division or assertion,
    never a runtime error. *)
Theorem dof_coordinates_errors (V : FunctionSpace) (dofs cells : list Z)
    (Hgeometry : ∀ e, num_coordinate_dofs V = Err e → not_thrown e)
    (Htabulate : ∀ e, tabulate_coordinate_element V = Err e → not_thrown e)
    (Hbuffer : ∀ cell c e, cell_dof_coordinates V cell c = Err e → not_thrown e)
    (what : string) :
  tabulate_dof_coordinates component is_mixed interpolation_ident
    space_dimension interpolation_points_shape0 num_coordinate_dofs
    tabulate_coordinate_element cell_dof_coordinates V dofs cells
  = Err (runtime_error what)
  ↔ (component V ≠ [] ∧ what = is_subspace)
    ∨ (component V = [] ∧ is_mixed (element V) = true
       ∧ what = is_mixed_space)
    ∨ (component V = [] ∧ is_mixed (element V) = false
       ∧ (∃ q, Sparsity.div_quot (space_dimension (element V))
                 (block_size (element V)) = Ok q)
       ∧ interpolation_ident (element V) = false
       ∧ what = no_pointwise_evaluation).
Proof.
  unfold tabulate_dof_coordinates.
  case_bool_decide as Hcomp.
  { split; [intros [= <-]; by left|].
    intros [[_ ->]|[(? & _)|(? & _)]]; [done | contradiction..]. }
  destruct (is_mixed (element V)) eqn:Hm.
  { split; [intros [= <-]; right; by left|].
    intros [[? _]|[(_ & _ & ->)|(_ & [=] & _)]]; [contradiction | done]. }
  destruct (Sparsity.div_quot (space_dimension (element V))
              (block_size (element V))) as [q|e] eqn:Eq.
  2:{ cbn [mbind result_bind]. split.
      - intros [= ->]. by destruct (div_quot_not_thrown _ _ _ Eq what).
      - intros [[? _]|[(_ & [=] & _)|(_ & _ & (? & [=]) & _)]]. contradiction. }
  cbn [mbind result_bind].
  destruct (interpolation_ident (element V)) eqn:Hi; cbn [negb].
  2:{ split; [intros [= <-]; right; right; eauto 10|].
      intros [[? _]|[(_ & [=] & _)|(_ & _ & _ & _ & ->)]];
        [contradiction | done]. }
  split; [|intros [[? _]|[(_ & [=] & _)|(_ & _ & _ & [=] & _)]]; contradiction].
  intros Hrun. exfalso.
  apply bind_Err in Hrun as [Hrun|(? & _ & Hrun)];
    [by destruct (Hgeometry _ Hrun what)|].
  apply bind_Err in Hrun as [Hrun|(? & _ & Hrun)];
    [by destruct (assert_not_thrown _ _ _ Hrun what)|].
  apply bind_Err in Hrun as [Hrun|(? & _ & Hrun)];
    [by destruct (Htabulate _ Hrun what)|].
  assert (not_thrown (runtime_error what)) as Hnot; [|by destruct (Hnot what)].
  { revert Hrun. apply (for_loop_Err not_thrown).
    intros c t e _ Hbody.
    apply bind_Err in Hbody as [H|(cell & _ & Hbody)];
      [apply vget_Err in H as ->; by intros ?|].
    apply bind_Err in Hbody as [H|(buf & _ & Hbody)];
      [by eapply Hbuffer|].
    apply bind_Err in Hbody as [H|(dof & _ & Hbody)];
      [apply vget_Err in H as ->; by intros ?|].
    revert Hbody. apply (for_loop_Err not_thrown).
    intros j t' e' _ Hinner.
    apply bind_Err in Hinner as [H|(v & _ & H)];
      [apply vget_Err in H as ->; by intros ?|].
    apply tensor_set_Err in H as ->. by intros ?. }
Qed.

End dof_coordinates.

Section dof_coordinates_example.
Import Basis BasisExpansion DofCoordinates.

Lemma dof_coordinates_columns_witness :
  let n := Z.of_nat (length [7; 9; 4]) in
  ∃ t, tabulate_dof_coordinates (λ _, []) (λ _, false) (λ _, true)
         (λ _, 3) (λ _, 3) (λ _, Ok 3) (λ _, Ok tt)
         (λ _ _ _, Ok example_buffer) example_space [7; 9; 4] [0; 0] = Ok t
    ∧ shape t = (3, n)
    ∧ ∀ (j : Z) (c : nat), 0 ≤ j < 3 → (c < length [7; 9; 4])%nat →
        entry t n j (Z.of_nat c)
        = Some (dof_coordinate example_space [7; 9; 4] [0; 0]
                  (λ _, example_buffer) j c).
Proof.
  apply (dof_coordinates_columns (λ _, []) (λ _, false) (λ _, true)
           (λ _, 3) (λ _, 3) (λ _, Ok 3) (λ _, Ok tt)
           (λ _ _ _, Ok example_buffer) example_space [7; 9; 4] [0; 0]
           (λ _, example_buffer) 3).
  - reflexivity.
  - reflexivity.
  - reflexivity.
  - vm_compute. split; congruence.
  - reflexivity.
  - reflexivity.
  - reflexivity.
  - reflexivity.
  - vm_compute. split; congruence.
  - simpl. lia.
  - vm_compute. congruence.
  - intros c cell dof Hcell Hdof. split; [reflexivity|].
    split; [reflexivity|].
    destruct c as [|[|c]]; [| |discriminate Hcell];
      injection Hcell as <-; injection Hdof as <-; vm_compute; congruence.
Defined.

Lemma dof_coordinates_errors_witness :
  tabulate_dof_coordinates (λ _, []) (λ _, true) (λ _, true)
    (λ _, 3) (λ _, 3) (λ _, Ok 3) (λ _, Ok tt)
    (λ _ _ _, Ok example_buffer) example_space [7; 9; 4] [0; 0]
  = Err (runtime_error is_mixed_space)
  ↔ ([] ≠ @nil Z ∧ is_mixed_space = is_subspace)
    ∨ ([] = @nil Z ∧ true = true ∧ is_mixed_space = is_mixed_space)
    ∨ ([] = @nil Z ∧ true = false
       ∧ (∃ q, Sparsity.div_quot 3 (block_size (element example_space)) = Ok q)
       ∧ true = false
       ∧ is_mixed_space = no_pointwise_evaluation).
Proof.
  apply (dof_coordinates_errors (λ _, []) (λ _, true) (λ _, true)
           (λ _, 3) (λ _, 3) (λ _, Ok 3) (λ _, Ok tt)
           (λ _ _ _, Ok example_buffer) example_space [7; 9; 4] [0; 0]).
  - intros e H. discriminate H.
  - intros e H. discriminate H.
  - intros cell c e H. discriminate H.
Defined.

End dof_coordinates_example.
